(** * Goranger (gobrowse): a shallow embedding of [main.go]

    The program is a terminal file browser written over tview.  This
    development embeds the Go code of [main.go] function by function and
    states the properties of its navigation and preview engine.

    Conventions of the embedding.
    - A Go [string] is a Rocq [string] (a sequence of bytes); file contents
      are byte strings as well.
    - [strings.ToLower] and [strings.TrimSpace] read a string as UTF-8 the
      way Go does: an invalid byte is the rune U+FFFD of width one.  The
      white space of [unicode.IsSpace] is written out; the case tables of
      the Unicode standard beyond ASCII, which [unicode.ToLower] looks up,
      are a parameter of the development ([CaseTables]).
    - A path is kept as the list of its components from the root
      ([currentDir] is always absolute and clean in the program: it comes
      from [os.Getwd] or [filepath.Abs]); [filepath.Join] and
      [filepath.Dir] are the lexical functions of Go on that representation
      and [showPath] prints a path the Unix way.
    - The file system is a finite map from paths to nodes, files and
      directories only; the [os] functions the program calls are functions
      on that map which fail only for structural reasons (missing entry,
      not a directory, is a directory).
    - A closure handed to tview ([QueueUpdateDraw], list items, dialog
      callbacks) is a constructor of a small data type together with the
      function that runs it.  [QueueUpdateDraw] hands its closure to the
      event loop and waits until the loop has run it.  A method called on
      the goroutine of the event loop itself (from a key handler, a list
      or dialog callback, a queued closure) or by [main] before [app.Run]
      therefore never comes back from it: that is the outcome [Waiting].
      The goroutines started with [go] do come back; they are run step by
      step next to the event loop ([Sys]).
    - The mutex [lock] is a boolean; [Lock] on a held mutex parks the
      calling goroutine, written as the outcome [Blocked]: the program
      unlocks only in the deferred calls of the functions that locked.
    - Loops and recursions whose end is not structural carry a bound on
      their turns ([fuel]); for each the bound that suffices is proved. *)

From Stdlib Require Import ZArith Lia Ascii String List Permutation Sorted.
From stdpp Require Import base tactics option list gmap strings sorting.
Import ListNotations.

Local Open Scope string_scope.
Local Open Scope list_scope.

(** ** Go strings *)

Module GoStrings.

Definition byte (c : ascii) : Z := Z.of_N (N_of_ascii c).
Definition ofByte (b : Z) : ascii := ascii_of_N (Z.to_N b).

Fixpoint dropBytes (n : nat) (s : string) : string :=
  match n, s with
  | O, _ => s
  | S _, EmptyString => EmptyString
  | S m, String _ r => dropBytes m r
  end.

(** *** Package [unicode/utf8] *)

Definition RuneError : Z := 0xFFFD.
Definition RuneSelf : Z := 0x80.

(** The table [first] with [acceptRanges]: for a byte that can begin a
    rune of several bytes, the number of bytes and the range in which the
    second byte has to lie. *)
Definition first (s0 : Z) : option (nat * Z * Z) :=
  if (s0 <? 0xC2)%Z then None
  else if (s0 <=? 0xDF)%Z then Some (2%nat, 0x80, 0xBF)%Z
  else if (s0 =? 0xE0)%Z then Some (3%nat, 0xA0, 0xBF)%Z
  else if (s0 <=? 0xEC)%Z then Some (3%nat, 0x80, 0xBF)%Z
  else if (s0 =? 0xED)%Z then Some (3%nat, 0x80, 0x9F)%Z
  else if (s0 <=? 0xEF)%Z then Some (3%nat, 0x80, 0xBF)%Z
  else if (s0 =? 0xF0)%Z then Some (4%nat, 0x90, 0xBF)%Z
  else if (s0 <=? 0xF3)%Z then Some (4%nat, 0x80, 0xBF)%Z
  else if (s0 =? 0xF4)%Z then Some (4%nat, 0x80, 0x8F)%Z
  else None.

Definition outside (lo hi b : Z) : bool := (b <? lo)%Z || (hi <? b)%Z.

(** [utf8.DecodeRuneInString]: the first rune of [s] and its width in
    bytes; [(RuneError, 0)] for the empty string and [(RuneError, 1)] for
    a byte that begins no valid encoding. *)
Definition DecodeRuneInString (s : string) : Z * nat :=
  match s with
  | EmptyString => (RuneError, 0%nat)
  | String c0 r0 =>
      let s0 := byte c0 in
      if (s0 <? RuneSelf)%Z then (s0, 1%nat)
      else
        match first s0, r0 with
        | Some (sz, lo, hi), String c1 r1 =>
            let s1 := byte c1 in
            if outside lo hi s1 then (RuneError, 1%nat)
            else if (sz <=? 2)%nat then
              (Z.lor (Z.shiftl (Z.land s0 0x1F) 6) (Z.land s1 0x3F), 2%nat)
            else
              match r1 with
              | String c2 r2 =>
                  let s2 := byte c2 in
                  if outside 0x80 0xBF s2 then (RuneError, 1%nat)
                  else if (sz <=? 3)%nat then
                    (Z.lor (Z.shiftl (Z.land s0 0x0F) 12)
                       (Z.lor (Z.shiftl (Z.land s1 0x3F) 6) (Z.land s2 0x3F)), 3%nat)
                  else
                    match r2 with
                    | String c3 _ =>
                        let s3 := byte c3 in
                        if outside 0x80 0xBF s3 then (RuneError, 1%nat)
                        else
                          (Z.lor (Z.shiftl (Z.land s0 0x07) 18)
                             (Z.lor (Z.shiftl (Z.land s1 0x3F) 12)
                                (Z.lor (Z.shiftl (Z.land s2 0x3F) 6) (Z.land s3 0x3F))),
                           4%nat)
                    | EmptyString => (RuneError, 1%nat)
                    end
              | EmptyString => (RuneError, 1%nat)
              end
        | _, _ => (RuneError, 1%nat)
        end
  end.

(** [utf8.RuneStart] *)
Definition RuneStart (b : Z) : bool := negb (Z.land b 0xC0 =? 0x80)%Z.

(** The rune that the bytes [bs] spell, if they are one rune and nothing
    else: the last step of [DecodeLastRuneInString]. *)
Definition wholeRune (bs : string) : Z * nat :=
  let '(r, size) := DecodeRuneInString bs in
  if (size =? String.length bs)%nat then (r, size) else (RuneError, 1%nat).

(** [utf8.DecodeLastRuneInString], on the bytes of the string from the
    last one backwards: the start of the rune is looked for among the
    three bytes before the last. *)
Definition decodeLastRune (back : string) : Z * nat :=
  match back with
  | EmptyString => (RuneError, 0%nat)
  | String c1 r1 =>
      if (byte c1 <? RuneSelf)%Z then (byte c1, 1%nat)
      else
        match r1 with
        | String c2 r2 =>
            if RuneStart (byte c2) then wholeRune (String c2 (String c1 ""))
            else
              match r2 with
              | String c3 r3 =>
                  if RuneStart (byte c3)
                  then wholeRune (String c3 (String c2 (String c1 "")))
                  else
                    match r3 with
                    | String c4 _ =>
                        if RuneStart (byte c4)
                        then wholeRune (String c4 (String c3 (String c2 (String c1 ""))))
                        else (RuneError, 1%nat)
                    | EmptyString => (RuneError, 1%nat)
                    end
              | EmptyString => (RuneError, 1%nat)
              end
        | EmptyString => (RuneError, 1%nat)
        end
  end.

Definition DecodeLastRuneInString (s : string) : Z * nat :=
  decodeLastRune (String.rev s).

(** [utf8.AppendRune]: a code point that is no Unicode scalar value is
    written as U+FFFD. *)
Definition encodeRune (r : Z) : string :=
  if (0 <=? r)%Z && (r <=? 0x7F)%Z then String (ofByte r) ""
  else if (0 <=? r)%Z && (r <=? 0x7FF)%Z then
    String (ofByte (Z.lor 0xC0 (Z.shiftr r 6)))
      (String (ofByte (Z.lor 0x80 (Z.land r 0x3F))) "")
  else if (0 <=? r)%Z && (r <=? 0xFFFF)%Z && ((r <? 0xD800)%Z || (0xDFFF <? r)%Z) then
    String (ofByte (Z.lor 0xE0 (Z.shiftr r 12)))
      (String (ofByte (Z.lor 0x80 (Z.land (Z.shiftr r 6) 0x3F)))
         (String (ofByte (Z.lor 0x80 (Z.land r 0x3F))) ""))
  else if (0xFFFF <? r)%Z && (r <=? 0x10FFFF)%Z then
    String (ofByte (Z.lor 0xF0 (Z.shiftr r 18)))
      (String (ofByte (Z.lor 0x80 (Z.land (Z.shiftr r 12) 0x3F)))
         (String (ofByte (Z.lor 0x80 (Z.land (Z.shiftr r 6) 0x3F)))
            (String (ofByte (Z.lor 0x80 (Z.land r 0x3F))) "")))
  else String (ofByte 0xEF) (String (ofByte 0xBF) (String (ofByte 0xBD) "")).

(** [for _, c := range s]: the runes of [s] in order; [fuel] bounds the
    turns, and the length of [s] is enough of it. *)
Fixpoint runesFrom (fuel : nat) (s : string) : list Z :=
  match fuel, s with
  | S f, String _ _ =>
      let '(r, size) := DecodeRuneInString s in
      r :: runesFrom f (dropBytes size s)
  | _, _ => []
  end.
Definition runes (s : string) : list Z := runesFrom (String.length s) s.

(** *** Package [unicode] *)

(** The case tables of the Unicode standard, as [unicode.ToLower] looks
    them up for a code point above U+007F.  They are data of the Go
    library and no part of this repository. *)
Class CaseTables : Type := { toLowerTable : Z → Z }.

(** [unicode.ToLower] *)
Definition unicode_ToLower {tables : CaseTables} (r : Z) : Z :=
  if (r <=? 0x7F)%Z then
    if (0x41 <=? r)%Z && (r <=? 0x5A)%Z then (r + 32)%Z else r
  else toLowerTable r.

(** [unicode.IsSpace]: the six of ASCII, U+0085 and U+00A0 in Latin-1,
    and beyond it the property [White_Space]. *)
Definition IsSpace (r : Z) : bool :=
  if (0 <=? r)%Z && (r <=? 0xFF)%Z then
    ((0x09 <=? r)%Z && (r <=? 0x0D)%Z) || (r =? 0x20)%Z || (r =? 0x85)%Z || (r =? 0xA0)%Z
  else
    (r =? 0x1680)%Z || ((0x2000 <=? r)%Z && (r <=? 0x200A)%Z) ||
    (r =? 0x2028)%Z || (r =? 0x2029)%Z || (r =? 0x202F)%Z ||
    (r =? 0x205F)%Z || (r =? 0x3000)%Z.

(** *** Package [strings] *)

(** [strings.Map(mapping, s)]: every rune of [s], an invalid byte being
    U+FFFD, is replaced by the encoding of what [mapping] makes of it; a
    negative result drops the rune. *)
Definition Map (mapping : Z → Z) (s : string) : string :=
  fold_right (λ c out, let r := mapping c in
                       if (r <? 0)%Z then out else encodeRune r +:+ out)
             "" (runes s).

(** [strings.ToLower]: its path for strings of ASCII alone gives what
    [Map(unicode.ToLower, s)] gives on them. *)
Definition ToLower {tables : CaseTables} (s : string) : string := Map unicode_ToLower s.

(** [strings.HasPrefix] *)
Fixpoint HasPrefix (s pre : string) {struct pre} : bool :=
  match pre, s with
  | EmptyString, _ => true
  | String _ _, EmptyString => false
  | String a pre', String b s' => if Ascii.eqb a b then HasPrefix s' pre' else false
  end.

(** [strings.Contains] *)
Fixpoint Contains (s substr : string) : bool :=
  HasPrefix s substr ||
  match s with
  | EmptyString => false
  | String _ r => Contains r substr
  end.

(** [strings.TrimPrefix] *)
Definition TrimPrefix (s pre : string) : string :=
  if HasPrefix s pre then dropBytes (String.length pre) s else s.

(** [strings.TrimLeftFunc(s, unicode.IsSpace)]: the runes in front are
    passed while they are white space. *)
Fixpoint trimLeftFrom (fuel : nat) (s : string) : string :=
  match fuel, s with
  | S f, String _ _ =>
      let '(r, size) := DecodeRuneInString s in
      if IsSpace r then trimLeftFrom f (dropBytes size s) else s
  | _, _ => s
  end.
Definition TrimLeftSpace (s : string) : string := trimLeftFrom (String.length s) s.

(** [strings.TrimRightFunc(s, unicode.IsSpace)], on the bytes from the
    last one backwards: [lastIndexFunc] passes the runes at the end while
    they are white space.  What is cut off begins with the first byte of
    a rune, so the rune before it ends where the cut begins and the step
    that follows the loop in [TrimRightFunc] keeps exactly the bytes up
    to there. *)
Fixpoint trimBackFrom (fuel : nat) (back : string) : string :=
  match fuel, back with
  | S f, String _ _ =>
      let '(r, size) := decodeLastRune back in
      if IsSpace r then trimBackFrom f (dropBytes size back) else back
  | _, _ => back
  end.
Definition TrimRightSpace (s : string) : string :=
  String.rev (trimBackFrom (String.length s) (String.rev s)).

(** [strings.TrimSpace]: its loops over the bytes of ASCII are a short
    cut to [TrimFunc(s, unicode.IsSpace)], to which it turns at the first
    byte that is not ASCII. *)
Definition TrimSpace (s : string) : string := TrimRightSpace (TrimLeftSpace s).

(** [strings.Count(s, sep)] for a one-byte separator *)
Fixpoint Count (s : string) (sep : ascii) : Z :=
  match s with
  | EmptyString => 0
  | String c r => if Ascii.eqb c sep then 1 + Count r sep else Count r sep
  end.

(** [len(s)] *)
Definition len (s : string) : Z := Z.of_nat (String.length s).

(** [strings.Split(s, sep)] for a one-byte separator *)
Fixpoint splitGo (sep : ascii) (cur : string) (s : string) : list string :=
  match s with
  | EmptyString => [String.rev cur]
  | String c r =>
      if Ascii.eqb c sep then String.rev cur :: splitGo sep EmptyString r
      else splitGo sep (String c cur) r
  end.
Definition Split (s : string) (sep : ascii) : list string :=
  splitGo sep EmptyString s.

End GoStrings.
Import GoStrings.

(** ** Paths *)

Abbreviation Path := (list string).

Definition cleanStep (acc : Path) (c : string) : Path :=
  if decide (c = "" ∨ c = ".") then acc
  else if decide (c = "..") then removelast acc
  else acc ++ [c].

(** [filepath.Join(dir, elem)]: [elem] is split at the separators and
    cleaned lexically on top of [dir]. *)
Definition filepath_Join (dir : Path) (elem : string) : Path :=
  fold_left cleanStep (Split elem "/"%char) dir.

(** [filepath.Dir(p)]; the root is its own parent. *)
Definition filepath_Dir (p : Path) : Path := removelast p.

Fixpoint showComponents (p : Path) : string :=
  match p with
  | [] => ""
  | c :: r => "/" +:+ c +:+ showComponents r
  end.

Definition showPath (p : Path) : string :=
  match p with
  | [] => "/"
  | _ => showComponents p
  end.

(** A directory entry name as [os.ReadDir] can return it: one component,
    neither empty nor a dot name, no separator inside. *)
Definition validName (n : string) : Prop :=
  n ≠ "" ∧ n ≠ "." ∧ n ≠ ".." ∧ Count n "/"%char = 0%Z.

(** ** The file system and the [os] package *)

Inductive Node : Type :=
| NFile (data : string)
| NDir.

Abbreviation FS := (gmap Path Node).

Definition isDirNode (n : Node) : bool :=
  match n with NDir => true | NFile _ => false end.

Inductive errno : Type :=
  ENOENT | ENOTDIR | EISDIR | ENOTEMPTY | EINVAL | EBUSY | EEXIST | EBADF.

Record error : Type := mkError { e_op : string; e_path : string; e_no : errno }.

Definition errnoText (e : errno) : string :=
  match e with
  | ENOENT => "no such file or directory"
  | ENOTDIR => "not a directory"
  | EISDIR => "is a directory"
  | ENOTEMPTY => "directory not empty"
  | EINVAL => "invalid argument"
  | EBUSY => "device or resource busy"
  | EEXIST => "file exists"
  | EBADF => "bad file descriptor"
  end.

(** [err.Error()]: an [*os.PathError] or [*os.LinkError] names its path
    or paths, an [*os.SyscallError] (no path) only the call. *)
Definition Error (e : error) : string :=
  if String.eqb (e_path e) "" then e_op e +:+ ": " +:+ errnoText (e_no e)
  else e_op e +:+ " " +:+ e_path e +:+ ": " +:+ errnoText (e_no e).

(** [fs.DirEntry], as far as the program looks at it. *)
Record DirEntry : Type := mkDirEntry { Name : string; IsDir : bool }.

Global Instance DirEntry_eq_dec : EqDecision DirEntry.
Proof. solve_decision. Defined.

Global Instance Node_eq_dec : EqDecision Node.
Proof. solve_decision. Defined.

Module OS.

Fixpoint stripPrefix (p k : Path) : option Path :=
  match p, k with
  | [], _ => Some k
  | a :: p', b :: k' => if decide (a = b) then stripPrefix p' k' else None
  | _ :: _, [] => None
  end.

Definition childOf (p : Path) (kv : Path * Node) : option DirEntry :=
  match stripPrefix p kv.1 with
  | Some [n] => Some (mkDirEntry n (isDirNode kv.2))
  | _ => None
  end.

Definition nameLe (a b : DirEntry) : Prop := String.le (Name a) (Name b).

Global Instance nameLe_dec : RelDecision nameLe.
Proof. intros a b. unfold nameLe. apply _. Defined.

(** The children of directory [p], sorted by file name as [os.ReadDir]
    returns them. *)
Definition entriesOf (fs : FS) (p : Path) : list DirEntry :=
  merge_sort nameLe (omap (childOf p) (map_to_list fs)).

(** Why the walk down to a path that does not exist breaks off: a file
    stands on the way, or an entry is missing. *)
Fixpoint brokenAt (fs : FS) (above rest : Path) : errno :=
  match rest with
  | [] => ENOENT
  | c :: r =>
      match fs !! above with
      | Some (NFile _) => ENOTDIR
      | _ => brokenAt fs (above ++ [c]) r
      end
  end.
Definition missing (fs : FS) (p : Path) : errno := brokenAt fs [] p.

(** [os.Getwd]: the working directory of the process, unless it has been
    removed. *)
Definition Getwd (fs : FS) (cwd : Path) : error + Path :=
  match fs !! cwd with
  | Some NDir => inr cwd
  | _ => inl (mkError "getwd" "" ENOENT)
  end.

(** [os.ReadDir]: the directory is opened as a directory. *)
Definition ReadDir (fs : FS) (p : Path) : error + list DirEntry :=
  match fs !! p with
  | None => inl (mkError "open" (showPath p) (missing fs p))
  | Some (NFile _) => inl (mkError "open" (showPath p) ENOTDIR)
  | Some NDir => inr (entriesOf fs p)
  end.

(** [os.Stat]: the node itself stands for its [FileInfo]. *)
Definition Stat (fs : FS) (p : Path) : error + Node :=
  match fs !! p with
  | None => inl (mkError "stat" (showPath p) (missing fs p))
  | Some n => inr n
  end.

(** [os.MkdirAll]: walks down from the root, creating what is missing;
    fails when a component on the way is a file. *)
Fixpoint mkdirFrom (fs : FS) (above rest : Path) : error + FS :=
  match rest with
  | [] => inr fs
  | c :: r =>
      let q := above ++ [c] in
      match fs !! q with
      | Some NDir => mkdirFrom fs q r
      | Some (NFile _) => inl (mkError "mkdir" (showPath q) ENOTDIR)
      | None => mkdirFrom (<[q := NDir]> fs) q r
      end
  end.
Definition MkdirAll (fs : FS) (p : Path) : error + FS := mkdirFrom fs [] p.

(** [os.Open] for reading: the handle is the path of the open file. *)
Definition Open (fs : FS) (p : Path) : error + Path :=
  match fs !! p with
  | None => inl (mkError "open" (showPath p) (missing fs p))
  | Some _ => inr p
  end.

(** [os.Create]: creates or truncates the file; the parent has to be a
    directory and the target must not be one. *)
Definition Create (fs : FS) (p : Path) : error + (FS * Path) :=
  match fs !! p with
  | Some NDir => inl (mkError "open" (showPath p) EISDIR)
  | _ =>
      match fs !! removelast p with
      | Some NDir => inr (<[p := NFile ""]> fs, p)
      | Some (NFile _) => inl (mkError "open" (showPath p) ENOTDIR)
      | None => inl (mkError "open" (showPath p) (missing fs p))
      end
  end.

(** [io.Copy(out, in)]: the bytes that [in] holds when the copy runs are
    written into the open file [out] from its beginning, over what it
    holds there; what [out] holds beyond them stays. *)
Definition Copy (fs : FS) (out inp : Path) : error + FS :=
  match fs !! inp with
  | Some (NFile data) =>
      match fs !! out with
      | Some (NFile held) =>
          inr (<[out := NFile (data +:+ dropBytes (String.length data) held)]> fs)
      | _ => inl (mkError "write" (showPath out) EBADF)
      end
  | Some NDir => inl (mkError "read" (showPath inp) EISDIR)
  | None => inl (mkError "read" (showPath inp) EBADF)
  end.

Definition under (p k : Path) : bool := bool_decide (is_Some (stripPrefix p k)).

(** [os.RemoveAll]: the entry and everything below it; a missing path
    is no error. *)
Definition RemoveAll (fs : FS) (p : Path) : FS * option error :=
  match p with
  | [] => (filter (λ kv, kv.1 = []) fs, Some (mkError "unlinkat" "/" EBUSY))
  | _ => (filter (λ kv, under p kv.1 = false) fs, None)
  end.

Definition rekey (old new : Path) (kv : Path * Node) : Path * Node :=
  match stripPrefix old kv.1 with
  | Some r => (new ++ r, kv.2)
  | None => kv
  end.

Definition hasChildren (fs : FS) (p : Path) : bool :=
  bool_decide (entriesOf fs p ≠ []).

(** rename(2) *)
Definition sysRename (fs : FS) (old new : Path) : FS * option error :=
  let fail e := (fs, Some (mkError "rename" (showPath old +:+ " " +:+ showPath new) e)) in
  match fs !! old with
  | None => fail (missing fs old)
  | Some src =>
      if decide (old = new) then (fs, None)
      else if under old new then fail EINVAL
      else
        match fs !! removelast new with
        | None => fail (missing fs new)
        | Some (NFile _) => fail ENOTDIR
        | Some NDir =>
            let moved : FS :=
              list_to_map (map (rekey old new) (map_to_list (delete new fs))) in
            match fs !! new, src with
            | None, _ => (moved, None)
            | Some (NFile _), NFile _ => (moved, None)
            | Some (NFile _), NDir => fail ENOTDIR
            | Some NDir, NFile _ => fail EISDIR
            | Some NDir, NDir =>
                if hasChildren fs new then fail ENOTEMPTY else (moved, None)
            end
        end
  end.

(** [os.Rename]: before the call of rename(2) Go refuses a new name that
    is an existing directory, unless the two names are spelled
    differently and yet name the same directory; [sameText] says that
    the two names are the same text. *)
Definition Rename (fs : FS) (old new : Path) (sameText : bool) : FS * option error :=
  let fail e := (fs, Some (mkError "rename" (showPath old +:+ " " +:+ showPath new) e)) in
  match fs !! new with
  | Some NDir =>
      match fs !! old with
      | None => fail (missing fs old)
      | Some _ =>
          if sameText || negb (bool_decide (old = new)) then fail EEXIST
          else sysRename fs old new
      end
  | _ => sysRename fs old new
  end.

End OS.

(** ** Configuration *)

Definition PreviewMaxBytes : Z := 200 * 1024.
Definition TextPreviewLines : Z := 1000.

(** ** tview widgets and the application state *)

(** What a list item does when it is chosen: the two closures handed to
    [AddItem] in [refreshList]. *)
Inductive ItemAction : Type :=
| ActEnter (entry : DirEntry)
| ActGoUp.

Record ListItem : Type := mkItem { MainText : string; Selected : ItemAction }.

(** [tview.List] *)
Record TList : Type := mkList { items : list ListItem; currentItem : Z }.

(** The closures handed to [QueueUpdateDraw]: the one of [refreshList],
    the one of [updateStatus] and the ones of [loadTextPreview]. *)
Inductive Update : Type :=
| UpdRefresh
| UpdStatus (msg : string)
| UpdPreview (text : string).

(** The callbacks of [askInput], with the variables they capture. *)
Inductive InputDone : Type :=
| DoneRename (old : Path)
| DoneCopy (name : string)
| DoneMove (old : Path)
| DoneSearch.

(** What the application shows as its root primitive. *)
Inductive Screen : Type :=
| ScrLayout
| ScrModal (under : Screen) (message : string) (restore : bool)
| ScrConfirm (message : string) (name : string) (path : Path)
| ScrInput (title label initial : string) (done : InputDone).

(** [updates] is what waits in the channel of the application for the
    event loop to run: closures handed over by goroutines other than the
    loop's own.  The program starts such goroutines for
    [loadTextPreview] alone, so each closure is one that sets the preview
    pane, kept as the text it sets. *)
Record AppState : Type := mkApp {
  filesList : TList;
  preview : string;
  status : string;
  root : Screen;
  updates : list string;
  currentDir : Path;
  files : list DirEntry;
  lock : bool;
  bookmarks : list Path;
  searchTerm : string
}.

Definition set_filesList (l : TList) (s : AppState) : AppState :=
  mkApp l (preview s) (status s) (root s) (updates s) (currentDir s) (files s)
        (lock s) (bookmarks s) (searchTerm s).
Definition set_preview (t : string) (s : AppState) : AppState :=
  mkApp (filesList s) t (status s) (root s) (updates s) (currentDir s) (files s)
        (lock s) (bookmarks s) (searchTerm s).
Definition set_status (t : string) (s : AppState) : AppState :=
  mkApp (filesList s) (preview s) t (root s) (updates s) (currentDir s) (files s)
        (lock s) (bookmarks s) (searchTerm s).
Definition set_root (r : Screen) (s : AppState) : AppState :=
  mkApp (filesList s) (preview s) (status s) r (updates s) (currentDir s) (files s)
        (lock s) (bookmarks s) (searchTerm s).
Definition set_updates (u : list string) (s : AppState) : AppState :=
  mkApp (filesList s) (preview s) (status s) (root s) u (currentDir s) (files s)
        (lock s) (bookmarks s) (searchTerm s).
Definition set_files (f : list DirEntry) (s : AppState) : AppState :=
  mkApp (filesList s) (preview s) (status s) (root s) (updates s) (currentDir s) f
        (lock s) (bookmarks s) (searchTerm s).
Definition set_lock (b : bool) (s : AppState) : AppState :=
  mkApp (filesList s) (preview s) (status s) (root s) (updates s) (currentDir s)
        (files s) b (bookmarks s) (searchTerm s).
Definition set_bookmarks (b : list Path) (s : AppState) : AppState :=
  mkApp (filesList s) (preview s) (status s) (root s) (updates s) (currentDir s)
        (files s) (lock s) b (searchTerm s).
Definition set_searchTerm (t : string) (s : AppState) : AppState :=
  mkApp (filesList s) (preview s) (status s) (root s) (updates s) (currentDir s)
        (files s) (lock s) (bookmarks s) t.

(** [NewAppState], started in directory [cwd]. *)
Definition NewAppState (cwd : Path) : AppState :=
  {| filesList := mkList [] 0; preview := ""; status := ""; root := ScrLayout;
     updates := []; currentDir := cwd; files := []; lock := false;
     bookmarks := []; searchTerm := "" |}.

(** ** Running Go code: the world and the outcome of a call *)

Record World : Type := mkWorld {
  w_fs : FS;
  w_cwd : Path;                     (* working directory of the process *)
  w_spawned : list (list string);   (* commands started by [systemOpen] *)
  w_app : AppState
}.

Inductive Outcome (A : Type) : Type :=
| Returns (a : A) (w : World)
| Blocked (w : World)     (* parked for ever on [lock] *)
| Waiting (u : Update) (w : World)
                          (* parked for ever in [QueueUpdateDraw], the closure
                             [u] handed over and never run *)
| Panics (w : World)      (* run-time panic *)
| Unfinished (w : World). (* the embedding does not follow the program here:
                             its recursion bound was hit, or a path was typed
                             that it does not read *)
Arguments Returns {A} a w.
Arguments Blocked {A} w.
Arguments Waiting {A} u w.
Arguments Panics {A} w.
Arguments Unfinished {A} w.

Definition Go (A : Type) : Type := World → Outcome A.

Definition go_ret {A} (a : A) : Go A := λ w, Returns a w.
Definition go_bind {A B} (m : Go A) (k : A → Go B) : Go B :=
  λ w, match m w with
       | Returns a w' => k a w'
       | Blocked w' => Blocked w'
       | Waiting u w' => Waiting u w'
       | Panics w' => Panics w'
       | Unfinished w' => Unfinished w'
       end.

Global Instance go_mret : MRet Go := @go_ret.
Global Instance go_mbind : MBind Go := λ A B k m, go_bind m k.

Definition getApp : Go AppState := λ w, Returns (w_app w) w.
Definition modifyApp (f : AppState → AppState) : Go unit :=
  λ w, Returns tt (mkWorld (w_fs w) (w_cwd w) (w_spawned w) (f (w_app w))).
Definition getFS : Go FS := λ w, Returns (w_fs w) w.
Definition putFS (fs : FS) : Go unit :=
  λ w, Returns tt (mkWorld fs (w_cwd w) (w_spawned w) (w_app w)).
Definition panic {A} : Go A := λ w, Panics w.

(** [defer d] in front of [body]: [d] runs when [body] returns or panics;
    a goroutine parked inside [body] never gets to it. *)
Definition deferred {A} (d : Go unit) (body : Go A) : Go A :=
  λ w, match body w with
       | Returns a w' => (d ;; mret a) w'
       | Blocked w' => Blocked w'
       | Waiting u w' => Waiting u w'
       | Panics w' => (d ;; panic) w'
       | Unfinished w' => Unfinished w'
       end.

(** [s.lock.Lock()] and [s.lock.Unlock()] of the non-reentrant
    [sync.Mutex]. *)
Definition Lock : Go unit :=
  λ w, if lock (w_app w) then Blocked w
       else Returns tt (mkWorld (w_fs w) (w_cwd w) (w_spawned w) (set_lock true (w_app w))).
Definition Unlock : Go unit :=
  λ w, if lock (w_app w)
       then Returns tt (mkWorld (w_fs w) (w_cwd w) (w_spawned w) (set_lock false (w_app w)))
       else Panics w.

(** [s.app.QueueUpdateDraw(f)] called on a goroutine of its own: the
    closure that sets the preview pane to [text] joins the channel, which
    the event loop works through in order.  The goroutine is held until
    the loop has run the closure and does nothing in between; the
    embedding lets its next stretch begin at any time after, which allows
    every order of events that the program allows. *)
Definition enqueue (text : string) (s : AppState) : AppState :=
  set_updates (updates s ++ [text]) s.

(** [s.app.QueueUpdateDraw(f)] called on the goroutine of the event loop,
    or before the loop runs: the closure is handed over and the caller
    waits for the loop to run it, which the loop, being the caller or not
    yet started, never does. *)
Definition QueueUpdateDraw (u : Update) : Go unit := λ w, Waiting u w.

(** [updateStatus] *)
Definition updateStatus (msg : string) : Go unit :=
  QueueUpdateDraw (UpdStatus msg).

Definition statusLine (dir : Path) (msg : string) : string :=
  "[yellow]Dir:[-] " +:+ showPath dir +:+ "  [green]|[-] " +:+ msg.

(** [showModal]: the modal is laid over the current root; [restore] tells
    whether its button puts the layout back. *)
Definition showModal (message : string) (restore : bool) : Go unit :=
  modifyApp (λ s, set_root (ScrModal (root s) message restore) s).

(** [askInput] and [confirm] replace the root by a form or a modal. *)
Definition askInput (title label initial : string) (done : InputDone) : Go unit :=
  modifyApp (set_root (ScrInput title label initial done)).
Definition confirm (message name : string) (path : Path) : Go unit :=
  modifyApp (set_root (ScrConfirm message name path)).

(** [systemOpen] on a Unix system. *)
Definition systemOpen (path : Path) : Go unit :=
  λ w, Returns tt (mkWorld (w_fs w) (w_cwd w)
                            (w_spawned w ++ [["xdg-open"; showPath path]]) (w_app w)).

(** ** [sort.Slice]

    The library function is known to the program by its contract alone:
    the result is the input rearranged so that no element is less than
    one before it, and equal elements may come out in any order.  Its
    routine for a slice of at most twelve elements is kept here in the two
    forms that Go releases have had: insertion alone (Go 1.19 and later),
    and one pass over the pairs six apart followed by insertion (up to
    Go 1.18).  The first is taken where the embedding has to run. *)

Section SortSlice.
Context {A : Type} (less : A → A → bool).

(** The inner loop of [insertionSort], on the part already sorted,
    nearest element first: the element moves left while it is less than
    its left neighbour. *)
Fixpoint sinkLeft (x : A) (before : list A) : list A :=
  match before with
  | y :: r => if less x y then y :: sinkLeft x r else x :: before
  | [] => [x]
  end.

Definition insertionSort (data : list A) : list A :=
  rev (fold_left (λ before x, sinkLeft x before) data []).

(** [if data.Less(i, i-6) { data.Swap(i, i-6) }] *)
Definition gapStep (d : list A) (i : nat) : list A :=
  match d !! i, d !! (i - 6)%nat with
  | Some x, Some y => if less x y then <[(i - 6)%nat := x]> (<[i := y]> d) else d
  | _, _ => d
  end.

(** [for i := a + 6; i < b; i++] *)
Definition gapPass (data : list A) : list A :=
  fold_left gapStep (seq 6 (length data - 6)) data.

Definition sort_Slice (data : list A) : list A := insertionSort data.

Definition sort_Slice_go118 (data : list A) : list A :=
  insertionSort (gapPass data).

(** No element is less than one that stands before it. *)
Definition sortedBy (l : list A) : Prop :=
  StronglySorted (λ a b, less b a = false) l.

(** What [sort.Slice] promises of its result. *)
Definition sortContract (data out : list A) : Prop :=
  Permutation data out ∧ sortedBy out.
End SortSlice.

(** A routine that can stand for [sort.Slice]. *)
Definition Sorter : Type := (DirEntry → DirEntry → bool) → list DirEntry → list DirEntry.

(** ** Methods of [AppState] *)

Section Program.
Context {tables : CaseTables}.

(** The [less] closure of [sortFiles]. *)
Definition entryLess (a b : DirEntry) : bool :=
  if IsDir a && negb (IsDir b) then true
  else if negb (IsDir a) && IsDir b then false
  else String.ltb (ToLower (Name a)) (ToLower (Name b)).

Definition sortFilesWith (sorter : Sorter) : Go unit :=
  Lock ;;
  deferred Unlock (
    s ← getApp;
    let slice := files s in
    modifyApp (set_files (sorter entryLess slice))).

Definition sortFiles : Go unit := sortFilesWith sort_Slice.

Definition loadFiles : Go (option error) :=
  Lock ;;
  deferred Unlock (
    s ← getApp;
    fs ← getFS;
    match OS.ReadDir fs (currentDir s) with
    | inl err => mret (Some err)
    | inr entries =>
        modifyApp (set_files entries) ;;
        sortFiles ;;
        mret None
    end).

(** [tview.List] methods *)
Definition Clear (l : TList) : TList := mkList [] 0.
Definition AddItem (text : string) (act : ItemAction) (l : TList) : TList :=
  mkList (items l ++ [mkItem text act]) (currentItem l).
Definition GetItemCount (l : TList) : Z := Z.of_nat (length (items l)).
Definition GetCurrentItem (l : TList) : Z := currentItem l.
Definition SetCurrentItem (i : Z) (l : TList) : TList :=
  let n := GetItemCount l in
  let i := if (i <? 0)%Z then (n + i)%Z else i in
  let i := if (n <=? i)%Z then (n - 1)%Z else i in
  let i := if (i <? 0)%Z then 0%Z else i in
  mkList (items l) i.
Definition GetItemText (idx : Z) : Go string :=
  s ← getApp;
  if (idx <? 0)%Z then panic
  else match items (filesList s) !! Z.to_nat idx with
       | Some it => mret (MainText it)
       | None => panic
       end.

Definition dirTag : string := "[::b][DIR] ".
Definition goUpLabel : string := "[..] Go up".

Definition listLabel (e : DirEntry) : string :=
  if IsDir e then dirTag +:+ Name e else Name e.

(** One turn of the loop over [s.files] in [refreshList]. *)
Definition addEntry (term : string) (l : TList) (e : DirEntry) : TList :=
  let name := Name e in
  if negb (String.eqb term "") && negb (Contains (ToLower name) (ToLower term))
  then l
  else AddItem (listLabel e) (ActEnter e) l.

(** The closure that [refreshList] hands over, up to its last
    statement: the list is built again from [s.files]. *)
Definition rebuildList (s : AppState) : AppState :=
  let l0 := Clear (filesList s) in
  let l1 := fold_left (addEntry (searchTerm s)) (files s) l0 in
  let l2 := if decide (filepath_Dir (currentDir s) ≠ currentDir s)
            then AddItem goUpLabel ActGoUp l1 else l1 in
  let l3 := if (0 <? GetItemCount l2)%Z then SetCurrentItem 0 l2 else l2 in
  set_filesList l3 s.

(** The whole closure, as the event loop would run it: its last
    statement is [s.updateStatus("Ready")]. *)
Definition refreshDraw : Go unit :=
  modifyApp rebuildList ;;
  updateStatus "Ready".

Definition refreshList : Go unit :=
  _ ← loadFiles;
  QueueUpdateDraw UpdRefresh.

(** What the event loop does when it runs a closure. *)
Definition runClosure (u : Update) : Go unit :=
  match u with
  | UpdRefresh => refreshDraw
  | UpdStatus msg => modifyApp (λ s, set_status (statusLine (currentDir s) msg) s)
  | UpdPreview text => modifyApp (set_preview text)
  end.

(** The event loop takes the closures that wait in the channel one by
    one; each sets the preview pane. *)
Fixpoint drain (fuel : nat) (s : AppState) : AppState :=
  match fuel, updates s with
  | S f, text :: rest => drain f (set_preview text (set_updates rest s))
  | _, _ => s
  end.

Definition eventLoop (s : AppState) : AppState :=
  drain (length (updates s)) s.

(** ** Copying *)

Inductive CopyResult : Type :=
| CopyReturns (fs : FS) (err : option error)
| CopyOutOfFuel.

(** [for _, e := range entries { ... }] with its early [return err]. *)
Definition forEntries (body : DirEntry → FS → CopyResult)
  : list DirEntry → FS → CopyResult :=
  fix loop (entries : list DirEntry) (fs : FS) : CopyResult :=
    match entries with
    | [] => CopyReturns fs None
    | e :: rest =>
        match body e fs with
        | CopyReturns fs' None => loop rest fs'
        | other => other
        end
    end.

Fixpoint copyPath (fuel : nat) (fs : FS) (src dst : Path) : CopyResult :=
  match fuel with
  | O => CopyOutOfFuel
  | S f =>
      match OS.Stat fs src with
      | inl err => CopyReturns fs (Some err)
      | inr info =>
          if isDirNode info then copyDir f fs src dst
          else
            match OS.Open fs src with
            | inl err => CopyReturns fs (Some err)
            | inr inp =>
                match OS.Create fs dst with
                | inl err => CopyReturns fs (Some err)
                | inr (fs1, out) =>
                    match OS.Copy fs1 out inp with
                    | inl err => CopyReturns fs1 (Some err)
                    | inr fs2 => CopyReturns fs2 None
                    end
                end
            end
      end
  end
with copyDir (fuel : nat) (fs : FS) (src dst : Path) : CopyResult :=
  match fuel with
  | O => CopyOutOfFuel
  | S f =>
      match OS.ReadDir fs src with
      | inl err => CopyReturns fs (Some err)
      | inr entries =>
          match OS.MkdirAll fs dst with
          | inl err => CopyReturns fs (Some err)
          | inr fs1 =>
              forEntries
                (λ e fs',
                   let srcPath := filepath_Join src (Name e) in
                   let dstPath := filepath_Join dst (Name e) in
                   if IsDir e then copyDir f fs' srcPath dstPath
                   else copyPath f fs' srcPath dstPath)
                entries fs1
          end
      end
  end.

(** A path typed by the user goes to the [os] functions as it was typed
    and is read by the file system, from the root or from the working
    directory of the process.  The embedding reads the texts that are
    plain: the root, or names set apart by single separators, each of
    them the name that a directory entry can have, free of NUL and within
    the limits of 255 bytes a name and 4095 bytes a path.  Such a text
    names the path that its names spell.  Any other text ([.], [..],
    doubled or trailing separators and so on) is left unread. *)
Definition plainName (n : string) : bool :=
  negb (String.eqb n "") && negb (String.eqb n ".") && negb (String.eqb n "..") &&
  (Count n "/"%char =? 0)%Z && (Count n "000"%char =? 0)%Z &&
  (String.length n <=? 255)%nat.

Definition typedPath (cwd : Path) (text : string) : option Path :=
  if (4095 <? String.length text)%nat then None
  else
    match Split text "/"%char with
    | [""; ""] => Some []
    | "" :: c :: rest => if forallb plainName (c :: rest) then Some (c :: rest) else None
    | comps => if forallb plainName comps then Some (cwd ++ comps) else None
    end.

(** A path that the program has put together with [filepath.Join] is
    clean; it is read here when its names keep to the same limits. *)
Definition plainPath (p : Path) : bool :=
  forallb plainName p && (String.length (showPath p) <=? 4095)%nat.

(** The length of the longest path in the file system: no recursion of
    [copyDir] goes deeper. *)
Definition maxDepth (fs : FS) : nat :=
  map_fold (λ k _ acc, Nat.max (length k) acc) 0%nat fs.

Definition goCopyPath (src : Path) (text : string) : Go (option error) :=
  λ w, match typedPath (w_cwd w) text with
       | None => Unfinished w
       | Some dst =>
           match copyPath (2 + maxDepth (w_fs w)) (w_fs w) src dst with
           | CopyReturns fs err => Returns err (mkWorld fs (w_cwd w) (w_spawned w) (w_app w))
           | CopyOutOfFuel => Unfinished w
           end
       end.

(** ** File operations on the selection *)

Definition deleteSelection : Go unit :=
  s ← getApp;
  let idx := GetCurrentItem (filesList s) in
  if (idx <? 0)%Z then mret tt
  else
    label ← GetItemText idx;
    let name := TrimPrefix label dirTag in
    let path := filepath_Join (currentDir s) name in
    confirm ("Delete '" +:+ name +:+ "'? This cannot be undone.") name path.

Definition renameSelection : Go unit :=
  s ← getApp;
  let idx := GetCurrentItem (filesList s) in
  if (idx <? 0)%Z then mret tt
  else
    label ← GetItemText idx;
    let name := TrimPrefix label dirTag in
    let old := filepath_Join (currentDir s) name in
    let initial := name in
    askInput "Rename" "New name:" initial (DoneRename old).

Definition copySelection : Go unit :=
  s ← getApp;
  let idx := GetCurrentItem (filesList s) in
  if (idx <? 0)%Z then mret tt
  else
    label ← GetItemText idx;
    let name := TrimPrefix label dirTag in
    askInput "Copy to" "Destination path:"
             (showPath (filepath_Join (currentDir s) (name +:+ ".copy")))
             (DoneCopy name).

Definition moveSelection : Go unit :=
  s ← getApp;
  let idx := GetCurrentItem (filesList s) in
  if (idx <? 0)%Z then mret tt
  else
    label ← GetItemText idx;
    let name := TrimPrefix label dirTag in
    let old := filepath_Join (currentDir s) name in
    askInput "Move to" "Destination path:"
             (showPath (filepath_Join (currentDir s) name)) (DoneMove old).

(** The [KeyOpen] case of the input capture in [setupKeys]. *)
Definition openSelection : Go unit :=
  s ← getApp;
  let idx := GetCurrentItem (filesList s) in
  if (idx <? 0)%Z then mret tt
  else
    label ← GetItemText idx;
    let name := TrimPrefix label dirTag in
    let path := filepath_Join (currentDir s) name in
    systemOpen path.

Definition goRemoveAll (path : Path) : Go (option error) :=
  λ w, let '(fs, err) := OS.RemoveAll (w_fs w) path in
       Returns err (mkWorld fs (w_cwd w) (w_spawned w) (w_app w)).
Definition goRename (old new : Path) (sameText : bool) : Go (option error) :=
  λ w, let '(fs, err) := OS.Rename (w_fs w) old new sameText in
       Returns err (mkWorld fs (w_cwd w) (w_spawned w) (w_app w)).
Definition unread {A} : Go A := λ w, Unfinished w.

(** The callback that [deleteSelection] gives to [confirm]. *)
Definition deleteDone (name : string) (path : Path) (ok : bool) : Go unit :=
  if negb ok then mret tt
  else
    err ← goRemoveAll path;
    match err with
    | Some e => showModal ("Delete failed: " +:+ Error e) false
    | None => updateStatus ("Deleted: " +:+ name) ;; refreshList
    end.

(** The callbacks given to [askInput]. *)
Definition inputDone (k : InputDone) (text : string) (ok : bool) : Go unit :=
  match k with
  | DoneRename old =>
      if negb ok || String.eqb (TrimSpace text) "" then mret tt
      else
        s ← getApp;
        let newPath := filepath_Join (currentDir s) text in
        if negb (plainPath old && plainPath newPath) then unread
        else
        err ← goRename old newPath (String.eqb (showPath old) (showPath newPath));
        match err with
        | Some e => showModal ("Rename failed: " +:+ Error e) false
        | None => updateStatus ("Renamed to: " +:+ text) ;; refreshList
        end
  | DoneCopy name =>
      if negb ok || String.eqb (TrimSpace text) "" then mret tt
      else
        updateStatus "Copying..." ;;
        s ← getApp;
        err ← goCopyPath (filepath_Join (currentDir s) name) text;
        match err with
        | Some e => showModal ("Copy failed: " +:+ Error e) false
        | None => updateStatus ("Copied to: " +:+ text) ;; refreshList
        end
  | DoneMove old =>
      if negb ok || String.eqb (TrimSpace text) "" then mret tt
      else
        w ← (λ w, Returns w w);
        match (if plainPath old then typedPath (w_cwd w) text else None) with
        | None => unread
        | Some new =>
        err ← goRename old new (String.eqb (showPath old) text);
        match err with
        | Some e => showModal ("Move failed: " +:+ Error e) false
        | None => updateStatus ("Moved to: " +:+ text) ;; refreshList
        end
        end
  | DoneSearch =>
      if negb ok then mret tt
      else modifyApp (set_searchTerm text) ;; refreshList
  end.

(** The buttons of the dialogs: [SetRoot(s.layout())], then the
    callback. *)
Definition pressConfirm (label : string) : Go unit :=
  s ← getApp;
  match root s with
  | ScrConfirm _ name path =>
      modifyApp (set_root ScrLayout) ;;
      deleteDone name path (String.eqb label "Yes")
  | _ => mret tt
  end.

Definition pressOK (text : string) : Go unit :=
  s ← getApp;
  match root s with
  | ScrInput _ _ _ k => modifyApp (set_root ScrLayout) ;; inputDone k text true
  | _ => mret tt
  end.

Definition pressCancel : Go unit :=
  s ← getApp;
  match root s with
  | ScrInput _ _ _ k => modifyApp (set_root ScrLayout) ;; inputDone k "" false
  | _ => mret tt
  end.

Definition promptSearch : Go unit :=
  s ← getApp;
  askInput "Search" "Filter filenames:" (searchTerm s) DoneSearch.

(** ** Bookmarks *)

Fixpoint indexOf (p : Path) (l : list Path) : option nat :=
  match l with
  | [] => None
  | b :: r => if decide (b = p) then Some O else S <$> indexOf p r
  end.

Definition toggleBookmark : Go unit :=
  s ← getApp;
  match indexOf (currentDir s) (bookmarks s) with
  | Some i =>
      modifyApp (set_bookmarks (take i (bookmarks s) ++ drop (S i) (bookmarks s))) ;;
      updateStatus "Removed bookmark"
  | None =>
      modifyApp (set_bookmarks (bookmarks s ++ [currentDir s])) ;;
      updateStatus "Bookmarked"
  end.

(** ** Text preview *)

Inductive ioError : Type := io_EOF | io_EISDIR.

(** A [bufio.Reader] over an open file: the bytes not yet read and the
    error that the file gives once they are used up. *)
Record Reader : Type := mkReader { rd_rest : string; rd_end : ioError }.

(** The bytes up to and including the first [delim], and what is left;
    [false] when the bytes ran out before a [delim] was met. *)
Fixpoint cutLine (delim : ascii) (s : string) : string * bool * string :=
  match s with
  | EmptyString => (EmptyString, false, EmptyString)
  | String c r =>
      if Ascii.eqb c delim then (String c EmptyString, true, r)
      else let '(l, found, rest) := cutLine delim r in (String c l, found, rest)
  end.

(** [reader.ReadString(delim)] *)
Definition ReadString (rd : Reader) (delim : ascii) : string * option ioError * Reader :=
  let '(l, found, rest) := cutLine delim (rd_rest rd) in
  (l, if found then None else Some (rd_end rd), mkReader rest (rd_end rd)).

Definition newline : ascii := "010"%char.

(** The read loop of [loadTextPreview]: [n] and [buf] are its variables,
    [fuel] bounds the number of turns. *)
Fixpoint readLoop (fuel : nat) (n : Z) (buf : string) (rd : Reader) : string :=
  match fuel with
  | O => buf
  | S f =>
      if (n <? PreviewMaxBytes)%Z then
        let '(line, err, rd') := ReadString rd newline in
        let buf := buf +:+ line in
        let n := (n + len line)%Z in
        match err with
        | Some _ => buf
        | None =>
            if (TextPreviewLines <? Count buf newline)%Z then buf
            else readLoop f n buf rd'
        end
      else buf
  end.

Definition truncatedMark : string := String newline "... (truncated)".

(** The text that [loadTextPreview] hands to [SetText] for an open
    file. *)
Definition previewText (rd : Reader) : string :=
  let text := readLoop (S (String.length (rd_rest rd))) 0 "" rd in
  if (len text =? PreviewMaxBytes)%Z then text +:+ truncatedMark else text.

Definition NewReader (fs : FS) (f : Path) : Reader :=
  match fs !! f with
  | Some (NFile data) => mkReader data io_EOF
  | _ => mkReader "" io_EISDIR
  end.

(** [loadTextPreview] runs in three stretches, each ending with a queued
    closure or with the text in hand; as a goroutine it can be overtaken
    between them. *)
Inductive Task : Type :=
| TStart (path : Path)
| TOpen (path : Path)
| TDeliver (text : string)
| TDone.

Definition stepTask (fs : FS) (t : Task) (s : AppState) : Task * AppState :=
  match t with
  | TStart path => (TOpen path, enqueue "Loading preview..." s)
  | TOpen path =>
      match OS.Open fs path with
      | inl err => (TDone, enqueue ("Error opening file: " +:+ Error err) s)
      | inr f => (TDeliver (previewText (NewReader fs f)), s)
      end
  | TDeliver text => (TDone, enqueue text s)
  | TDone => (TDone, s)
  end.

(** [loadTextPreview] called directly, as [openPreview] does on the
    goroutine of the event loop. *)
Definition loadTextPreview (path : Path) : Go unit :=
  QueueUpdateDraw (UpdPreview "Loading preview...") ;;
  fs ← getFS;
  match OS.Open fs path with
  | inl err => QueueUpdateDraw (UpdPreview ("Error opening file: " +:+ Error err))
  | inr f => QueueUpdateDraw (UpdPreview (previewText (NewReader fs f)))
  end.

(** Goroutines started by [go s.loadTextPreview(path)] next to the event
    loop. *)
Record Sys : Type := mkSys { sys_fs : FS; sys_app : AppState; sys_tasks : list Task }.

Inductive Event : Type :=
| EvGo (path : Path)     (* [go s.loadTextPreview(path)]: a new request *)
| EvStep (i : nat)       (* goroutine [i] runs its next stretch *)
| EvDraw.                (* the event loop runs one queued closure *)

Definition sysStep (sys : Sys) (ev : Event) : Sys :=
  match ev with
  | EvGo path => mkSys (sys_fs sys) (sys_app sys) (sys_tasks sys ++ [TStart path])
  | EvStep i =>
      match sys_tasks sys !! i with
      | Some t =>
          let '(t', s') := stepTask (sys_fs sys) t (sys_app sys) in
          mkSys (sys_fs sys) s' (<[i := t']> (sys_tasks sys))
      | None => sys
      end
  | EvDraw => mkSys (sys_fs sys) (drain 1 (sys_app sys)) (sys_tasks sys)
  end.

Definition runSys (sys : Sys) (evs : list Event) : Sys := fold_left sysStep evs sys.

(** ** Start-up *)

Inductive Started : Type :=
| ExitPrinting (line : string)   (* [fmt.Println] and [return] *)
| EnteredRun.                    (* reached [state.app.Run()] *)

(** [main] from its call of [loadFiles] up to the call of [app.Run];
    [setupKeys] and [layout] only install handlers and widgets. *)
Definition startUp : Go Started :=
  err ← loadFiles;
  match err with
  | Some e => mret (ExitPrinting ("Error reading directory: " +:+ Error e))
  | None =>
      refreshList ;;
      updateStatus "Ready" ;;
      mret EnteredRun
  end.

(** [main]: [NewAppState] asks [os.Getwd] for the directory to start
    in. *)
Definition main : Go Started :=
  w ← (λ w, Returns w w);
  match OS.Getwd (w_fs w) (w_cwd w) with
  | inl e => mret (ExitPrinting ("Error creating app: " +:+ Error e))
  | inr cwd => modifyApp (λ _, NewAppState cwd) ;; startUp
  end.

Definition initialWorld (fs : FS) (cwd : Path) : World :=
  mkWorld fs cwd [] (NewAppState cwd).

(** How the process goes on from [main].  Up to [app.Run] the goroutine
    of [main] is the only one: when it parks, the Go runtime finds every
    goroutine asleep and ends the process with the fatal error
    [all goroutines are asleep - deadlock!]. *)
Inductive Ending : Type :=
| Exits (printed : string)
| RunsInterface
| FatalDeadlock
| FatalPanic
| Unread.

Definition program (w : World) : Ending :=
  match main w with
  | Returns (ExitPrinting line) _ => Exits line
  | Returns EnteredRun _ => RunsInterface
  | Blocked _ | Waiting _ _ => FatalDeadlock
  | Panics _ => FatalPanic
  | Unfinished _ => Unread
  end.

End Program.

(** ** Notions used in the statements *)

(** [s] is empty or made of white space only: every rune of it is white
    space for [unicode.IsSpace]. *)
Definition allSpace (s : string) : bool := forallb IsSpace (runes s).

(** The no-break space U+00A0 and the em space U+2003, in UTF-8. *)
Definition nbsp : string := String "194" (String "160" "").
Definition emsp : string := String "226" (String "128" (String "131" "")).

Section Notions.
Context {tables : CaseTables}.

(** [f] occurs in [name] when letter case is ignored. *)
Definition ciContains (name f : string) : Prop :=
  ∃ a b, ToLower name = a +:+ ToLower f +:+ b.

(** The current directory has a parent, as [refreshList] tests it. *)
Definition hasParent (p : Path) : Prop := filepath_Dir p ≠ p.

(** The list item that [refreshList] makes of an entry. *)
Definition entryItem (e : DirEntry) : ListItem := mkItem (listLabel e) (ActEnter e).

Definition parentItem : ListItem := mkItem goUpLabel ActGoUp.

(** The test of [refreshList] on one entry, read as "keep it". *)
Definition keepEntry (term : string) (e : DirEntry) : bool :=
  Contains (ToLower (Name e)) (ToLower term).

(** ** Sample worlds *)

Definition dirA : Path := ["home"; "a"].
Definition dirB : Path := ["home"; "b"].

(** Two bookmarks, the browser standing in the first one. *)
Definition bookmarkWorld : World :=
  mkWorld ∅ dirA [] (set_bookmarks [dirA; dirB] (NewAppState dirA)).

(** An operation tells the user of a failure by a modal or by status
    text. *)
Definition failureShown (before after : AppState) : Prop :=
  (∃ u m r, root after = ScrModal u m r) ∨
  updates after ≠ updates before ∨
  status after ≠ status before.

(** The state of the panes with the entries of [dir] in [s.files],
    sorted, and the list built from them. *)
Definition loadedApp (fs : FS) (dir : Path) : AppState :=
  rebuildList (set_files (sort_Slice entryLess (OS.entriesOf fs dir)) (NewAppState dir)).

Definition SetCurrentItemApp (i : Z) (s : AppState) : AppState :=
  set_filesList (SetCurrentItem i (filesList s)) s.

Definition taggedName : string := "[::b][DIR] notes.txt".

(** [/home/a] holds the two files [notes.txt] and [[::b][DIR] notes.txt]. *)
Definition tagFS : FS :=
  <[dirA ++ [taggedName] := NFile "tagged"]>
  (<[dirA ++ ["notes.txt"] := NFile "plain"]>
  (<[dirA := NDir]> (<[["home"] := NDir]> {[ [] := NDir ]}))).

Definition tagWorld : World := mkWorld tagFS dirA [] (loadedApp tagFS dirA).

(** The rename dialog is open on [/home/a/notes.txt]. *)
Definition renameWorld : World :=
  mkWorld tagFS dirA []
    (set_root (ScrInput "Rename" "New name:" "notes.txt" (DoneRename (dirA ++ ["notes.txt"])))
              (SetCurrentItemApp 1 (loadedApp tagFS dirA))).

(** OK pressed in the rename dialog of [renameWorld] with [text] closes
    the dialog, shows no failure and leaves the file system alone. *)
Definition droppedSilently (text : string) : Prop :=
  ∃ w', pressOK text renameWorld = Returns tt w' ∧
        root (w_app w') = ScrLayout ∧
        ¬ failureShown (w_app renameWorld) (w_app w') ∧
        w_fs w' = w_fs renameWorld ∧
        w_fs w' !! (dirA ++ ["notes.txt"]) = Some (NFile "plain").

(** ** The channel of the event loop *)

(** The text the preview pane ends with once the closures [q] have been
    run. *)
Definition finalPreview (q : list string) : option string := last q.

(** A world whose current directory has been removed under the browser. *)
Definition goneWorld : World :=
  mkWorld tagFS dirA [] (NewAppState ["home"; "gone"]).

(** ** The order of the entries *)

(** [a] may stand before [b]: a directory before a file, and within one
    kind the lower-cased names in order. *)
Definition entryLe (a b : DirEntry) : Prop :=
  (IsDir a = true ∧ IsDir b = false) ∨
  (IsDir a = IsDir b ∧ String.le (ToLower (Name a)) (ToLower (Name b))).

(** No file stands before a directory. *)
Definition dirsFirst (l : list DirEntry) : Prop :=
  ∀ i j a b, (i < j)%nat → l !! i = Some a → l !! j = Some b →
             IsDir b = true → IsDir a = true.

(** Within the directories and within the files the names come in order
    when letter case is ignored. *)
Definition ciOrdered (l : list DirEntry) : Prop :=
  ∀ i j a b, (i < j)%nat → l !! i = Some a → l !! j = Some b →
             IsDir a = IsDir b → String.le (ToLower (Name a)) (ToLower (Name b)).

(** Names that differ in case only come in byte order. *)
Definition tiesBytewise (l : list DirEntry) : Prop :=
  ∀ i j a b, (i < j)%nat → l !! i = Some a → l !! j = Some b →
             IsDir a = IsDir b → ToLower (Name a) = ToLower (Name b) →
             String.le (Name a) (Name b).

(** A sorting routine keeps to the contract of [sort.Slice] for the
    [less] of [sortFiles]. *)
Definition keepsContract (sorter : Sorter) : Prop :=
  ∀ data, sortContract entryLess data (sorter entryLess data).

(** [/home/a] holds the files [B], [b], [c], [d], [e], [f] and the
    directory [z]. *)
Definition tieFS : FS :=
  <[dirA ++ ["z"] := NDir]>
  (<[dirA ++ ["f"] := NFile ""]>
  (<[dirA ++ ["e"] := NFile ""]>
  (<[dirA ++ ["d"] := NFile ""]>
  (<[dirA ++ ["c"] := NFile ""]>
  (<[dirA ++ ["b"] := NFile ""]>
  (<[dirA ++ ["B"] := NFile ""]>
  (<[dirA := NDir]> (<[["home"] := NDir]> {[ [] := NDir ]})))))))).

Definition file (n : string) : DirEntry := mkDirEntry n false.
Definition dir (n : string) : DirEntry := mkDirEntry n true.

(** [s.files] holds the entries of [/home/a] as [os.ReadDir] lists
    them. *)
Definition tieWorld : World :=
  mkWorld tieFS dirA [] (set_files (OS.entriesOf tieFS dirA) (NewAppState dirA)).

(** ** Sample files *)

Fixpoint repeatStr (n : nat) (s : string) : string :=
  match n with
  | O => ""
  | S m => s +:+ repeatStr m s
  end.

Definition oneLine : string := String "a" (String newline "").

(** One byte more than the ceiling. *)
Definition longLen : nat := Z.to_nat (PreviewMaxBytes + 1).

(** A file whose first line has 204801 letters, with a second line
    behind it. *)
Definition longLineFile : string :=
  repeatStr longLen "a" +:+ String newline "tail".

(** A file of 2000 lines of one letter. *)
Definition shortLinesFile : string := repeatStr 2000 oneLine.

(** ** Two preview requests *)

Definition fileA : Path := dirA ++ ["a.txt"].
Definition fileB : Path := dirA ++ ["b.txt"].

Definition raceFS : FS :=
  <[fileB := NFile "beta"]>
  (<[fileA := NFile "alpha"]>
  (<[dirA := NDir]> (<[["home"] := NDir]> {[ [] := NDir ]}))).

Definition raceStart : Sys := mkSys raceFS (NewAppState dirA) [].

(** Request 1 ([a.txt]) is issued, then request 2 ([b.txt]); both
    goroutines queue their loading note and the loop runs the two
    closures; the goroutine of request 2 reads and delivers first and the
    pane shows its text. *)
Definition secondShown : list Event :=
  [EvGo fileA; EvGo fileB;
   EvStep 0; EvStep 1;
   EvDraw; EvDraw;
   EvStep 1; EvStep 1;
   EvDraw].

(** Then the goroutine of request 1 reads and delivers. *)
Definition firstDeliversLate : list Event :=
  secondShown ++ [EvStep 0; EvStep 0; EvDraw].

(** ** What a copy is to find and to leave *)

(** The file system is a tree under the root: whatever exists lies in a
    directory and has a name that a directory entry can have. *)
Definition wfFS (fs : FS) : Prop :=
  fs !! [] = Some NDir ∧
  ∀ p n, is_Some (fs !! (p ++ [n])) → fs !! p = Some NDir ∧ validName n.

(** Neither path lies inside the other. *)
Definition apart (src dst : Path) : Prop :=
  ¬ src `prefix_of` dst ∧ ¬ dst `prefix_of` src.

(** The destination can take the tree of [src]: no file stands on the way
    down to [dst], and what already exists under [dst] at the place of a
    source entry is of the same kind, a file for a file and a directory
    for a directory. *)
Definition canTake (fs : FS) (src dst : Path) : Prop :=
  (∀ q d, q `prefix_of` dst → fs !! q ≠ Some (NFile d)) ∧
  (∀ r x y, fs !! (src ++ r) = Some x → fs !! (dst ++ r) = Some y →
            isDirNode x = isDirNode y).

(** The file system after the copy, path by path: the directories down
    to [dst] exist, every entry of the source tree stands at the same
    place under [dst], everything else is as before. *)
Definition copied (fs : FS) (src dst : Path) (q : Path) : option Node :=
  match OS.stripPrefix dst q with
  | Some r =>
      match fs !! (src ++ r) with
      | Some x => Some x
      | None => fs !! q
      end
  | None => if decide (q `prefix_of` dst) then Some NDir else fs !! q
  end.

(** The same with only the entries named in [names] copied so far. *)
Definition copiedSoFar (fs : FS) (src dst : Path) (names : list string) (q : Path)
  : option Node :=
  match OS.stripPrefix dst q with
  | Some [] => Some NDir
  | Some (n :: r) =>
      if decide (n ∈ names)
      then match fs !! (src ++ n :: r) with
           | Some x => Some x
           | None => fs !! q
           end
      else fs !! q
  | None => if decide (q `prefix_of` dst) then Some NDir else fs !! q
  end.

(** The source is a directory and a tree below. *)
Definition sourceTree (fs : FS) (src : Path) : Prop :=
  fs !! src = Some NDir ∧
  ∀ r n, is_Some (fs !! (src ++ r ++ [n])) →
         fs !! (src ++ r) = Some NDir ∧ validName n.

(** [/home/a] holds [a.txt] and [sub/b.txt]; [/home/b] does not exist. *)
Definition copyFS : FS :=
  <[dirA ++ ["sub"; "b.txt"] := NFile "bravo"]>
  (<[dirA ++ ["sub"] := NDir]>
  (<[dirA ++ ["a.txt"] := NFile "alpha"]>
  (<[dirA := NDir]> (<[["home"] := NDir]> {[ [] := NDir ]})))).

(** [/home/a] holds the file [c] and the directory [d] with a file [c]
    of its own. *)
Definition innerFS : FS :=
  <[dirA ++ ["d"; "c"] := NFile "old"]>
  (<[dirA ++ ["d"] := NDir]>
  (<[dirA ++ ["c"] := NFile "new"]>
  (<[dirA := NDir]> (<[["home"] := NDir]> {[ [] := NDir ]})))).

(** [/home/a/d] holds the file [x] and the directory [d] with a file [x]
    of its own. *)
Definition outerFS : FS :=
  <[dirA ++ ["d"; "x"] := NFile "outer"]>
  (<[dirA ++ ["d"; "d"; "x"] := NFile "inner"]>
  (<[dirA ++ ["d"; "d"] := NDir]>
  (<[dirA ++ ["d"] := NDir]>
  (<[dirA := NDir]> (<[["home"] := NDir]> {[ [] := NDir ]}))))).

(** [copyFS] with a file standing at [/home/b]. *)
Definition blockedFS : FS := <[dirB := NFile "x"]> copyFS.

(** [copyFS] with a directory [/home/b/a.txt]. *)
Definition clashFS : FS := <[dirB ++ ["a.txt"] := NDir]> (<[dirB := NDir]> copyFS).

(** What a copy of [src] to [dst] gives in [fs]. *)
Definition copyOf (fs : FS) (src dst : Path) : CopyResult :=
  copyPath (2 + maxDepth fs) fs src dst.

(** What [copyDir] with [fuel] turns of recursion does on every tree no
    deeper than [fuel]. *)
Definition copyDirSpec (fuel : nat) : Prop :=
  ∀ (fs : FS) (src dst : Path),
    fs !! [] = Some NDir → sourceTree fs src → apart src dst → canTake fs src dst →
    (∀ r, is_Some (fs !! (src ++ r)) → (length r < fuel)%nat) →
    ∃ fs', copyDir fuel fs src dst = CopyReturns fs' None ∧
           ∀ q, fs' !! q = copied fs src dst q.

Global Instance validName_dec (n : string) : Decision (validName n).
Proof. unfold validName. apply _. Defined.

(** A check of [wfFS] that can be run. *)
Definition entryOKb (fs : FS) (kv : Path * Node) : bool :=
  match kv.1 with
  | [] => true
  | _ => bool_decide (fs !! removelast kv.1 = Some NDir) &&
         bool_decide (validName (List.last kv.1 ""))
  end.

Definition wfFSb (fs : FS) : bool :=
  bool_decide (fs !! [] = Some NDir) && forallb (entryOKb fs) (map_to_list fs).

End Notions.

(** ** A sample of the case tables *)

(** The case tables on Latin-1: the capital letters from U+00C0 to
    U+00DE, the sign U+00D7 apart, have their small letter 32 places
    on.  Beyond U+00FF this sample leaves every code point as it is,
    which the tables of the standard do not; it is used on Latin-1 texts
    only. *)
Definition latin1 : CaseTables :=
  {| toLowerTable := λ r,
       if (0xC0 <=? r)%Z && (r <=? 0xDE)%Z && negb (r =? 0xD7)%Z then (r + 32)%Z else r |}.

(** ** More of [main.go]: file types, opening and changing directory *)

Section FileTypes.
Context {tables : CaseTables}.

(** The scan of [filepath.Ext], from the last byte backwards: [acc] is
    the suffix passed so far. *)
Fixpoint extScan (back : string) (acc : string) : string :=
  match back with
  | EmptyString => EmptyString
  | String c r =>
      if Ascii.eqb c "/" then EmptyString
      else if Ascii.eqb c "." then String c acc
      else extScan r (String c acc)
  end.

(** [filepath.Ext] *)
Definition filepath_Ext (path : string) : string :=
  extScan (String.rev path) EmptyString.

(** The map literal of [isTextFile]. *)
Definition textExt : gmap string bool :=
  list_to_map
    [(".txt", true); (".md", true); (".go", true); (".py", true); (".java", true);
     (".c", true); (".cpp", true); (".json", true); (".yaml", true); (".yml", true);
     (".xml", true); (".html", true); (".css", true); (".js", true); (".sh", true)].

Definition isTextFile (name : string) : bool :=
  let ext := ToLower (filepath_Ext name) in
  default false (textExt !! ext).

Definition set_currentDir (d : Path) (s : AppState) : AppState :=
  mkApp (filesList s) (preview s) (status s) (root s) (updates s) d (files s)
        (lock s) (bookmarks s) (searchTerm s).

Definition noPreviewText : string :=
  "(No text preview available. Press 'o' to open with system default.)".

(** [openPreview]; [s.preview.Clear()] and [SetText] write the pane at
    once. *)
Definition openPreview (path : Path) : Go unit :=
  if isTextFile (showPath path) then loadTextPreview path
  else modifyApp (set_preview "") ;; modifyApp (set_preview noPreviewText).

Section Selection.
(** The text that [loadPreviewForSelection] shows for a file that is not
    text is [fmt.Sprintf] over the name, [humanSize] of the size and the
    modification time in RFC 1123 form; floating point and the clock are
    outside the embedding, so that text is taken as given. *)
Variable metaText : string → Path → Node → string.

(** [loadPreviewForSelection]; the result lists the goroutines that the
    call starts with [go s.loadTextPreview(path)]. *)
Definition loadPreviewForSelection : Go (list Task) :=
  s ← getApp;
  let index := GetCurrentItem (filesList s) in
  if (index <? 0)%Z || (GetItemCount (filesList s) <=? index)%Z then
    modifyApp (set_preview "") ;; mret []
  else
    label ← GetItemText index;
    let name := TrimPrefix label dirTag in
    if String.eqb name goUpLabel then modifyApp (set_preview "") ;; mret []
    else
      let path := filepath_Join (currentDir s) name in
      fs ← getFS;
      match OS.Stat fs path with
      | inr NDir => modifyApp (set_preview ("[DIR] " +:+ name)) ;; mret []
      | _ =>
          if isTextFile (showPath path) then mret [TStart path]
          else
            match OS.Stat fs path with
            | inr info => modifyApp (set_preview (metaText name path info)) ;; mret []
            | inl _ => modifyApp (set_preview "(Unable to stat file)") ;; mret []
            end
      end.

(** [changeDir]: [dir] is absolute and clean already, so [filepath.Abs]
    gives it back. *)
Definition changeDir (dir : Path) : Go (list Task) :=
  let abs := dir in
  fs ← getFS;
  match OS.Stat fs abs with
  | inr NDir =>
      modifyApp (set_currentDir abs) ;;
      modifyApp (set_searchTerm "") ;;
      refreshList ;;
      loadPreviewForSelection
  | _ => showModal ("Not a directory: " +:+ showPath dir) false ;; mret []
  end.

(** [onEnter] *)
Definition onEnter (entry : DirEntry) : Go (list Task) :=
  s ← getApp;
  if IsDir entry then changeDir (filepath_Join (currentDir s) (Name entry))
  else openPreview (filepath_Join (currentDir s) (Name entry)) ;; mret [].

(** Choosing a list item runs the closure it was added with. *)
Definition runItem (act : ItemAction) : Go (list Task) :=
  match act with
  | ActEnter entry => onEnter entry
  | ActGoUp => s ← getApp; changeDir (filepath_Dir (currentDir s))
  end.
End Selection.

Section Selected.
Variable metaText : string → Path → Node → string.

(** The function that [setupKeys] hands to [SetSelectedFunc]: the list
    calls it with the index of the chosen item, besides the closure that
    the item was added with. *)
Definition selectedFunc (idx : Z) : Go (list Task) :=
  s ← getApp;
  if (idx <? 0)%Z || (GetItemCount (filesList s) <=? idx)%Z then mret []
  else
    label ← GetItemText idx;
    let name := TrimPrefix label dirTag in
    if String.eqb name goUpLabel then changeDir metaText (filepath_Dir (currentDir s))
    else
      let path := filepath_Join (currentDir s) name in
      fs ← getFS;
      match OS.Stat fs path with
      | inr NDir => changeDir metaText path
      | _ => openPreview path ;; mret []
      end.
End Selected.

(** ** Notions used in further statements *)

(** The world a call leaves, however it ends. *)
Definition worldAfter {A} (o : Outcome A) : World :=
  match o with
  | Returns _ w => w
  | Blocked w => w
  | Waiting _ w => w
  | Panics w => w
  | Unfinished w => w
  end.

Definition returns {A} (o : Outcome A) : Prop := ∃ a w, o = Returns a w.

(** The label of an entry gives its name back: a directory, or a file
    whose name does not begin with the tag of directories. *)
Definition plainEntry (e : DirEntry) : Prop :=
  IsDir e = true ∨ HasPrefix (Name e) dirTag = false.

(** The browser at the root of an empty file system: nothing to list
    and no parent. *)
Definition emptyRootFS : FS := {[ [] := NDir ]}.
Definition emptyRootWorld : World :=
  mkWorld emptyRootFS [] [] (loadedApp emptyRootFS []).

(** The delete dialog is open on [/home/a/notes.txt]. *)
Definition confirmWorld : World :=
  mkWorld tagFS dirA []
    (set_root (ScrConfirm "Delete 'notes.txt'? This cannot be undone." "notes.txt"
                          (dirA ++ ["notes.txt"]))
              (SetCurrentItemApp 1 (loadedApp tagFS dirA))).

(** The length of the longest line of [s], its newline counted; [cur] is
    the length of the line being read. *)
Fixpoint longestFrom (cur : Z) (s : string) : Z :=
  match s with
  | EmptyString => cur
  | String c r =>
      if Ascii.eqb c newline then Z.max (cur + 1) (longestFrom 0 r)
      else longestFrom (cur + 1) r
  end.
Definition longestLine (s : string) : Z := longestFrom 0 s.

(** A file of three short lines. *)
Definition smallFile : string :=
  "one" +:+ String newline ("two" +:+ String newline "three").

(** No byte of [s] is a dot or a separator. *)
Fixpoint plainBytes (s : string) : bool :=
  match s with
  | EmptyString => true
  | String c r => negb (Ascii.eqb c "/") && negb (Ascii.eqb c ".") && plainBytes r
  end.

(** The extensions of [textExt] without their dot. *)
Definition textSuffixes : list string :=
  ["txt"; "md"; "go"; "py"; "java"; "c"; "cpp"; "json"; "yaml"; "yml"; "xml";
   "html"; "css"; "js"; "sh"].

(** Neither entry is less than the other: [sort.Slice] may put them in
    either order. *)
Definition tied (a b : DirEntry) : Prop :=
  entryLess a b = false ∧ entryLess b a = false.

(** Every entry of [fs] is still there in [fs'], a file as a file and a
    directory as a directory. *)
Definition keepsKinds (fs fs' : FS) : Prop :=
  ∀ q n, fs !! q = Some n → ∃ n', fs' !! q = Some n' ∧ isDirNode n' = isDirNode n.

(** What one run of [loadTextPreview] for [path] ends up delivering. *)
Definition previewResult (fs : FS) (path : Path) : string :=
  match OS.Open fs path with
  | inl err => "Error opening file: " +:+ Error err
  | inr f => previewText (NewReader fs f)
  end.

(** The text the pane shows once the closures now in the channel have
    run. *)
Definition settled (s : AppState) : string :=
  default (preview s) (finalPreview (updates s)).

Definition allDone (tasks : list Task) : Prop := Forall (λ t, t = TDone) tasks.

(** The move dialog is open on [/home/a/notes.txt], as [moveSelection]
    opens it. *)
Definition moveWorld : World :=
  mkWorld tagFS dirA []
    (set_root (ScrInput "Move to" "Destination path:" (showPath (dirA ++ ["notes.txt"]))
                        (DoneMove (dirA ++ ["notes.txt"])))
              (SetCurrentItemApp 1 (loadedApp tagFS dirA))).

(** The copy dialog is open on [/home/a/notes.txt], as [copySelection]
    opens it. *)
Definition copyWorld : World :=
  mkWorld tagFS dirA []
    (set_root (ScrInput "Copy to" "Destination path:"
                        (showPath (dirA ++ ["notes.txt.copy"])) (DoneCopy "notes.txt"))
              (SetCurrentItemApp 1 (loadedApp tagFS dirA))).

(** The words a failed rename or move is reported with. *)
Definition failedPrefix (k : InputDone) : string :=
  match k with
  | DoneRename _ => "Rename failed: "
  | DoneMove _ => "Move failed: "
  | DoneCopy _ => "Copy failed: "
  | DoneSearch => ""
  end.

(** The words a rename or move that went through is reported with. *)
Definition donePrefix (k : InputDone) : string :=
  match k with
  | DoneRename _ => "Renamed to: "
  | DoneMove _ => "Moved to: "
  | DoneCopy _ => "Copied to: "
  | DoneSearch => ""
  end.

(** The call of [os.Rename] that the callback of a rename or move dialog
    makes for the answer [text]: the old path, the new path and whether
    the two names are the same text; nothing where the paths are not
    read. *)
Definition renameCall (w : World) (k : InputDone) (text : string)
  : option (Path * Path * bool) :=
  match k with
  | DoneRename old =>
      let new := filepath_Join (currentDir (w_app w)) text in
      if plainPath old && plainPath new
      then Some (old, new, String.eqb (showPath old) (showPath new)) else None
  | DoneMove old =>
      if plainPath old
      then match typedPath (w_cwd w) text with
           | Some new => Some (old, new, String.eqb (showPath old) text)
           | None => None
           end
      else None
  | _ => None
  end.


(** The entry says of itself what the file system says of it now. *)
Definition upToDate (w : World) (e : DirEntry) : Prop :=
  IsDir e = true ↔ w_fs w !! (currentDir (w_app w) ++ [Name e]) = Some NDir.

(** The browser of [tagWorld] with the second item, [notes.txt],
    selected. *)
Definition notesWorld : World :=
  mkWorld tagFS dirA [] (SetCurrentItemApp 1 (loadedApp tagFS dirA)).

End FileTypes.

(** * Properties *)

(** Unfolds the plumbing of [Go] in a goal. *)
Ltac run_go :=
  unfold mbind, mret, go_mbind, go_mret, go_bind, go_ret, deferred,
    getApp, getFS, modifyApp, Lock, Unlock; simpl.

(** ** Strings *)

Lemma HasPrefix_spec s pre : HasPrefix s pre = true ↔ ∃ b, s = pre +:+ b.
Proof.
  revert s. induction pre as [|a pre IH]; intros s; simpl.
  - split; [intros _; by exists s | done].
  - destruct s as [|c s].
    + split; [done | intros [b Hb]; discriminate Hb].
    + destruct (Ascii.eqb_spec a c) as [->|Hne].
      * rewrite IH. split; intros [b Hb]; exists b.
        -- by rewrite Hb.
        -- by injection Hb.
      * split; [done | intros [b Hb]; injection Hb as ? ?; congruence].
Qed.

Lemma Contains_spec s sub : Contains s sub = true ↔ ∃ a b, s = a +:+ sub +:+ b.
Proof.
  induction s as [|c s IH]; simpl.
  - rewrite orb_false_r, HasPrefix_spec. split.
    + intros [b Hb]. by exists "", b.
    + intros [a [b Hab]]. destruct a; [by exists b | discriminate Hab].
  - rewrite orb_true_iff, HasPrefix_spec, IH. split.
    + intros [[b Hb] | [a [b Hab]]].
      * by exists "", b.
      * exists (String c a), b. by rewrite Hab.
    + intros [a [b Hab]]. destruct a as [|c' a].
      * left. by exists b.
      * right. injection Hab as _ Hab. by exists a, b.
Qed.

(** *** Runes *)

Arguments DecodeRuneInString : simpl never.
Arguments decodeLastRune : simpl never.

Lemma DecodeRune_size c r : (1 ≤ (DecodeRuneInString (String c r)).2)%nat.
Proof.
  unfold DecodeRuneInString.
  repeat (case_match; simpl; try lia).
Qed.

Lemma DecodeRune_ascii c r :
  (byte c <? RuneSelf)%Z = true → DecodeRuneInString (String c r) = (byte c, 1%nat).
Proof. intros H. unfold DecodeRuneInString. by rewrite H. Qed.

Lemma dropBytes_length n s : String.length (dropBytes n s) = (String.length s - n)%nat.
Proof.
  revert s. induction n as [|n IH]; intros [|c s]; simpl; try lia. apply IH.
Qed.

Lemma trimLeftFrom_allSpace fuel s :
  (String.length s ≤ fuel)%nat →
  forallb IsSpace (runesFrom fuel s) = true → trimLeftFrom fuel s = "".
Proof.
  revert s. induction fuel as [|f IH]; intros [|c s] Hlen; simpl; try done.
  { simpl in Hlen. lia. }
  pose proof (DecodeRune_size c s) as Hsize.
  destruct (DecodeRuneInString (String c s)) as [r size] eqn:E.
  simpl in Hsize. intros H. simpl in H. apply andb_true_iff in H as [Hr Hrest].
  rewrite Hr. apply IH; [|done].
  rewrite dropBytes_length. simpl in *. lia.
Qed.

(** The guard of the input callbacks fires on every text that is empty
    or white space only. *)
Lemma TrimSpace_allSpace s : allSpace s = true → TrimSpace s = "".
Proof.
  intros H. unfold TrimSpace, TrimLeftSpace.
  by rewrite (trimLeftFrom_allSpace _ s (le_n _) H).
Qed.

Lemma rev_app_empty a b : String.rev_app a b = "" → a = "" ∧ b = "".
Proof.
  revert b. induction a as [|c a IH]; intros b; simpl; [done|].
  intros H. apply IH in H as [_ H]. discriminate H.
Qed.

Lemma append_cons x (a b : string) : String x a +:+ b = String x (a +:+ b).
Proof. reflexivity. Qed.

Lemma append_nil_l (b : string) : "" +:+ b = b.
Proof. reflexivity. Qed.

Lemma string_app_nil_r (s : string) : s +:+ "" = s.
Proof.
  induction s as [|c s IH]; [done|]. rewrite append_cons. by rewrite IH.
Qed.

Lemma append_assoc (a b c : string) : (a +:+ b) +:+ c = a +:+ (b +:+ c).
Proof.
  induction a as [|x a IH]; [done|].
  change (String x ((a +:+ b) +:+ c) = String x (a +:+ (b +:+ c))). by rewrite IH.
Qed.

Lemma rev_app_ends a b : ∃ front, String.rev_app a b = front +:+ b.
Proof.
  revert b. induction a as [|c a IH]; intros b; simpl; [by exists ""|].
  destruct (IH (String c b)) as [front ->].
  exists (front +:+ String c ""). by rewrite append_assoc.
Qed.

Lemma RuneStart_ascii c : (byte c <? RuneSelf)%Z = true → RuneStart (byte c) = true.
Proof. destruct c as [[] [] [] [] [] [] [] []]; by vm_compute. Qed.

Lemma wholeRune_space bs r size :
  wholeRune bs = (r, size) → IsSpace r = true → size = String.length bs.
Proof.
  unfold wholeRune. destruct (DecodeRuneInString bs) as [r' size'].
  destruct (Nat.eqb_spec size' (String.length bs)) as [Heq|_].
  - intros [= <- <-] _. exact Heq.
  - intros [= <- <-] H. by vm_compute in H.
Qed.

Lemma wholeRune_ascii_first c c' rest r size :
  (byte c <? RuneSelf)%Z = true →
  wholeRune (String c (String c' rest)) = (r, size) → IsSpace r = false.
Proof.
  intros Hc. unfold wholeRune. rewrite (DecodeRune_ascii _ _ Hc). simpl.
  by intros [= <- <-].
Qed.

(** A rune of white space at the end does not reach into a byte of
    ASCII that is none. *)
Lemma decodeLast_keeps c front r size :
  (byte c <? RuneSelf)%Z = true → front ≠ "" →
  decodeLastRune (front +:+ String c "") = (r, size) → IsSpace r = true →
  ∃ front', dropBytes size (front +:+ String c "") = front' +:+ String c "".
Proof.
  intros Hc Hfront Hdec Hsp.
  pose proof (RuneStart_ascii c Hc) as Hstart.
  assert (∀ c' rest r' size', wholeRune (String c (String c' rest)) = (r', size') →
                              IsSpace r' = false) as Hfirst
    by (intros; by eapply wholeRune_ascii_first).
  unfold decodeLastRune in Hdec.
  destruct front as [|c1 r1]; [done|]. rewrite append_cons in *.
  destruct (byte c1 <? RuneSelf)%Z.
  { injection Hdec as <- <-. by exists r1. }
  destruct r1 as [|c2 r2]; rewrite ?append_cons, ?append_nil_l in *.
  { rewrite Hstart in Hdec. apply Hfirst in Hdec. congruence. }
  destruct (RuneStart (byte c2)).
  { apply wholeRune_space in Hdec as ->; [|done]. by exists r2. }
  destruct r2 as [|c3 r3]; rewrite ?append_cons, ?append_nil_l in *.
  { rewrite Hstart in Hdec. apply Hfirst in Hdec. congruence. }
  destruct (RuneStart (byte c3)).
  { apply wholeRune_space in Hdec as ->; [|done]. by exists r3. }
  destruct r3 as [|c4 r4]; rewrite ?append_cons, ?append_nil_l in *.
  { rewrite Hstart in Hdec. apply Hfirst in Hdec. congruence. }
  destruct (RuneStart (byte c4)).
  { apply wholeRune_space in Hdec as ->; [|done]. by exists r4. }
  injection Hdec as <- <-. by vm_compute in Hsp.
Qed.

Lemma trimBackFrom_keeps c fuel front :
  (byte c <? RuneSelf)%Z = true → IsSpace (byte c) = false →
  trimBackFrom fuel (front +:+ String c "") ≠ "".
Proof.
  intros Hc Hsp. revert front. induction fuel as [|f IH]; intros front.
  { by destruct front. }
  destruct front as [|c1 r1].
  { rewrite append_nil_l. simpl. unfold decodeLastRune. by rewrite Hc, Hsp. }
  change (trimBackFrom (S f) (String c1 r1 +:+ String c ""))
    with (let '(r, size) := decodeLastRune (String c1 r1 +:+ String c "") in
          if IsSpace r then trimBackFrom f (dropBytes size (String c1 r1 +:+ String c ""))
          else String c1 r1 +:+ String c "").
  destruct (decodeLastRune (String c1 r1 +:+ String c "")) as [r size] eqn:E.
  destruct (IsSpace r) eqn:Er; [|done].
  destruct (decodeLast_keeps c (String c1 r1) r size Hc ltac:(done) E Er) as [front' ->].
  apply IH.
Qed.

(** A text that begins with a byte of ASCII other than white space is
    not blank. *)
Lemma TrimSpace_keeps c r :
  (byte c <? RuneSelf)%Z = true → IsSpace (byte c) = false →
  TrimSpace (String c r) ≠ "".
Proof.
  intros Hc Hsp. unfold TrimSpace.
  assert (TrimLeftSpace (String c r) = String c r) as ->.
  { unfold TrimLeftSpace. simpl String.length.
    change (trimLeftFrom (S (String.length r)) (String c r))
      with (let '(r0, size) := DecodeRuneInString (String c r) in
            if IsSpace r0 then trimLeftFrom (String.length r) (dropBytes size (String c r))
            else String c r).
    rewrite (DecodeRune_ascii _ _ Hc). by rewrite Hsp. }
  unfold TrimRightSpace, String.rev at 1. intros H.
  apply rev_app_empty in H as [H _]. revert H.
  unfold String.rev. simpl String.rev_app.
  destruct (rev_app_ends r (String c "")) as [front ->].
  by apply trimBackFrom_keeps.
Qed.

Lemma showPath_first p : ∃ r, showPath p = String "/" r.
Proof. destruct p as [|c p]; simpl; eauto. Qed.

Lemma TrimSpace_showPath p : TrimSpace (showPath p) ≠ "".
Proof. destruct (showPath_first p) as [r ->]. by apply TrimSpace_keeps. Qed.

Lemma runes_ascii c s :
  (byte c <? RuneSelf)%Z = true → runes (String c s) = byte c :: runes s.
Proof.
  intros Hc. unfold runes. simpl String.length.
  change (runesFrom (S (String.length s)) (String c s))
    with (let '(r, size) := DecodeRuneInString (String c s) in
          r :: runesFrom (String.length s) (dropBytes size (String c s))).
  by rewrite (DecodeRune_ascii _ _ Hc).
Qed.

Lemma removelast_fixed {A} (l : list A) : removelast l = l ↔ l = [].
Proof.
  split; [|by intros ->].
  intros H. destruct l as [|x l]; [done|].
  assert (length (removelast (x :: l)) = length (x :: l)) as Hlen by by rewrite H.
  rewrite removelast_firstn_len, length_firstn in Hlen. simpl in Hlen. lia.
Qed.

Lemma hasParent_iff p : hasParent p ↔ p ≠ [].
Proof.
  unfold hasParent, filepath_Dir.
  split; intros H Hp; apply H; by apply removelast_fixed.
Qed.
(** ** The event loop *)

Lemma drain_fixed fuel s :
  currentDir (drain fuel s) = currentDir s ∧ files (drain fuel s) = files s ∧
  searchTerm (drain fuel s) = searchTerm s ∧ root (drain fuel s) = root s ∧
  bookmarks (drain fuel s) = bookmarks s ∧ lock (drain fuel s) = lock s ∧
  status (drain fuel s) = status s ∧ filesList (drain fuel s) = filesList s.
Proof.
  revert s. induction fuel as [|f IH]; intros s; simpl; [done|].
  destruct (updates s) as [|text rest]; [done|].
  by destruct (IH (set_preview text (set_updates rest s)))
    as (-> & -> & -> & -> & -> & -> & -> & ->).
Qed.

(** With a turn for every closure the channel is worked off. *)
Lemma drain_empties fuel s :
  (length (updates s) ≤ fuel)%nat → updates (drain fuel s) = [].
Proof.
  revert s. induction fuel as [|f IH]; intros s Hlen; simpl.
  - destruct (updates s); [done|simpl in Hlen; lia].
  - destruct (updates s) as [|text rest] eqn:Hq; [done|].
    apply IH. simpl in *. lia.
Qed.

(** Once the channel is worked off the preview pane carries the text
    that was queued last. *)
Lemma drain_preview fuel s :
  (length (updates s) ≤ fuel)%nat →
  preview (drain fuel s) =
  match finalPreview (updates s) with
  | Some t => t
  | None => preview s
  end.
Proof.
  unfold finalPreview.
  revert s. induction fuel as [|f IH]; intros s Hlen; simpl.
  - destruct (updates s); [done|simpl in Hlen; lia].
  - destruct (updates s) as [|text rest] eqn:Hq; [done|].
    rewrite IH by (simpl in *; lia). simpl updates. simpl preview.
    rewrite last_cons. by destruct (last rest).
Qed.


(** ** Preview requests that overtake each other *)

(** C1, as amended: the program keeps no sequence numbers and drops no
    result.  When the goroutine of any request, stale or not, delivers its
    text, that text is what the preview pane shows once the event loop has
    worked off its queue: the pane shows the result delivered last, not
    the result of the request issued last. *)
Theorem C1_last_delivery_shown (sys : Sys) (i : nat) (text : string) :
  sys_tasks sys !! i = Some (TDeliver text) →
  sys_tasks (sysStep sys (EvStep i)) !! i = Some TDone ∧
  preview (eventLoop (sys_app (sysStep sys (EvStep i)))) = text.
Proof.
  intros Ht. unfold sysStep. rewrite Ht. simpl. split.
  - apply list_lookup_insert_eq. by apply lookup_lt_Some in Ht.
  - unfold eventLoop. rewrite drain_preview by done.
    unfold finalPreview, enqueue. simpl. by rewrite last_snoc.
Qed.

(** The hypothesis of [C1_last_delivery_shown] is met by the goroutine of
    request 1 once request 2 has been shown and request 1 has read its
    file. *)
Lemma C1_last_delivery_shown_witness :
  let sys := runSys raceStart (secondShown ++ [EvStep 0]) in
  sys_tasks sys !! 0%nat = Some (TDeliver "alpha") ∧
  preview (sys_app sys) = "beta" ∧
  preview (eventLoop (sys_app (sysStep sys (EvStep 0)))) = "alpha".
Proof.
  cbn zeta. split; [vm_compute; reflexivity|]. split; [vm_compute; reflexivity|].
  apply (C1_last_delivery_shown (runSys raceStart (secondShown ++ [EvStep 0])) 0 "alpha").
  vm_compute. reflexivity.
Defined.

(** C1 as the specification words it fails: request 1 for [a.txt] is
    issued before request 2 for [b.txt]; request 2 completes first and the
    pane shows its text; request 1 completes afterwards and its text
    replaces the one of the later request, and with every goroutine done
    and the queue empty the pane shows the result of request 1. *)
Lemma C1_counterexample :
  let mid := runSys raceStart secondShown in
  let fin := runSys raceStart firstDeliversLate in
  preview (sys_app mid) = "beta" ∧
  preview (sys_app fin) = "alpha" ∧
  sys_tasks fin = [TDone; TDone] ∧
  updates (sys_app fin) = [] ∧
  preview (sys_app fin) ≠ previewText (NewReader raceFS fileB).
Proof.
  cbn zeta. split_and!; try (vm_compute; reflexivity).
  vm_compute. discriminate.
Qed.

(** ** The text preview *)

Lemma len_append a b : len (a +:+ b) = (len a + len b)%Z.
Proof.
  unfold len. induction a as [|x a IH]; [done|].
  change (String x a +:+ b) with (String x (a +:+ b)).
  simpl String.length. lia.
Qed.

Lemma Count_append a b c : Count (a +:+ b) c = (Count a c + Count b c)%Z.
Proof.
  induction a as [|x a IH]; [done|].
  change (String x a +:+ b) with (String x (a +:+ b)). simpl.
  destruct (Ascii.eqb x c); lia.
Qed.

Lemma Count_nonneg s c : (0 ≤ Count s c)%Z.
Proof. induction s as [|x s IH]; simpl; [done|]. destruct (Ascii.eqb x c); lia. Qed.

Lemma len_repeat_byte n c : len (repeatStr n (String c "")) = Z.of_nat n.
Proof.
  induction n as [|n IH]; [done|].
  change (repeatStr (S n) (String c "")) with (String c "" +:+ repeatStr n (String c "")).
  rewrite len_append, IH. unfold len. simpl. lia.
Qed.

Lemma Count_repeat_byte n c d : c ≠ d → Count (repeatStr n (String c "")) d = 0%Z.
Proof.
  intros Hne. induction n as [|n IH]; [done|].
  change (repeatStr (S n) (String c "")) with (String c "" +:+ repeatStr n (String c "")).
  rewrite Count_append, IH. simpl.
  destruct (Ascii.eqb_spec c d); [done | lia].
Qed.

(** A line without the delimiter is cut off whole, delimiter included. *)
Lemma cutLine_line delim line rest :
  Count line delim = 0%Z →
  cutLine delim (line +:+ String delim rest) = (line +:+ String delim "", true, rest).
Proof.
  induction line as [|c line IH]; intros Hc.
  - change ("" +:+ String delim rest) with (String delim rest). simpl.
    by rewrite Ascii.eqb_refl.
  - change (String c line +:+ String delim rest) with (String c (line +:+ String delim rest)).
    simpl in *. destruct (Ascii.eqb c delim).
    + pose proof (Count_nonneg line delim). lia.
    + by rewrite IH.
Qed.

Lemma cutLine_found delim s l rest :
  cutLine delim s = (l, true, rest) → (String.length rest < String.length s)%nat.
Proof.
  revert l rest. induction s as [|c s IH]; intros l rest; simpl; [done|].
  destruct (Ascii.eqb c delim).
  - intros [= _ <-]. lia.
  - destruct (cutLine delim s) as [[l' found] rest'] eqn:E.
    intros [= _ -> <-]. specialize (IH l' rest' eq_refl). lia.
Qed.

(** The loop of [loadTextPreview] ends by itself: with more turns allowed
    than the file has bytes, the bound on the turns is never what stops
    it. *)
Lemma readLoop_fuel f1 f2 n buf rd :
  (String.length (rd_rest rd) < f1)%nat →
  (String.length (rd_rest rd) < f2)%nat →
  readLoop f1 n buf rd = readLoop f2 n buf rd.
Proof.
  revert f2 n buf rd. induction f1 as [|f1 IH]; intros f2 n buf rd H1 H2; [lia|].
  destruct f2 as [|f2]; [lia|]. cbn [readLoop].
  destruct (n <? PreviewMaxBytes)%Z; [|done].
  unfold ReadString. destruct (cutLine newline (rd_rest rd)) as [[l found] rest] eqn:E.
  destruct found; [|done].
  destruct (TextPreviewLines <? Count (buf +:+ l) newline)%Z; [done|].
  apply cutLine_found in E. apply IH; simpl; lia.
Qed.

(** When the first line alone reaches the ceiling, the loop takes that
    line whole and stops: the text is the first line, however long. *)
Lemma readLoop_first_line fuel line rest e :
  Count line newline = 0%Z →
  (PreviewMaxBytes ≤ len line + 1)%Z →
  readLoop (S fuel) 0 "" (mkReader (line +:+ String newline rest) e)
  = line +:+ String newline "".
Proof.
  intros Hc Hlen. cbn [readLoop].
  change (0 <? PreviewMaxBytes)%Z with true. cbn iota.
  unfold ReadString. cbn [rd_rest rd_end]. rewrite (cutLine_line newline line rest Hc).
  change ("" +:+ (line +:+ String newline "")) with (line +:+ String newline "").
  rewrite Count_append, Hc.
  change (TextPreviewLines <? 0 + Count (String newline "") newline)%Z with false.
  cbn iota. destruct fuel as [|f]; [done|]. cbn [readLoop].
  rewrite len_append. change (len (String newline "")) with 1%Z.
  destruct (0 + (len line + 1) <? PreviewMaxBytes)%Z eqn:E; [|done].
  apply Z.ltb_lt in E. lia.
Qed.

Lemma previewText_first_line line rest e :
  Count line newline = 0%Z →
  (PreviewMaxBytes < len line + 1)%Z →
  previewText (mkReader (line +:+ String newline rest) e) = line +:+ String newline "".
Proof.
  intros Hc Hlen. unfold previewText. cbn [rd_rest].
  rewrite readLoop_first_line by (done || lia).
  rewrite len_append. change (len (String newline "")) with 1%Z.
  destruct (len line + 1 =? PreviewMaxBytes)%Z eqn:E; [|done].
  apply Z.eqb_eq in E. lia.
Qed.

(** C2 fails in the code.  A file whose first line has one byte more than
    the ceiling, and a second line behind it, is previewed as that whole
    first line: 204802 bytes, more than the 204800 allowed, cut short by
    the byte ceiling and yet without the truncation marker.  A file of
    2000 one-letter lines is previewed as its first 1001 lines, one more
    than the line ceiling. *)
Theorem C2_preview_exceeds_ceilings :
  let shown := previewText (mkReader longLineFile io_EOF) in
  let lines := previewText (mkReader shortLinesFile io_EOF) in
  shown = repeatStr longLen "a" +:+ String newline "" ∧
  len shown = (PreviewMaxBytes + 2)%Z ∧
  (len shown < len longLineFile)%Z ∧
  (∀ t, shown ≠ t +:+ truncatedMark) ∧
  lines = repeatStr 1001 oneLine ∧
  Count lines newline = (TextPreviewLines + 1)%Z.
Proof.
  assert (len (repeatStr longLen "a") = (PreviewMaxBytes + 1)%Z) as Hlen.
  { rewrite len_repeat_byte. unfold longLen. apply Z2Nat.id. done. }
  assert (Count (repeatStr longLen "a") newline = 0%Z) as Hc
    by (apply Count_repeat_byte; discriminate).
  assert (previewText (mkReader longLineFile io_EOF)
          = repeatStr longLen "a" +:+ String newline "") as Hshown.
  { unfold longLineFile. apply previewText_first_line; [exact Hc | lia]. }
  cbn zeta. rewrite Hshown. split_and!.
  - reflexivity.
  - rewrite len_append, Hlen. change (len (String newline "")) with 1%Z. lia.
  - unfold longLineFile. rewrite !len_append, Hlen.
    change (len (String newline "")) with 1%Z.
    change (len (String newline "tail")) with 5%Z. lia.
  - intros t Ht.
    assert (Count (repeatStr longLen "a" +:+ String newline "") "("%char
            = Count (t +:+ truncatedMark) "("%char) as Hcount by by rewrite Ht.
    rewrite !Count_append, Count_repeat_byte in Hcount by discriminate.
    change (Count (String newline "") "("%char) with 0%Z in Hcount.
    change (Count truncatedMark "("%char) with 1%Z in Hcount.
    pose proof (Count_nonneg t "("%char). lia.
  - vm_compute. reflexivity.
  - vm_compute. reflexivity.
Qed.

(** ** Sorting *)

Section InsertionSort.
Context {A : Type} (less : A → A → bool).
Hypothesis less_asym : ∀ x y, less x y = true → less y x = false.
Hypothesis less_ntrans : ∀ x y z, less x y = false → less y z = false → less x z = false.

Lemma sinkLeft_Permutation x l : sinkLeft less x l ≡ₚ x :: l.
Proof.
  induction l as [|y l IH]; simpl; [done|].
  destruct (less x y); [|done].
  rewrite IH. apply Permutation_swap.
Qed.

Lemma sinkLeft_sorted x l :
  StronglySorted (λ a b, less a b = false) l →
  StronglySorted (λ a b, less a b = false) (sinkLeft less x l).
Proof.
  induction 1 as [|y l Hl IH Hy]; simpl.
  - repeat constructor.
  - destruct (less x y) eqn:Hxy.
    + constructor; [exact IH|].
      rewrite (sinkLeft_Permutation x l). constructor; [|exact Hy].
      by apply less_asym.
    + constructor; [by constructor|].
      constructor; [exact Hxy|].
      eapply Forall_impl; [exact Hy|]. intros z Hz. simpl in Hz.
      by apply (less_ntrans x y z).
Qed.

Lemma fold_sinkLeft_spec data acc :
  StronglySorted (λ a b, less a b = false) acc →
  fold_left (λ before x, sinkLeft less x before) data acc ≡ₚ data ++ acc ∧
  StronglySorted (λ a b, less a b = false)
                 (fold_left (λ before x, sinkLeft less x before) data acc).
Proof.
  revert acc. induction data as [|x data IH]; intros acc Hacc; simpl; [done|].
  destruct (IH (sinkLeft less x acc) (sinkLeft_sorted x acc Hacc)) as [Hp Hs].
  split; [|exact Hs].
  rewrite Hp, sinkLeft_Permutation. by rewrite Permutation_middle.
Qed.

Lemma StronglySorted_rev (R : A → A → Prop) l :
  StronglySorted R l → StronglySorted (λ a b, R b a) (rev l).
Proof.
  induction 1 as [|x l Hl IH Hx]; simpl; [constructor|].
  apply StronglySorted_app. split_and!.
  - intros a b Ha ->%list_elem_of_singleton.
    rewrite Forall_forall in Hx. apply Hx.
    apply list_elem_of_In, in_rev, list_elem_of_In. exact Ha.
  - exact IH.
  - repeat constructor.
Qed.

(** The insertion sort meets the contract of [sort.Slice]. *)
Lemma insertionSort_contract data : sortContract less data (sort_Slice less data).
Proof.
  unfold sortContract, sortedBy, sort_Slice, insertionSort.
  destruct (fold_sinkLeft_spec data []) as [Hp Hs]; [constructor|].
  split.
  - rewrite <- Permutation_rev, Hp. by rewrite app_nil_r.
  - by apply StronglySorted_rev in Hs.
Qed.
End InsertionSort.

Lemma StronglySorted_lookup {A} (R : A → A → Prop) l i j a b :
  StronglySorted R l → (i < j)%nat → l !! i = Some a → l !! j = Some b → R a b.
Proof.
  intros Hs. revert i j. induction Hs as [|x l Hl IH Hx]; intros i j Hij Hi Hj; [done|].
  destruct j as [|j]; [lia|]. simpl in Hj. destruct i as [|i]; simpl in Hi.
  - injection Hi as ->. rewrite Forall_forall in Hx. apply Hx.
    by apply list_elem_of_lookup_2 in Hj.
  - apply (IH i j); [lia | done | done].
Qed.

Lemma ltb_false_le x y : String.ltb x y = false → String.le y x.
Proof.
  unfold String.ltb, String.le, String.leb. rewrite (String.compare_antisym y x).
  by destruct (String.compare x y).
Qed.

Lemma ltb_true_lt x y : String.ltb x y = true → String.ltb y x = false.
Proof.
  unfold String.ltb. rewrite (String.compare_antisym y x).
  by destruct (String.compare x y).
Qed.

Lemma le_ltb_false x y : String.le y x → String.ltb x y = false.
Proof.
  unfold String.ltb, String.le, String.leb. rewrite (String.compare_antisym y x).
  by destruct (String.compare x y).
Qed.

Section Order.
Context {tables : CaseTables}.

(** [entryLess b a] is false exactly when [a] may stand before [b]. *)
Lemma entryLess_false a b : entryLess b a = false ↔ entryLe a b.
Proof.
  unfold entryLess, entryLe.
  destruct (IsDir a), (IsDir b); simpl; split.
  all: try (intros H; right; split; [done|]; by apply ltb_false_le).
  all: try (intros [[? ?]|[_ H]]; try done; by apply le_ltb_false).
  all: try (intros _; by left).
  all: try done.
  all: intros [[? ?]|[? _]]; done.
Qed.

Lemma entryLess_asym x y : entryLess x y = true → entryLess y x = false.
Proof.
  unfold entryLess. destruct (IsDir x), (IsDir y); simpl; try done; apply ltb_true_lt.
Qed.

Lemma entryLess_ntrans x y z :
  entryLess x y = false → entryLess y z = false → entryLess x z = false.
Proof.
  rewrite !entryLess_false. unfold entryLe.
  intros [[H1 H2]|[H1 H2]] [[H3 H4]|[H3 H4]].
  - congruence.
  - left. split; congruence.
  - left. split; congruence.
  - right. split; [congruence|]. by etrans.
Qed.

(** What the contract of [sort.Slice] with the [less] of [sortFiles]
    gives. *)
Lemma contract_order data out :
  sortContract entryLess data out → dirsFirst out ∧ ciOrdered out.
Proof.
  intros [_ Hs]. unfold sortedBy in Hs. split.
  - intros i j a b Hij Hi Hj Hb.
    pose proof (StronglySorted_lookup _ _ _ _ _ _ Hs Hij Hi Hj) as H. simpl in H.
    apply entryLess_false in H as [[? _]|[E _]]; congruence.
  - intros i j a b Hij Hi Hj Hk.
    pose proof (StronglySorted_lookup _ _ _ _ _ _ Hs Hij Hi Hj) as H. simpl in H.
    apply entryLess_false in H as [[? ?]|[_ H]]; [congruence | done].
Qed.

Lemma gapStep_Permutation {A} (less : A → A → bool) d i : gapStep less d i ≡ₚ d.
Proof.
  unfold gapStep. destruct (d !! i) as [x|] eqn:Hx; [|done].
  destruct (d !! (i - 6)%nat) as [y|] eqn:Hy; [|done].
  destruct (less x y); [|done].
  by apply Permutation_insert_swap.
Qed.

Lemma gapPass_Permutation {A} (less : A → A → bool) data : gapPass less data ≡ₚ data.
Proof.
  unfold gapPass. generalize (seq 6 (length data - 6)). intros idx.
  revert data. induction idx as [|i idx IH]; intros data; simpl; [done|].
  by rewrite IH, gapStep_Permutation.
Qed.

(** Both routines keep to the contract. *)
Lemma sort_Slice_keepsContract : keepsContract (@sort_Slice DirEntry).
Proof.
  intros data. apply insertionSort_contract; [apply entryLess_asym | apply entryLess_ntrans].
Qed.

Lemma sort_Slice_go118_keepsContract : keepsContract (@sort_Slice_go118 DirEntry).
Proof.
  intros data. unfold sort_Slice_go118.
  destruct (insertionSort_contract entryLess entryLess_asym entryLess_ntrans
              (gapPass entryLess data)) as [Hp Hs].
  split; [|exact Hs]. by rewrite <- Hp, gapPass_Permutation.
Qed.

(** C3, as amended: called with the mutex free, [sortFiles] returns and
    leaves in [s.files] the same entries with the directories before the
    files and, within each kind, the names in order when letter case is
    ignored; this holds with every routine that keeps to the contract of
    [sort.Slice].  The order of two names that differ in case only is not
    settled: the comparison makes them equal and the routine may leave
    them either way. *)
Theorem C3_sorted_order (sorter : Sorter) (w : World) :
  keepsContract sorter →
  lock (w_app w) = false →
  ∃ w', sortFilesWith sorter w = Returns tt w' ∧
        files (w_app w') ≡ₚ files (w_app w) ∧
        dirsFirst (files (w_app w')) ∧ ciOrdered (files (w_app w')).
Proof.
  intros Hc Hl. unfold sortFilesWith. run_go. rewrite Hl. simpl.
  eexists. split; [reflexivity|]. simpl.
  specialize (Hc (files (w_app w))).
  split; [symmetry; apply Hc | by apply (contract_order (files (w_app w)))].
Qed.

End Order.

Section OrderSample.
#[local] Existing Instance latin1.

(** The hypotheses of [C3_sorted_order] are met by [sortFiles] itself on
    the listing of [/home/a]. *)
Lemma C3_sorted_order_witness :
  ∃ w', sortFiles tieWorld = Returns tt w' ∧
        dirsFirst (files (w_app w')) ∧ ciOrdered (files (w_app w')).
Proof.
  destruct (C3_sorted_order sort_Slice tieWorld sort_Slice_keepsContract eq_refl)
    as (w' & E & _ & Hd & Hc).
  exists w'. split; [exact E|]. split; [exact Hd | exact Hc].
Defined.

(** C3 as the specification words it fails: [os.ReadDir] lists [/home/a]
    as [B], [b], [c], [d], [e], [f], [z]; the routine of Go up to 1.18,
    which keeps to the contract of [sort.Slice], first exchanges the
    directory [z] with [B] and then moves [B] left up to [b], so [b]
    comes out before [B], against the byte order; the routine of later
    releases leaves [B] before [b]. *)
Lemma C3_counterexample :
  files (w_app tieWorld)
    = [file "B"; file "b"; file "c"; file "d"; file "e"; file "f"; dir "z"] ∧
  keepsContract (@sort_Slice_go118 DirEntry) ∧
  (∃ w', sortFilesWith sort_Slice_go118 tieWorld = Returns tt w' ∧
         files (w_app w')
           = [dir "z"; file "b"; file "B"; file "c"; file "d"; file "e"; file "f"] ∧
         ¬ tiesBytewise (files (w_app w'))) ∧
  (∃ w', sortFiles tieWorld = Returns tt w' ∧
         files (w_app w')
           = [dir "z"; file "B"; file "b"; file "c"; file "d"; file "e"; file "f"]).
Proof.
  split; [vm_compute; reflexivity|].
  split; [exact sort_Slice_go118_keepsContract|].
  split.
  - eexists. split; [vm_compute; reflexivity|]. split; [reflexivity|].
    intros H. specialize (H 1%nat 2%nat (file "b") (file "B")).
    assert (String.le "b" "B") as Hle by (apply H; (lia || reflexivity)).
    vm_compute in Hle. exact Hle.
  - eexists. split; vm_compute; reflexivity.
Qed.

End OrderSample.

(** ** Renaming to a blank name *)

Section BlankName.
Context {tables : CaseTables}.

(** C4, as amended: a rename whose new name is empty or all white space,
    the white space of Unicode, is dropped before any call into the file
    system; the callback returns with the world as it was, so the file
    system is untouched, and nothing is reported: no error value, no
    modal, no status text. *)
Theorem C4_blank_rename (w : World) (old : Path) (text : string) :
  allSpace text = true →
  inputDone (DoneRename old) text true w = Returns tt w.
Proof.
  intros Hsp. unfold inputDone. rewrite (TrimSpace_allSpace text Hsp). reflexivity.
Qed.

End BlankName.

Section BlankNameSample.
#[local] Existing Instance latin1.

(** The hypothesis of [C4_blank_rename] is met by a name made of a
    blank, a tab, a no-break space and an em space. *)
Lemma C4_blank_rename_witness :
  let text := String " " (String "009" (nbsp +:+ emsp)) in
  allSpace text = true ∧
  inputDone (DoneRename (dirA ++ ["notes.txt"])) text true renameWorld
  = Returns tt renameWorld.
Proof.
  cbn zeta. split; [vm_compute; reflexivity|].
  apply (C4_blank_rename renameWorld). vm_compute. reflexivity.
Defined.

(** C4 as the specification words it fails: OK pressed on the rename
    dialog with the empty name, with three blanks or with a no-break
    space closes the dialog and shows no failure of any kind; the file is
    still where it was. *)
Lemma C4_counterexample :
  droppedSilently "" ∧ droppedSilently "   " ∧ droppedSilently nbsp.
Proof.
  split_and!.
  all: eexists; split; [reflexivity|]; split; [reflexivity|]; split;
    [|split; [reflexivity | vm_compute; reflexivity]].
  all: intros [(u & m & r & H) | [H | H]]; [discriminate H | by apply H | by apply H].
Qed.

End BlankNameSample.

(** ** The visible list *)

Section VisibleList.
Context {tables : CaseTables}.

Lemma ciContains_empty name : ciContains name "".
Proof. exists "", (ToLower name). reflexivity. Qed.

Lemma keepEntry_spec term e : keepEntry term e = true ↔ ciContains (Name e) term.
Proof. unfold keepEntry, ciContains. apply Contains_spec. Qed.

Lemma addEntry_keep term l e :
  addEntry term l e =
  if keepEntry term e then AddItem (listLabel e) (ActEnter e) l else l.
Proof.
  unfold addEntry, keepEntry.
  destruct (String.eqb_spec term "") as [->|Hne]; simpl.
  - change (ToLower "") with "".
    assert (Contains (ToLower (Name e)) "" = true) as ->; [|done].
    apply Contains_spec. by exists "", (ToLower (Name e)).
  - by destruct (Contains _ _).
Qed.

Lemma fold_addEntry term fl l :
  fold_left (addEntry term) fl l =
  mkList (items l ++ map entryItem (List.filter (keepEntry term) fl)) (currentItem l).
Proof.
  revert l. induction fl as [|e fl IH]; intros l; simpl.
  - rewrite app_nil_r. by destruct l.
  - rewrite IH, addEntry_keep. destruct (keepEntry term e); simpl; [|done].
    by rewrite <- app_assoc.
Qed.

Lemma rebuildList_items s :
  items (filesList (rebuildList s)) =
  map entryItem (List.filter (keepEntry (searchTerm s)) (files s)) ++
  (if decide (hasParent (currentDir s)) then [parentItem] else []).
Proof.
  unfold rebuildList, hasParent. simpl.
  rewrite fold_addEntry. simpl.
  destruct (decide (filepath_Dir (currentDir s) ≠ currentDir s)); simpl.
  - by destruct (0 <? _)%Z.
  - rewrite app_nil_r. by destruct (0 <? _)%Z.
Qed.

(** C5, as amended: the list that the closure of [refreshList] builds is
    exactly the entries of [s.files], in their order, whose name contains
    the filter when letter case is ignored (an empty filter lets every
    entry through), followed, when the current directory has a parent, by
    the parent entry, which comes last and is never filtered out. *)
Theorem C5_visible_list (s : AppState) :
  ∃ keep : DirEntry → bool,
    (∀ e, keep e = true ↔ ciContains (Name e) (searchTerm s)) ∧
    (searchTerm s = "" → List.filter keep (files s) = files s) ∧
    items (filesList (rebuildList s)) =
      map entryItem (List.filter keep (files s)) ++
      (if decide (hasParent (currentDir s)) then [parentItem] else []).
Proof.
  exists (keepEntry (searchTerm s)). split_and!.
  - intros e. apply keepEntry_spec.
  - intros Hterm. rewrite Hterm. apply forallb_filter_id.
    apply forallb_forall. intros e _. apply keepEntry_spec, ciContains_empty.
  - apply rebuildList_items.
Qed.

End VisibleList.

Section VisibleListSample.
#[local] Existing Instance latin1.

(** C5 as the specification words it fails: in [/home/a] with the two
    files of [tagFS] and no filter, the parent entry is the last item of
    the list, not the first. *)
Lemma C5_counterexample :
  let shown := items (filesList (rebuildList (loadedApp tagFS dirA))) in
  hasParent dirA ∧
  shown = [entryItem (mkDirEntry taggedName false);
           entryItem (mkDirEntry "notes.txt" false);
           parentItem] ∧
  head shown ≠ Some parentItem.
Proof.
  split; [by apply hasParent_iff|].
  split; [vm_compute; reflexivity | vm_compute; discriminate].
Qed.

End VisibleListSample.

(** ** Bookmarks *)

Lemma indexOf_None p l : indexOf p l = None ↔ p ∉ l.
Proof.
  induction l as [|b l IH]; simpl.
  - split; [intros _; apply not_elem_of_nil | done].
  - rewrite not_elem_of_cons. case_decide as Hb.
    + split; [done | intros [Hne _]; congruence].
    + destruct (indexOf p l) eqn:Hi; simpl.
      * split; [done | intros [_ Hl]; by apply IH in Hl].
      * split; [intros _; split; [congruence | by apply IH] | done].
Qed.

Lemma indexOf_Some p l i :
  indexOf p l = Some i →
  ∃ l1 l2, l = l1 ++ p :: l2 ∧ length l1 = i ∧ p ∉ l1.
Proof.
  revert i. induction l as [|b l IH]; intros i; simpl; [done|].
  case_decide as Hb.
  - intros [= <-]. subst b. exists [], l. split_and!; [done..|apply not_elem_of_nil].
  - destruct (indexOf p l) as [j|] eqn:Hj; simpl; [|done].
    intros [= <-]. destruct (IH j eq_refl) as (l1 & l2 & -> & Hlen & Hnin).
    exists (b :: l1), l2. split_and!; [done | by rewrite <- Hlen |].
    rewrite not_elem_of_cons. split; [congruence | done].
Qed.

Lemma cut_at {A} (l1 l2 : list A) x :
  take (length l1) (l1 ++ x :: l2) ++ drop (S (length l1)) (l1 ++ x :: l2) = l1 ++ l2.
Proof.
  rewrite take_app_length.
  replace (S (length l1)) with (length (l1 ++ [x])) by (rewrite length_app; simpl; lia).
  replace (l1 ++ x :: l2) with ((l1 ++ [x]) ++ l2) by by rewrite <- app_assoc.
  by rewrite drop_app_length.
Qed.

Lemma filter_keeps_all {A} (P : A → Prop) `{∀ x, Decision (P x)} (l : list A) :
  Forall P l → filter P l = l.
Proof.
  induction 1 as [|x l Hx _ IH]; [done|].
  by rewrite filter_cons_True, IH.
Qed.

(** What one call does to the bookmarks. *)
Lemma toggleBookmark_absent w :
  currentDir (w_app w) ∉ bookmarks (w_app w) →
  ∃ w', toggleBookmark w = Waiting (UpdStatus "Bookmarked") w' ∧
        currentDir (w_app w') = currentDir (w_app w) ∧
        bookmarks (w_app w') = bookmarks (w_app w) ++ [currentDir (w_app w)].
Proof.
  intros Hnin. apply indexOf_None in Hnin.
  unfold toggleBookmark, mbind, go_mbind, go_bind, getApp. simpl.
  rewrite Hnin. simpl. eexists. split; [reflexivity|]. done.
Qed.

Lemma toggleBookmark_present w l1 l2 :
  bookmarks (w_app w) = l1 ++ currentDir (w_app w) :: l2 →
  currentDir (w_app w) ∉ l1 →
  ∃ w', toggleBookmark w = Waiting (UpdStatus "Removed bookmark") w' ∧
        currentDir (w_app w') = currentDir (w_app w) ∧
        bookmarks (w_app w') = l1 ++ l2.
Proof.
  intros Hbs Hnin.
  unfold toggleBookmark, mbind, go_mbind, go_bind, getApp. simpl.
  destruct (indexOf (currentDir (w_app w)) (bookmarks (w_app w))) as [i|] eqn:Hi.
  - apply indexOf_Some in Hi as (k1 & k2 & Hk & Hlen & Hk1).
    assert (k1 = l1 ∧ k2 = l2) as [-> ->].
    { rewrite Hbs in Hk. clear -Hk Hnin Hk1.
      revert k1 Hk Hk1. induction l1 as [|a l1 IH]; intros [|b k1] Hk Hk1; simpl in *.
      - by injection Hk as ->.
      - injection Hk as <- _. exfalso. apply Hk1. left.
      - injection Hk as -> _. exfalso. apply Hnin. left.
      - injection Hk as -> Hk.
        apply not_elem_of_cons in Hnin as [_ Hnin].
        apply not_elem_of_cons in Hk1 as [_ Hk1].
        destruct (IH Hnin k1 Hk Hk1) as [-> ->]. done. }
    simpl. eexists. split; [reflexivity|]. simpl. split; [done|].
    rewrite Hbs, <- Hlen. apply cut_at.
  - apply indexOf_None in Hi. exfalso. apply Hi. rewrite Hbs.
    apply elem_of_app. right. left.
Qed.

(** C7, as amended: toggling the bookmark of the current directory
    twice, the second call taken from the state that the first leaves,
    gives back the same bookmarks as a set, still free of duplicates; the
    sequence is the original one when the directory was not bookmarked or
    was the last bookmark, and otherwise the directory has moved to the
    end of the sequence. *)
Theorem C7_toggle_twice (w : World) :
  NoDup (bookmarks (w_app w)) →
  let w1 := worldAfter (toggleBookmark w) in
  let w2 := worldAfter (toggleBookmark w1) in
  let p := currentDir (w_app w) in
  let bs := bookmarks (w_app w) in
  let bs2 := bookmarks (w_app w2) in
  bs2 ≡ₚ bs ∧ NoDup bs2 ∧
  (p ∉ bs → bs2 = bs) ∧
  (last bs = Some p → bs2 = bs) ∧
  (p ∈ bs → bs2 = filter (λ q, q ≠ p) bs ++ [p]).
Proof.
  intros Hnd.
  destruct (decide (currentDir (w_app w) ∈ bookmarks (w_app w))) as [Hin|Hnin].
  - destruct (indexOf (currentDir (w_app w)) (bookmarks (w_app w))) as [i|] eqn:Hi;
      [|by apply indexOf_None in Hi].
    apply indexOf_Some in Hi as (l1 & l2 & Hbs & _ & Hl1).
    destruct (toggleBookmark_present w l1 l2 Hbs Hl1) as (w1 & E1 & Hc1 & Hb1).
    assert (currentDir (w_app w) ∉ l2) as Hl2.
    { rewrite Hbs in Hnd. apply NoDup_app in Hnd as (_ & _ & Hnd).
      by apply NoDup_cons in Hnd as [? _]. }
    assert (currentDir (w_app w1) ∉ bookmarks (w_app w1)) as Hnin1.
    { rewrite Hc1, Hb1. rewrite elem_of_app. tauto. }
    destruct (toggleBookmark_absent w1 Hnin1) as (w2 & E2 & Hc2 & Hb2).
    cbn zeta. rewrite E1. cbn [worldAfter]. rewrite E2. cbn [worldAfter].
    rewrite Hb2, Hb1, Hc1, Hbs.
    set (p := currentDir (w_app w)) in *.
    assert (filter (λ q, q ≠ p) (l1 ++ p :: l2) = l1 ++ l2) as Hfil.
    { rewrite filter_app, filter_cons_False by (intros Hq; by apply Hq).
      f_equal; apply filter_keeps_all; apply Forall_forall; intros q Hq ->; tauto. }
    split_and!.
    + rewrite <- app_assoc. apply Permutation_app_head.
      symmetry. apply Permutation_cons_append.
    + rewrite Hbs in Hnd.
      apply (NoDup_Permutation_proper _ _ (Permutation_middle l1 l2 p)) in Hnd.
      apply NoDup_cons in Hnd as [Hp Hnd].
      apply NoDup_app. split_and!.
      * done.
      * intros q Hq ->%list_elem_of_singleton. by apply Hp.
      * apply NoDup_singleton.
    + intros Habs. exfalso. apply Habs. apply elem_of_app. right. left.
    + intros Hlast. rewrite last_app in Hlast. simpl in Hlast.
      destruct l2 as [|b l2]; [by rewrite app_nil_r|].
      exfalso. apply Hl2.
      assert (last (b :: l2) = Some p) as Hl.
      { change (last (p :: b :: l2)) with (last (b :: l2)) in Hlast.
        destruct (last (b :: l2)) eqn:E; [exact Hlast|]. by apply last_None in E. }
      apply last_Some in Hl as [l' Hl']. rewrite Hl'. apply elem_of_app. right. left.
    + intros _. by rewrite Hfil.
  - destruct (toggleBookmark_absent w Hnin) as (w1 & E1 & Hc1 & Hb1).
    assert (bookmarks (w_app w1) = bookmarks (w_app w) ++ currentDir (w_app w1) :: [])
      as Hsplit by by rewrite Hb1, Hc1.
    assert (currentDir (w_app w1) ∉ bookmarks (w_app w)) as Hfresh by by rewrite Hc1.
    destruct (toggleBookmark_present w1 _ _ Hsplit Hfresh) as (w2 & E2 & Hc2 & Hb2).
    cbn zeta. rewrite E1. cbn [worldAfter]. rewrite E2. cbn [worldAfter].
    rewrite Hb2, app_nil_r. split_and!; done.
Qed.

(** The hypothesis of [C7_toggle_twice] is met, here by the browser with
    two bookmarks. *)
Lemma C7_toggle_twice_witness :
  let w2 := worldAfter (toggleBookmark (worldAfter (toggleBookmark bookmarkWorld))) in
  NoDup (bookmarks (w_app bookmarkWorld)) ∧
  bookmarks (w_app w2) ≡ₚ bookmarks (w_app bookmarkWorld) ∧
  NoDup (bookmarks (w_app w2)).
Proof.
  cbn zeta.
  assert (NoDup (bookmarks (w_app bookmarkWorld))) as Hnd.
  { apply NoDup_cons. split.
    - intros H%list_elem_of_singleton. discriminate H.
    - apply NoDup_singleton. }
  split; [exact Hnd|].
  destruct (C7_toggle_twice bookmarkWorld Hnd) as (Hp & Hnd2 & _).
  split; [exact Hp | exact Hnd2].
Defined.

(** C7 as the specification words it fails: with the bookmarks
    [/home/a, /home/b] and the browser in [/home/a], two calls leave
    [/home/b, /home/a]. *)
Lemma C7_counterexample :
  let w2 := worldAfter (toggleBookmark (worldAfter (toggleBookmark bookmarkWorld))) in
  NoDup (bookmarks (w_app bookmarkWorld)) ∧
  bookmarks (w_app bookmarkWorld) = [dirA; dirB] ∧
  bookmarks (w_app w2) = [dirB; dirA] ∧
  bookmarks (w_app w2) ≠ bookmarks (w_app bookmarkWorld).
Proof.
  cbn zeta. split; [|split; [reflexivity | split; [reflexivity | discriminate]]].
  apply NoDup_cons. split.
  - intros H%list_elem_of_singleton. discriminate H.
  - apply NoDup_singleton.
Qed.

(** ** The mutex in [loadFiles] *)

Section Mutex.
Context {tables : CaseTables}.

(** When the directory cannot be read, [loadFiles] gives the error back
    and leaves the world as it was. *)
Lemma loadFiles_error (w : World) (e : error) :
  lock (w_app w) = false →
  OS.ReadDir (w_fs w) (currentDir (w_app w)) = inl e →
  loadFiles w = Returns (Some e) w.
Proof.
  intros Hl Hr. unfold loadFiles. run_go. rewrite Hl. simpl. rewrite Hr. simpl.
  destruct w as [fs cwd sp [fl pv st rt up cd fi lk bm se]]. simpl in *. by subst lk.
Qed.

Lemma loadFiles_locked (w : World) :
  lock (w_app w) = true → loadFiles w = Blocked w.
Proof. intros Hl. unfold loadFiles. run_go. by rewrite Hl. Qed.


(** C9 fails in the code: whenever the mutex is free and the directory
    can be read, [loadFiles] does not return; it takes the mutex, stores
    the entries and calls [sortFiles], which parks on the mutex that its
    caller holds, so the entries are never sorted and the mutex is never
    released. *)
Theorem C9_loadFiles_blocks (w : World) (entries : list DirEntry) :
  lock (w_app w) = false →
  OS.ReadDir (w_fs w) (currentDir (w_app w)) = inr entries →
  ∃ w', loadFiles w = Blocked w' ∧
        lock (w_app w') = true ∧
        files (w_app w') = entries ∧
        sortFiles w' = Blocked w'.
Proof.
  intros Hl Hr. unfold loadFiles. run_go. rewrite Hl. simpl. rewrite Hr. simpl.
  unfold sortFiles. run_go.
  eexists. split; [reflexivity|]. simpl. done.
Qed.

End Mutex.

Section MutexSample.
#[local] Existing Instance latin1.

(** The hypotheses of [C9_loadFiles_blocks] are met at start-up in
    [/home/a]: the first call of [loadFiles], made by [main], never
    returns, and neither does [main]. *)
Lemma C9_loadFiles_blocks_witness :
  ∃ w', loadFiles (initialWorld tagFS dirA) = Blocked w' ∧
        lock (w_app w') = true ∧
        main (initialWorld tagFS dirA) = Blocked w'.
Proof.
  destruct (C9_loadFiles_blocks (initialWorld tagFS dirA)
              (OS.entriesOf tagFS dirA) eq_refl eq_refl) as (w' & E & Hl & _).
  exists w'. split; [exact E|]. split; [exact Hl|].
  unfold main, startUp, mbind, go_mbind, go_bind, modifyApp, initialWorld in *.
  cbn [w_fs w_cwd w_spawned w_app].
  replace (OS.Getwd tagFS dirA) with (inr dirA : error + Path) by (vm_compute; reflexivity).
  cbn [w_fs w_cwd w_spawned w_app]. by rewrite E.
Defined.

End MutexSample.

(** ** A directory that cannot be read *)

Section ReadFailure.
Context {tables : CaseTables}.

(** C8, as amended: when the directory cannot be read, [loadFiles] gives
    the error back to its caller and shows nothing.  In a refresh the
    caller drops it: [refreshList] leaves the entries loaded before, the
    list, the status line, the screen and the file system as they were
    and hands its closure over, which builds the list again from the old
    entries and has [Ready] as the one status text it asks for; no text
    about the failure is set and no modal is put up.  At start-up [main]
    prints the error and returns before the interface runs. *)
Theorem C8_read_failure_dropped (w : World) (e : error) :
  lock (w_app w) = false →
  OS.ReadDir (w_fs w) (currentDir (w_app w)) = inl e →
  loadFiles w = Returns (Some e) w ∧
  refreshList w = Waiting UpdRefresh w ∧
  runClosure UpdRefresh w =
    Waiting (UpdStatus "Ready")
            (mkWorld (w_fs w) (w_cwd w) (w_spawned w) (rebuildList (w_app w))) ∧
  files (rebuildList (w_app w)) = files (w_app w) ∧
  status (rebuildList (w_app w)) = status (w_app w) ∧
  root (rebuildList (w_app w)) = root (w_app w) ∧
  startUp w = Returns (ExitPrinting ("Error reading directory: " +:+ Error e)) w.
Proof.
  intros Hl Hr. pose proof (loadFiles_error w e Hl Hr) as E.
  split_and!; try done.
  - unfold refreshList, mbind, go_mbind, go_bind. by rewrite E.
  - unfold startUp, mbind, go_mbind, go_bind. by rewrite E.
Qed.

End ReadFailure.

Section ReadFailureSample.
#[local] Existing Instance latin1.

(** The hypotheses of [C8_read_failure_dropped] are met when the current
    directory has been removed under the browser. *)
Lemma C8_read_failure_dropped_witness :
  let e := mkError "open" "/home/gone" ENOENT in
  lock (w_app goneWorld) = false ∧
  OS.ReadDir (w_fs goneWorld) (currentDir (w_app goneWorld)) = inl e ∧
  refreshList goneWorld = Waiting UpdRefresh goneWorld ∧
  startUp goneWorld =
    Returns (ExitPrinting ("Error reading directory: " +:+ Error e)) goneWorld.
Proof.
  cbn zeta.
  destruct (C8_read_failure_dropped goneWorld
              (mkError "open" "/home/gone" ENOENT) eq_refl eq_refl)
    as (_ & E & _ & _ & _ & _ & Hm).
  split; [reflexivity|]. split; [reflexivity|]. split; [exact E | exact Hm].
Defined.

(** C8 as the specification words it fails: with the current directory
    [/home/gone] missing, a refresh leaves the status line and the screen
    as they were and hands over the closure that every refresh hands
    over, so that no text of the error is shown or asked for; [main]
    coming to the same failure prints it and returns, and [main] started
    in the removed directory prints the failure of [os.Getwd] and
    returns: either way the program ends. *)
Lemma C8_counterexample :
  let e := mkError "open" "/home/gone" ENOENT in
  OS.ReadDir (w_fs goneWorld) (currentDir (w_app goneWorld)) = inl e ∧
  refreshList goneWorld = Waiting UpdRefresh goneWorld ∧
  status (w_app goneWorld) = "" ∧
  root (w_app goneWorld) = ScrLayout ∧
  (∃ w', runClosure UpdRefresh goneWorld = Waiting (UpdStatus "Ready") w' ∧
         status (w_app w') = "" ∧ root (w_app w') = ScrLayout ∧
         updates (w_app w') = []) ∧
  startUp goneWorld =
    Returns (ExitPrinting "Error reading directory: open /home/gone: no such file or directory")
            goneWorld ∧
  program (initialWorld tagFS ["home"; "gone"]) =
    Exits "Error creating app: getwd: no such file or directory".
Proof.
  cbn zeta. split_and!; try reflexivity.
  eexists. split; [reflexivity|]. by split_and!.
Qed.

End ReadFailureSample.

(** ** The path an operation works on *)

Lemma dropBytes_app pre s : dropBytes (String.length pre) (pre +:+ s) = s.
Proof. induction pre as [|c pre IH]; simpl; [done | exact IH]. Qed.

Lemma TrimPrefix_app pre s : TrimPrefix (pre +:+ s) pre = s.
Proof.
  unfold TrimPrefix.
  assert (HasPrefix (pre +:+ s) pre = true) as -> by (apply HasPrefix_spec; by exists s).
  apply dropBytes_app.
Qed.

(** The label gives the name back for every directory, and for every file
    whose name does not itself begin with the tag. *)
Lemma TrimPrefix_listLabel e :
  IsDir e = true ∨ HasPrefix (Name e) dirTag = false →
  TrimPrefix (listLabel e) dirTag = Name e.
Proof.
  unfold listLabel. destruct (IsDir e); intros [H|H]; try discriminate H.
  - apply TrimPrefix_app.
  - apply TrimPrefix_app.
  - unfold TrimPrefix. by rewrite H.
Qed.

Section Addressing.
Context {tables : CaseTables}.

(** C10 fails in the code: in [/home/a], holding the files [notes.txt]
    and [[::b][DIR] notes.txt], the second one is the first item of the
    list; with it selected, delete, rename, copy, move and open all work
    on [/home/a/notes.txt], and a confirmed delete removes that other file
    while the selected one stays (the callback then waits for ever in
    [updateStatus]). *)
Theorem C10_tagged_name_misaddressed :
  let sel := mkDirEntry taggedName false in
  let wrong := dirA ++ ["notes.txt"] in
  items (filesList (w_app tagWorld)) !! Z.to_nat (GetCurrentItem (filesList (w_app tagWorld)))
    = Some (entryItem sel) ∧
  filepath_Join dirA (Name sel) = dirA ++ [taggedName] ∧
  filepath_Join dirA (Name sel) ≠ wrong ∧
  (∃ w' msg, deleteSelection tagWorld = Returns tt w' ∧
             root (w_app w') = ScrConfirm msg "notes.txt" wrong ∧
             ∃ w'', pressConfirm "Yes" w' = Waiting (UpdStatus "Deleted: notes.txt") w'' ∧
                    w_fs w'' !! wrong = None ∧
                    w_fs w'' !! (dirA ++ [taggedName]) = Some (NFile "tagged")) ∧
  (∃ w' t l i, renameSelection tagWorld = Returns tt w' ∧
               root (w_app w') = ScrInput t l i (DoneRename wrong)) ∧
  (∃ w' t l i, copySelection tagWorld = Returns tt w' ∧
               root (w_app w') = ScrInput t l i (DoneCopy "notes.txt")) ∧
  (∃ w' t l i, moveSelection tagWorld = Returns tt w' ∧
               root (w_app w') = ScrInput t l i (DoneMove wrong)) ∧
  (∃ w', openSelection tagWorld = Returns tt w' ∧
         w_spawned w' = [["xdg-open"; "/home/a/notes.txt"]]).
Proof.
  cbn zeta. split_and!.
  - vm_compute. reflexivity.
  - vm_compute. reflexivity.
  - vm_compute. discriminate.
  - eexists _, _. split; [vm_compute; reflexivity|]. split; [reflexivity|].
    eexists. split; [vm_compute; reflexivity|]. split; vm_compute; reflexivity.
  - eexists _, _, _, _. split; [vm_compute; reflexivity|]. reflexivity.
  - eexists _, _, _, _. split; [vm_compute; reflexivity|]. reflexivity.
  - eexists _, _, _, _. split; [vm_compute; reflexivity|]. reflexivity.
  - eexists. split; [vm_compute; reflexivity|]. reflexivity.
Qed.

End Addressing.

(** ** Copying a directory *)

Import OS.

Lemma stripPrefix_Some p k r : stripPrefix p k = Some r ↔ k = p ++ r.
Proof.
  revert k. induction p as [|a p IH]; intros k; simpl.
  - split; [by intros [= ->] | by intros ->].
  - destruct k as [|b k]; [split; [done | intros H; discriminate H]|].
    case_decide as Hab.
    + subst b. rewrite IH. split; [by intros -> | by intros [= ->]].
    + split; [done | intros [= ? _]; congruence].
Qed.

Lemma stripPrefix_app p r : stripPrefix p (p ++ r) = Some r.
Proof. by apply stripPrefix_Some. Qed.

Lemma stripPrefix_None p k : stripPrefix p k = None ↔ ¬ p `prefix_of` k.
Proof.
  split.
  - intros Hn [r Hr]. apply stripPrefix_Some in Hr. congruence.
  - intros Hn. destruct (stripPrefix p k) as [r|] eqn:E; [|done].
    apply stripPrefix_Some in E. exfalso. apply Hn. by exists r.
Qed.

(** A name without a separator is one component, and joining it to a
    path adds it at the end. *)
Lemma splitGo_plain sep cur s :
  Count s sep = 0%Z → splitGo sep cur s = [String.rev_app cur s].
Proof.
  revert cur. induction s as [|c s IH]; intros cur Hc; simpl in *; [done|].
  destruct (Ascii.eqb c sep).
  - pose proof (Count_nonneg s sep). lia.
  - by rewrite IH.
Qed.

Lemma filepath_Join_name p n : validName n → filepath_Join p n = p ++ [n].
Proof.
  intros (Hne & Hd & Hdd & Hc). unfold filepath_Join, Split.
  rewrite splitGo_plain by exact Hc. simpl. unfold cleanStep.
  rewrite decide_False by (intros [?|?]; done).
  by rewrite decide_False.
Qed.

Lemma apart_source src dst s :
  apart src dst → stripPrefix dst (src ++ s) = None ∧ ¬ (src ++ s) `prefix_of` dst.
Proof.
  intros [Hsd Hds]. split.
  - apply stripPrefix_None. intros Hp.
    destruct (prefix_weak_total src dst (src ++ s)) as [?|?]; try done.
    by apply prefix_app_r.
  - intros Hp. apply Hsd. by apply prefix_app_l in Hp.
Qed.

Lemma apart_child src dst n : apart src dst → apart (src ++ [n]) (dst ++ [n]).
Proof.
  intros [Hsd Hds]. split; intros Hp.
  - apply prefix_app_l in Hp.
    destruct (prefix_weak_total src dst (dst ++ [n])) as [?|?]; try done.
    by apply prefix_app_r.
  - apply prefix_app_l in Hp.
    destruct (prefix_weak_total dst src (src ++ [n])) as [?|?]; try done.
    by apply prefix_app_r.
Qed.

Lemma prefix_snoc_cases (q p : Path) n :
  q `prefix_of` p ++ [n] ↔ q `prefix_of` p ∨ q = p ++ [n].
Proof.
  split.
  - intros [k Hk]. destruct (decide (k = [])) as [->|Hne].
    + right. by rewrite app_nil_r in Hk.
    + left. destruct (exists_last Hne) as (k' & m & ->).
      rewrite app_assoc in Hk. apply app_inj_tail in Hk as [-> _]. by exists k'.
  - intros [Hp | ->]; [by apply prefix_app_r | done].
Qed.

(** *** [os.ReadDir] *)

Lemma childOf_Some p kv e :
  childOf p kv = Some e ↔ kv.1 = p ++ [Name e] ∧ IsDir e = isDirNode kv.2.
Proof.
  unfold childOf. destruct (stripPrefix p kv.1) as [r|] eqn:E.
  - apply stripPrefix_Some in E. rewrite E.
    destruct r as [|n [|m r]].
    + split; [done|]. intros [H _]. apply app_inv_head in H. discriminate H.
    + split.
      * by intros [= <-].
      * intros [H Hd]. apply app_inv_head in H. injection H as ->.
        destruct e as [nm d]. simpl in *. by rewrite Hd.
    + split; [done|]. intros [H _]. apply app_inv_head in H. discriminate H.
  - split; [done|]. intros [H _].
    apply stripPrefix_None in E. exfalso. apply E. by exists [Name e].
Qed.

Lemma entriesOf_spec fs p e :
  e ∈ entriesOf fs p ↔
  ∃ nd, fs !! (p ++ [Name e]) = Some nd ∧ IsDir e = isDirNode nd.
Proof.
  unfold entriesOf. rewrite merge_sort_Permutation, list_elem_of_omap. split.
  - intros ([k nd] & Hin & Hc). apply elem_of_map_to_list in Hin.
    apply childOf_Some in Hc as [Hk Hd]. simpl in *. subst k. by exists nd.
  - intros (nd & Hl & Hd). exists (p ++ [Name e], nd). split.
    + by apply elem_of_map_to_list.
    + by apply childOf_Some.
Qed.

Lemma omap_childOf_NoDup p (l : list (Path * Node)) :
  NoDup (l.*1) → NoDup (Name <$> omap (childOf p) l).
Proof.
  induction l as [|kv l IH]; simpl; intros Hnd; [constructor|].
  apply NoDup_cons in Hnd as [Hk Hnd].
  destruct (childOf p kv) as [e|] eqn:E; simpl; [|by apply IH].
  apply NoDup_cons. split; [|by apply IH].
  intros Hin. apply list_elem_of_fmap in Hin as (e' & Hn & Hin).
  apply list_elem_of_omap in Hin as (kv' & Hin' & E').
  apply childOf_Some in E as [Hkv _]. apply childOf_Some in E' as [Hkv' _].
  apply Hk. apply list_elem_of_fmap. exists kv'. split; [|done]. congruence.
Qed.

Lemma entriesOf_NoDup fs p : NoDup (Name <$> entriesOf fs p).
Proof.
  unfold entriesOf. rewrite merge_sort_Permutation.
  apply omap_childOf_NoDup, NoDup_fst_map_to_list.
Qed.

(** *** [os.MkdirAll] *)

Lemma mkdirFrom_spec (fs : FS) (above rest : Path) :
  (∀ q d, q `prefix_of` above ++ rest → fs !! q ≠ Some (NFile d)) →
  ∃ fs1, mkdirFrom fs above rest = inr fs1 ∧
         ∀ q, fs1 !! q =
              if decide (q `prefix_of` above ++ rest ∧ (length above < length q)%nat)
              then Some NDir else fs !! q.
Proof.
  revert fs above. induction rest as [|c rest IH]; intros fs above Hnf; simpl.
  - exists fs. split; [done|]. intros q. case_decide as Hq; [|done].
    destruct Hq as [Hp Hl]. apply prefix_length in Hp. rewrite app_nil_r in Hp. lia.
  - assert (above ++ c :: rest = (above ++ [c]) ++ rest) as Hassoc by by rewrite <- app_assoc.
    assert (∀ fs0 : FS,
              (∀ q, fs0 !! q = if decide (q = above ++ [c]) then Some NDir else fs !! q) →
              ∃ fs1, mkdirFrom fs0 (above ++ [c]) rest = inr fs1 ∧
                ∀ q, fs1 !! q =
                  if decide (q `prefix_of` above ++ c :: rest ∧ (length above < length q)%nat)
                  then Some NDir else fs !! q) as Hstep.
    { intros fs0 H0. destruct (IH fs0 (above ++ [c])) as (fs1 & E & H1).
      { intros q d Hp. rewrite H0. case_decide; [done|]. apply Hnf. by rewrite Hassoc. }
      exists fs1. split; [exact E|]. intros q. rewrite H1, H0, Hassoc.
      rewrite length_app. simpl.
      destruct (decide (q = above ++ [c])) as [->|Hne].
      - rewrite length_app. simpl.
        rewrite decide_False by (intros [_ ?]; lia).
        rewrite decide_True; [done|]. split; [by apply prefix_app_r | lia].
      - case_decide as H2; case_decide as H3; try done.
        + exfalso. apply H3. destruct H2 as [? ?]. split; [done | lia].
        + exfalso. apply H2. destruct H3 as [Hp Hl]. split; [done|].
          destruct (decide (length q = S (length above))) as [Hlen|?]; [|lia].
          exfalso. apply Hne.
          destruct Hp as [k Hk].
          assert (length q = length (above ++ [c])) as Hlq
            by (rewrite length_app; simpl; lia).
          apply (f_equal (take (length q))) in Hk.
          rewrite take_app_length in Hk. rewrite Hlq in Hk.
          rewrite take_app_length in Hk. by subst q. }
    destruct (fs !! (above ++ [c])) as [[d|]|] eqn:Hq.
    + exfalso. apply (Hnf (above ++ [c]) d); [|done]. rewrite Hassoc. by apply prefix_app_r.
    + apply Hstep. intros q. case_decide; [by subst q|done].
    + apply Hstep. intros q. case_decide as Hd.
      * subst q. apply lookup_insert_eq.
      * by rewrite lookup_insert_ne.
Qed.

Lemma MkdirAll_spec (fs : FS) (dst : Path) :
  fs !! [] = Some NDir →
  (∀ q d, q `prefix_of` dst → fs !! q ≠ Some (NFile d)) →
  ∃ fs1, MkdirAll fs dst = inr fs1 ∧
         ∀ q, fs1 !! q = if decide (q `prefix_of` dst) then Some NDir else fs !! q.
Proof.
  intros Hroot Hnf. destruct (mkdirFrom_spec fs [] dst Hnf) as (fs1 & E & H1).
  exists fs1. split; [exact E|]. intros q. rewrite H1. simpl.
  destruct q as [|a q].
  - rewrite decide_False by (simpl; lia). rewrite decide_True by apply prefix_nil. done.
  - case_decide as H2; case_decide as H3; try done.
    + exfalso. apply H3. apply H2.
    + exfalso. apply H2. split; [done | simpl; lia].
Qed.

(** *** The depth of the tree *)

Lemma maxDepth_ge (fs : FS) k x : fs !! k = Some x → (length k ≤ maxDepth fs)%nat.
Proof.
  unfold maxDepth. revert k x.
  apply (map_fold_weak_ind
           (λ (r : nat) (m : FS), ∀ k x, m !! k = Some x → (length k ≤ r)%nat)).
  - intros k x H. by rewrite lookup_empty in H.
  - intros i y m r Hi IH k x Hk.
    destruct (decide (i = k)) as [->|Hne].
    + lia.
    + rewrite lookup_insert_ne in Hk by done. specialize (IH k x Hk). lia.
Qed.

(** *** One file *)

Lemma dropBytes_empty n : dropBytes n "" = "".
Proof. by destruct n. Qed.

Lemma Create_ok (fs : FS) (dst : Path) :
  fs !! dst ≠ Some NDir → fs !! removelast dst = Some NDir →
  Create fs dst = inr (<[dst := NFile ""]> fs, dst).
Proof.
  intros Hdst Hpar. unfold Create. rewrite Hpar. by destruct (fs !! dst) as [[|]|].
Qed.

Lemma copyPath_file (f : nat) (fs : FS) (src dst : Path) (data : string) :
  fs !! src = Some (NFile data) →
  src ≠ dst →
  fs !! dst ≠ Some NDir →
  fs !! removelast dst = Some NDir →
  copyPath (S f) fs src dst = CopyReturns (<[dst := NFile data]> fs) None.
Proof.
  intros Hsrc Hne Hdst Hpar. simpl. unfold Stat, Open.
  rewrite Hsrc. simpl. rewrite (Create_ok fs dst Hdst Hpar).
  unfold Copy. rewrite lookup_insert_ne by done. rewrite Hsrc, lookup_insert_eq.
  rewrite dropBytes_empty, string_app_nil_r.
  by rewrite insert_insert_eq.
Qed.

(** *** The source tree *)

Lemma nothing_below (fs : FS) (src s : Path) :
  sourceTree fs src →
  fs !! (src ++ s) ≠ Some NDir →
  ∀ r, r ≠ [] → fs !! (src ++ s ++ r) = None.
Proof.
  intros [_ Htree] Hs r. induction r as [|m r IH] using rev_ind; [done|].
  intros _. destruct (fs !! (src ++ s ++ r ++ [m])) as [x|] eqn:E; [|done].
  exfalso. destruct (Htree (s ++ r) m) as [Hdir _].
  { rewrite <- app_assoc. by rewrite E. }
  destruct (decide (r = [])) as [->|Hr].
  - rewrite app_nil_r in Hdir. by apply Hs.
  - rewrite IH in Hdir by done. discriminate Hdir.
Qed.

Lemma sourceTree_child (fs : FS) (src : Path) (n : string) :
  sourceTree fs src → fs !! (src ++ [n]) = Some NDir → sourceTree fs (src ++ [n]).
Proof.
  intros [_ Htree] Hn. split; [exact Hn|]. intros r m Hsome.
  rewrite <- !app_assoc in *. by apply (Htree ([n] ++ r) m).
Qed.

Lemma sourceTree_ext (fs fs' : FS) (src : Path) :
  (∀ s, fs' !! (src ++ s) = fs !! (src ++ s)) → sourceTree fs src → sourceTree fs' src.
Proof.
  intros Hext [Hsrc Htree]. split.
  - specialize (Hext []). rewrite app_nil_r in Hext. by rewrite Hext.
  - intros r n. rewrite Hext.
    replace (src ++ r) with (src ++ r ++ []) by by rewrite app_nil_r.
    rewrite Hext, app_nil_r. apply Htree.
Qed.

Lemma wfFS_sourceTree (fs : FS) (src : Path) :
  wfFS fs → fs !! src = Some NDir → sourceTree fs src.
Proof.
  intros [_ Hwf] Hsrc. split; [exact Hsrc|]. intros r n Hsome.
  rewrite app_assoc in Hsome. by apply Hwf.
Qed.

(** *** The file system while the entries are copied *)

Lemma copiedSoFar_source fs src dst names s :
  apart src dst → copiedSoFar fs src dst names (src ++ s) = fs !! (src ++ s).
Proof.
  intros Hap. unfold copiedSoFar.
  destruct (apart_source src dst s Hap) as [-> Hnp]. by rewrite decide_False.
Qed.

Lemma copiedSoFar_above fs src dst names q :
  q `prefix_of` dst → copiedSoFar fs src dst names q = Some NDir.
Proof.
  intros Hp. unfold copiedSoFar. destruct (stripPrefix dst q) as [[|n r]|] eqn:E.
  - done.
  - apply stripPrefix_Some in E. subst q. apply prefix_length in Hp.
    rewrite length_app in Hp. simpl in Hp. lia.
  - by rewrite decide_True.
Qed.

Lemma copiedSoFar_pending fs src dst names n r :
  n ∉ names → copiedSoFar fs src dst names (dst ++ n :: r) = fs !! (dst ++ n :: r).
Proof.
  intros Hn. unfold copiedSoFar. rewrite stripPrefix_app. by rewrite decide_False.
Qed.

(** Marking one more name as copied changes nothing at the paths that do
    not go through that name. *)
Lemma copiedSoFar_other fs src dst names n q :
  stripPrefix (dst ++ [n]) q = None →
  copiedSoFar fs src dst (names ++ [n]) q = copiedSoFar fs src dst names q.
Proof.
  intros Hq. unfold copiedSoFar. destruct (stripPrefix dst q) as [[|m r]|] eqn:E; try done.
  apply stripPrefix_Some in E.
  assert (m ≠ n) as Hmn.
  { intros ->. apply stripPrefix_None in Hq. apply Hq. exists r. subst q.
    by rewrite <- app_assoc. }
  destruct (decide (m ∈ names)) as [Hin|Hnin].
  - rewrite decide_True; [done|]. apply elem_of_app. by left.
  - rewrite decide_False; [done|]. rewrite elem_of_app, list_elem_of_singleton. tauto.
Qed.

Lemma copiedSoFar_all fs src dst q :
  sourceTree fs src →
  copiedSoFar fs src dst (Name <$> entriesOf fs src) q = copied fs src dst q.
Proof.
  intros Htree. unfold copiedSoFar, copied.
  destruct (stripPrefix dst q) as [[|n r]|] eqn:E; try done.
  - rewrite app_nil_r. destruct Htree as [-> _]. done.
  - case_decide as Hin; [done|].
    assert (fs !! (src ++ [n]) = None) as Hn.
    { destruct (fs !! (src ++ [n])) as [nd|] eqn:En; [|done].
      exfalso. apply Hin. apply list_elem_of_fmap.
      exists (mkDirEntry n (isDirNode nd)). split; [done|].
      apply entriesOf_spec. by exists nd. }
    assert (fs !! (src ++ n :: r) = None) as ->; [|done].
    destruct (decide (r = [])) as [->|Hr]; [exact Hn|].
    change (n :: r) with ([n] ++ r).
    apply (nothing_below fs src [n] Htree); [by rewrite Hn | done].
Qed.

(** *** One entry of the loop *)

Lemma copy_entry (fs fsk : FS) (src dst : Path) (f : nat) (names : list string)
      (e : DirEntry) :
  sourceTree fs src → apart src dst → canTake fs src dst →
  (∀ r, is_Some (fs !! (src ++ r)) → (length r < S f)%nat) →
  copyDirSpec f →
  (∀ q, fsk !! q = copiedSoFar fs src dst names q) →
  e ∈ entriesOf fs src → Name e ∉ names →
  ∃ fs',
    (if IsDir e
     then copyDir f fsk (filepath_Join src (Name e)) (filepath_Join dst (Name e))
     else copyPath f fsk (filepath_Join src (Name e)) (filepath_Join dst (Name e)))
    = CopyReturns fs' None ∧
    ∀ q, fs' !! q = copiedSoFar fs src dst (names ++ [Name e]) q.
Proof.
  intros Htree Hap [Hway Hkind] Hdepth IH Hk He Hfresh.
  apply entriesOf_spec in He as (nd & Hnd & Hdir).
  set (n := Name e) in *.
  assert (validName n) as Hvalid.
  { destruct Htree as [_ Ht]. apply (Ht [] n). simpl. by rewrite Hnd. }
  rewrite !filepath_Join_name by exact Hvalid.
  (* what the file system holds at this turn *)
  assert (∀ s, fsk !! (src ++ s) = fs !! (src ++ s)) as Fsrc.
  { intros s. rewrite Hk. by apply copiedSoFar_source. }
  assert (∀ q, q `prefix_of` dst → fsk !! q = Some NDir) as Fabove.
  { intros q Hq. rewrite Hk. by apply copiedSoFar_above. }
  assert (∀ r, fsk !! (dst ++ n :: r) = fs !! (dst ++ n :: r)) as Fpend.
  { intros r. rewrite Hk. by apply copiedSoFar_pending. }
  destruct nd as [data|]; simpl in Hdir; rewrite Hdir.
  - (* a file *)
    destruct f as [|f'].
    { exfalso. specialize (Hdepth [n]). rewrite Hnd in Hdepth.
      specialize (Hdepth (mk_is_Some _ _ eq_refl)). simpl in Hdepth. lia. }
    rewrite (copyPath_file f' fsk (src ++ [n]) (dst ++ [n]) data).
    + eexists. split; [reflexivity|]. intros q.
      destruct (decide (q = dst ++ [n])) as [->|Hq].
      * rewrite lookup_insert_eq. unfold copiedSoFar. rewrite stripPrefix_app.
        rewrite decide_True by (apply elem_of_app; right; left). by rewrite Hnd.
      * rewrite lookup_insert_ne by done. rewrite Hk.
        destruct (stripPrefix (dst ++ [n]) q) as [r|] eqn:E.
        -- apply stripPrefix_Some in E. rewrite <- app_assoc in E. simpl in E. subst q.
           assert (r ≠ []) as Hr by (intros ->; by apply Hq).
           unfold copiedSoFar. rewrite stripPrefix_app.
           rewrite decide_False by exact Hfresh.
           rewrite decide_True by (apply elem_of_app; right; left).
           change (n :: r) with ([n] ++ r).
           rewrite (nothing_below fs src [n] Htree); [done | by rewrite Hnd | done].
        -- by rewrite copiedSoFar_other.
    + by rewrite Fsrc.
    + intros Heq. apply app_inj_tail in Heq as [-> _]. by apply (proj1 Hap).
    + rewrite Fpend. intros Hd. specialize (Hkind [n] _ _ Hnd Hd). discriminate Hkind.
    + rewrite removelast_last. by apply Fabove.
  - (* a directory *)
    destruct (IH fsk (src ++ [n]) (dst ++ [n])) as (fs' & E & Hfs').
    + by apply Fabove, prefix_nil.
    + apply sourceTree_child.
      * apply (sourceTree_ext fs); [exact Fsrc | exact Htree].
      * by rewrite Fsrc.
    + by apply apart_child.
    + split.
      * intros q d [Hq | ->]%prefix_snoc_cases.
        -- by rewrite Fabove.
        -- rewrite Fpend. intros Hd. specialize (Hkind [n] _ _ Hnd Hd). discriminate Hkind.
      * intros r x y. rewrite <- !app_assoc. simpl. rewrite Fsrc, Fpend. apply Hkind.
    + intros r. rewrite <- app_assoc. simpl. rewrite Fsrc. intros Hs.
      specialize (Hdepth (n :: r) Hs). simpl in Hdepth. lia.
    + exists fs'. split; [exact E|]. intros q. rewrite Hfs'. unfold copied.
      destruct (stripPrefix (dst ++ [n]) q) as [r|] eqn:Eq.
      * apply stripPrefix_Some in Eq. rewrite <- app_assoc in Eq. simpl in Eq. subst q.
        rewrite <- !app_assoc. simpl. rewrite Fsrc, Fpend.
        unfold copiedSoFar. rewrite stripPrefix_app.
        by rewrite decide_True by (apply elem_of_app; right; left).
      * rewrite copiedSoFar_other by exact Eq.
        case_decide as Hp.
        -- apply prefix_snoc_cases in Hp as [Hp | ->].
           ++ by rewrite copiedSoFar_above.
           ++ rewrite <- (app_nil_r (dst ++ [n])) in Eq at 2.
              by rewrite stripPrefix_app in Eq.
        -- by rewrite Hk.
Qed.

(** *** The loop *)

Lemma copy_entries (fs : FS) (src dst : Path) (f : nat) :
  sourceTree fs src → apart src dst → canTake fs src dst →
  (∀ r, is_Some (fs !! (src ++ r)) → (length r < S f)%nat) →
  copyDirSpec f →
  ∀ (todo : list DirEntry) (names : list string) (fsk : FS),
    (∀ q, fsk !! q = copiedSoFar fs src dst names q) →
    NoDup (names ++ (Name <$> todo)) →
    (∀ e, e ∈ todo → e ∈ entriesOf fs src) →
    ∃ fs',
      forEntries
        (λ e fs0,
           let srcPath := filepath_Join src (Name e) in
           let dstPath := filepath_Join dst (Name e) in
           if IsDir e then copyDir f fs0 srcPath dstPath
           else copyPath f fs0 srcPath dstPath)
        todo fsk = CopyReturns fs' None ∧
      ∀ q, fs' !! q = copiedSoFar fs src dst (names ++ (Name <$> todo)) q.
Proof.
  intros Htree Hap Htake Hdepth IH todo.
  induction todo as [|e todo IHtodo]; intros names fsk Hk Hnd Hin; simpl.
  - exists fsk. split; [done|]. intros q. by rewrite app_nil_r.
  - destruct (copy_entry fs fsk src dst f names e) as (fs1 & E & H1); try done.
    { apply Hin. left. }
    { apply NoDup_app in Hnd as (_ & Hdis & _). intros Hn. apply (Hdis _ Hn). left. }
    cbn zeta. rewrite E.
    destruct (IHtodo (names ++ [Name e]) fs1) as (fs' & E' & H'); try done.
    { rewrite <- app_assoc. exact Hnd. }
    { intros e' He'. apply Hin. by right. }
    exists fs'. split; [exact E'|]. intros q. rewrite H'. by rewrite <- app_assoc.
Qed.

(** *** [copyDir] *)

Lemma copyDir_spec (fuel : nat) : copyDirSpec fuel.
Proof.
  induction fuel as [|f IH]; intros fs src dst Hroot Htree Hap Htake Hdepth.
  - exfalso. specialize (Hdepth []). rewrite app_nil_r in Hdepth.
    destruct Htree as [Hsrc _]. rewrite Hsrc in Hdepth.
    specialize (Hdepth (mk_is_Some _ _ eq_refl)). simpl in Hdepth. lia.
  - simpl. unfold ReadDir. destruct Htree as [Hsrc Htree]. rewrite Hsrc.
    destruct (MkdirAll_spec fs dst Hroot (proj1 Htake)) as (fs1 & -> & H1).
    destruct (copy_entries fs src dst f (conj Hsrc Htree) Hap Htake Hdepth IH
                (entriesOf fs src) [] fs1) as (fs' & E & H').
    + intros q. rewrite H1. unfold copiedSoFar.
      destruct (stripPrefix dst q) as [[|n r]|] eqn:Eq.
      * apply stripPrefix_Some in Eq. rewrite app_nil_r in Eq. subst q.
        by rewrite decide_True.
      * apply stripPrefix_Some in Eq. subst q.
        rewrite decide_False; [by rewrite decide_False by apply not_elem_of_nil|].
        intros Hp%prefix_length. rewrite length_app in Hp. simpl in Hp. lia.
      * done.
    + simpl. apply entriesOf_NoDup.
    + done.
    + exists fs'. split; [exact E|]. intros q. rewrite H'. simpl.
      by apply copiedSoFar_all.
Qed.

(** *** Well-formed file systems *)

Lemma wfFSb_sound (fs : FS) : wfFSb fs = true → wfFS fs.
Proof.
  unfold wfFSb. intros [Hroot Hall]%andb_true_iff.
  apply bool_decide_eq_true in Hroot. split; [exact Hroot|].
  intros p n [x Hx]. rewrite forallb_forall in Hall.
  specialize (Hall (p ++ [n], x)).
  assert (entryOKb fs (p ++ [n], x) = true) as Hok.
  { apply Hall. apply list_elem_of_In. by apply elem_of_map_to_list. }
  unfold entryOKb in Hok. simpl in Hok.
  destruct (p ++ [n]) as [|a l] eqn:E; [by destruct p|].
  rewrite <- E in Hok. rewrite removelast_last, last_last in Hok.
  apply andb_true_iff in Hok as [H1 H2].
  by apply bool_decide_eq_true in H1, H2.
Qed.

Lemma wfFS_nothing_below (fs : FS) (p : Path) :
  wfFS fs → fs !! p ≠ Some NDir → ∀ r, r ≠ [] → fs !! (p ++ r) = None.
Proof.
  intros [_ Hwf] Hp r. induction r as [|m r IH] using rev_ind; [done|].
  intros _. destruct (fs !! (p ++ r ++ [m])) as [x|] eqn:E; [|done].
  exfalso. destruct (Hwf (p ++ r) m) as [Hdir _].
  { rewrite <- app_assoc. by rewrite E. }
  destruct (decide (r = [])) as [->|Hr].
  - rewrite app_nil_r in Hdir. by apply Hp.
  - rewrite IH in Hdir by done. discriminate Hdir.
Qed.

(** A destination that does not exist yet can take any tree, as long as
    no file stands on the way down to it. *)
Lemma canTake_fresh (fs : FS) (src dst : Path) :
  wfFS fs → fs !! dst = None →
  (∀ q d, q `prefix_of` dst → fs !! q ≠ Some (NFile d)) →
  canTake fs src dst.
Proof.
  intros Hwf Hdst Hway. split; [exact Hway|]. intros r x y _ Hy.
  destruct (decide (r = [])) as [->|Hr].
  - rewrite app_nil_r in Hy. congruence.
  - rewrite (wfFS_nothing_below fs dst Hwf) in Hy; [done | by rewrite Hdst | done].
Qed.

(** *** The file system after the copy *)

Lemma copied_under fs src dst r :
  copied fs src dst (dst ++ r) =
  match fs !! (src ++ r) with Some x => Some x | None => fs !! (dst ++ r) end.
Proof. unfold copied. by rewrite stripPrefix_app. Qed.

Lemma copied_above fs src dst q :
  fs !! src = Some NDir → q `prefix_of` dst → copied fs src dst q = Some NDir.
Proof.
  intros Hsrc Hp. unfold copied. destruct (stripPrefix dst q) as [r|] eqn:E.
  - apply stripPrefix_Some in E. subst q.
    assert (r = []) as ->.
    { apply prefix_length in Hp. rewrite length_app in Hp. destruct r; [done|simpl in Hp; lia]. }
    by rewrite app_nil_r, Hsrc.
  - by rewrite decide_True.
Qed.

Lemma copied_elsewhere fs src dst q :
  ¬ q `prefix_of` dst → ¬ dst `prefix_of` q → copied fs src dst q = fs !! q.
Proof.
  intros Hq Hd. unfold copied. apply stripPrefix_None in Hd. rewrite Hd.
  by rewrite decide_False.
Qed.

Lemma copied_source fs src dst s :
  apart src dst → copied fs src dst (src ++ s) = fs !! (src ++ s).
Proof.
  intros Hap. destruct (apart_source src dst s Hap) as [Hs Hnp].
  apply copied_elsewhere; [exact Hnp | by apply stripPrefix_None].
Qed.

(** Copying once more changes nothing. *)
Lemma copied_again (fs fs' : FS) src dst :
  fs !! src = Some NDir → apart src dst →
  (∀ q, fs' !! q = copied fs src dst q) →
  ∀ q, copied fs' src dst q = fs' !! q.
Proof.
  intros Hsrc Hap H' q. unfold copied at 1.
  destruct (stripPrefix dst q) as [r|] eqn:E.
  - rewrite (H' (src ++ r)), copied_source by exact Hap.
    destruct (fs !! (src ++ r)) as [x|] eqn:Ex; [|done].
    apply stripPrefix_Some in E. subst q. by rewrite H', copied_under, Ex.
  - case_decide as Hp; [|done]. by rewrite H', copied_above.
Qed.

(** C6, as amended: for a source directory in a well-formed file system
    and a destination apart from it that can take the tree, [copyPath] with fuel
    for the depth of the tree returns without error; every file and
    directory of the source tree stands under the destination at the same
    relative path with the same bytes, and the directories down to the
    destination exist; a destination file at the place of a source file is
    overwritten, a destination directory is merged into and whatever else
    it held stays; the source and the rest of the file system are
    untouched; on a destination that did not exist the result is the
    source tree and nothing else; and running the same copy again returns
    without error and changes nothing. *)
Theorem C6_copy_tree (fs : FS) (src dst : Path) (fuel : nat) :
  wfFS fs →
  fs !! src = Some NDir →
  apart src dst →
  canTake fs src dst →
  (maxDepth fs < fuel)%nat →
  ∃ fs',
    copyPath (S fuel) fs src dst = CopyReturns fs' None ∧
    (∀ r x, fs !! (src ++ r) = Some x → fs' !! (dst ++ r) = Some x) ∧
    (∀ q, q `prefix_of` dst → fs' !! q = Some NDir) ∧
    (∀ r, fs !! (src ++ r) = None → fs' !! (dst ++ r) = fs !! (dst ++ r)) ∧
    (∀ s, fs' !! (src ++ s) = fs !! (src ++ s)) ∧
    (∀ q, ¬ q `prefix_of` dst → ¬ dst `prefix_of` q → fs' !! q = fs !! q) ∧
    (fs !! dst = None → ∀ r, fs' !! (dst ++ r) = fs !! (src ++ r)) ∧
    copyPath (S fuel) fs' src dst = CopyReturns fs' None.
Proof.
  intros Hwf Hsrc Hap Htake Hfuel.
  assert (∀ (m : FS), (∀ s, m !! (src ++ s) = fs !! (src ++ s)) →
          ∀ r, is_Some (m !! (src ++ r)) → (length r < fuel)%nat) as Hdepth.
  { intros m Hm r [x Hx]. rewrite Hm in Hx. apply maxDepth_ge in Hx.
    rewrite length_app in Hx. lia. }
  pose proof (wfFS_sourceTree fs src Hwf Hsrc) as Htree.
  destruct (copyDir_spec fuel fs src dst (proj1 Hwf) Htree Hap Htake
              (Hdepth fs (λ _, eq_refl))) as (fs' & E & H').
  assert (∀ s, fs' !! (src ++ s) = fs !! (src ++ s)) as Hsame.
  { intros s. by rewrite H', copied_source. }
  exists fs'. split_and!.
  - simpl. unfold Stat. rewrite Hsrc. exact E.
  - intros r x Hx. by rewrite H', copied_under, Hx.
  - intros q Hq. by rewrite H', copied_above.
  - intros r Hr. by rewrite H', copied_under, Hr.
  - exact Hsame.
  - intros q Hq Hd. by rewrite H', copied_elsewhere.
  - intros Hdst r. rewrite H', copied_under.
    destruct (fs !! (src ++ r)) as [x|] eqn:Ex; [done|].
    destruct (decide (r = [])) as [->|Hr].
    + by rewrite app_nil_r.
    + apply (wfFS_nothing_below fs dst Hwf); [by rewrite Hdst | done].
  - assert (fs' !! src = Some NDir) as Hsrc'.
    { specialize (Hsame []). rewrite app_nil_r in Hsame. by rewrite Hsame. }
    destruct (copyDir_spec fuel fs' src dst) as (fs'' & E'' & H'').
    + rewrite H'. apply copied_above; [exact Hsrc | apply prefix_nil].
    + by apply (sourceTree_ext fs).
    + exact Hap.
    + split.
      * intros q d Hq. by rewrite H', copied_above.
      * intros r x y Hx Hy. rewrite Hsame in Hx. rewrite H', copied_under, Hx in Hy.
        congruence.
    + by apply Hdepth.
    + simpl. unfold Stat. rewrite Hsrc'. rewrite E''. f_equal.
      apply map_eq. intros q. rewrite H''.
      by apply (copied_again fs fs' src dst).
Qed.

(** The hypotheses of [C6_copy_tree] are met by [/home/a], holding
    [a.txt] and [sub/b.txt], copied to [/home/b], which does not exist:
    the copy holds the same two files with the same bytes, and the second
    run succeeds and changes nothing. *)
Lemma C6_copy_tree_witness :
  ∃ fs',
    copyPath (2 + maxDepth copyFS) copyFS dirA dirB = CopyReturns fs' None ∧
    fs' !! (dirB ++ ["a.txt"]) = Some (NFile "alpha") ∧
    fs' !! (dirB ++ ["sub"; "b.txt"]) = Some (NFile "bravo") ∧
    copyPath (2 + maxDepth copyFS) fs' dirA dirB = CopyReturns fs' None.
Proof.
  assert (wfFS copyFS) as Hwf by (apply wfFSb_sound; vm_compute; reflexivity).
  assert (copyFS !! dirB = None) as Hfresh by (vm_compute; reflexivity).
  destruct (C6_copy_tree copyFS dirA dirB (S (maxDepth copyFS)))
    as (fs' & E & Hcopy & _ & _ & _ & _ & _ & Hagain).
  - exact Hwf.
  - vm_compute. reflexivity.
  - split; intros [k Hk]; vm_compute in Hk; discriminate Hk.
  - apply canTake_fresh; [exact Hwf | exact Hfresh |].
    intros q d [k Hk] Hq. unfold dirB in Hk.
    destruct q as [|a [|b [|c q]]]; simpl in Hk; simplify_eq;
      vm_compute in Hq; discriminate Hq.
  - lia.
  - exists fs'. split; [exact E|]. split_and!.
    + apply (Hcopy ["a.txt"]). vm_compute. reflexivity.
    + apply (Hcopy ["sub"; "b.txt"]). vm_compute. reflexivity.
    + exact Hagain.
Defined.

(** C6 as the specification words it fails.  A directory copied onto
    itself comes back without error with its files empty.  Copied into
    its own subdirectory [d], the file [d/c] of the source is overwritten
    by [c] before it is copied, and the copy of [d/c] holds the bytes of
    [c].  Copied onto the directory above it, the file [x] of the source
    is overwritten by [d/x] before it is copied.  Where a file stands at
    the destination, or a directory at the place of a source file, the
    copy returns an error. *)
Lemma C6_counterexample :
  (∃ fs', copyOf copyFS dirA dirA = CopyReturns fs' None ∧
          copyFS !! (dirA ++ ["a.txt"]) = Some (NFile "alpha") ∧
          fs' !! (dirA ++ ["a.txt"]) = Some (NFile "") ∧
          fs' !! (dirA ++ ["sub"; "b.txt"]) = Some (NFile "")) ∧
  (∃ fs', copyOf innerFS dirA (dirA ++ ["d"]) = CopyReturns fs' None ∧
          innerFS !! (dirA ++ ["d"; "c"]) = Some (NFile "old") ∧
          fs' !! ((dirA ++ ["d"]) ++ ["d"; "c"]) = Some (NFile "new")) ∧
  (∃ fs', copyOf outerFS (dirA ++ ["d"]) dirA = CopyReturns fs' None ∧
          outerFS !! ((dirA ++ ["d"]) ++ ["x"]) = Some (NFile "outer") ∧
          fs' !! (dirA ++ ["x"]) = Some (NFile "inner")) ∧
  (∃ fs', copyOf blockedFS dirA dirB
          = CopyReturns fs' (Some (mkError "mkdir" "/home/b" ENOTDIR))) ∧
  (∃ fs', copyOf clashFS dirA dirB
          = CopyReturns fs' (Some (mkError "open" "/home/b/a.txt" EISDIR))).
Proof.
  split_and!.
  - eexists. split; [vm_compute; reflexivity|]. split_and!; vm_compute; reflexivity.
  - eexists. split; [vm_compute; reflexivity|]. split_and!; vm_compute; reflexivity.
  - eexists. split; [vm_compute; reflexivity|]. split_and!; vm_compute; reflexivity.
  - eexists. vm_compute. reflexivity.
  - eexists. vm_compute. reflexivity.
Qed.
(** * Further properties of the program *)

(** ** One toggle of a bookmark *)

(** X1: one call of [toggleBookmark] keeps the bookmarks free of
    duplicates, flips whether the current directory is bookmarked, and
    leaves every other bookmark in place and in order; the file system,
    the current directory and the status line are not touched.  The call
    then hands its message to the event loop and waits: made by the key
    handler, on the goroutine of the loop, it does not return. *)
Theorem X1_toggle_once (w : World) :
  NoDup (bookmarks (w_app w)) →
  let p := currentDir (w_app w) in
  ∃ w', toggleBookmark w
          = Waiting (UpdStatus (if decide (p ∈ bookmarks (w_app w))
                                then "Removed bookmark" else "Bookmarked")) w' ∧
        NoDup (bookmarks (w_app w')) ∧
        (p ∈ bookmarks (w_app w') ↔ p ∉ bookmarks (w_app w)) ∧
        filter (λ q, q ≠ p) (bookmarks (w_app w'))
          = filter (λ q, q ≠ p) (bookmarks (w_app w)) ∧
        currentDir (w_app w') = p ∧
        status (w_app w') = status (w_app w) ∧
        w_fs w' = w_fs w.
Proof.
  intros Hnd. cbn zeta. set (p := currentDir (w_app w)).
  assert (w_fs (worldAfter (toggleBookmark w)) = w_fs w ∧
          status (w_app (worldAfter (toggleBookmark w))) = status (w_app w)) as [Hfs Hst].
  { unfold toggleBookmark. run_go. by destruct (indexOf _ _). }
  destruct (decide (p ∈ bookmarks (w_app w))) as [Hin|Hnin].
  - destruct (indexOf p (bookmarks (w_app w))) as [i|] eqn:Hi;
      [|by apply indexOf_None in Hi].
    apply indexOf_Some in Hi as (l1 & l2 & Hbs & _ & Hl1).
    destruct (toggleBookmark_present w l1 l2 Hbs Hl1) as (w' & E & Hc & Hb).
    rewrite E in Hfs, Hst. simpl in Hfs, Hst.
    assert (p ∉ l2) as Hl2.
    { rewrite Hbs in Hnd. apply NoDup_app in Hnd as (_ & _ & Hnd).
      by apply NoDup_cons in Hnd as [? _]. }
    exists w'. split; [exact E|]. rewrite Hb, Hbs. split_and!.
    + rewrite Hbs in Hnd.
      apply (NoDup_Permutation_proper _ _ (Permutation_middle l1 l2 p)) in Hnd.
      by apply NoDup_cons in Hnd as [_ ?].
    + rewrite !elem_of_app, elem_of_cons. split; [tauto|].
      intros H. exfalso. apply H. right. by left.
    + rewrite !filter_app, filter_cons_False; [done|]. intros H. by apply H.
    + exact Hc.
    + exact Hst.
    + exact Hfs.
  - destruct (toggleBookmark_absent w Hnin) as (w' & E & Hc & Hb).
    rewrite E in Hfs, Hst. simpl in Hfs, Hst.
    exists w'. split; [exact E|]. rewrite Hb. split_and!.
    + apply NoDup_app. split_and!; [done | | apply NoDup_singleton].
      intros q Hq ->%list_elem_of_singleton. by apply Hnin.
    + split; [done|]. intros _. apply elem_of_app. right. left.
    + rewrite filter_app, filter_cons_False, filter_nil, app_nil_r; [done|].
      intros H. by apply H.
    + exact Hc.
    + exact Hst.
    + exact Hfs.
Qed.

(** The hypothesis of [X1_toggle_once] is met by the browser with two
    bookmarks. *)
Lemma X1_toggle_once_witness :
  ∃ w', toggleBookmark bookmarkWorld = Waiting (UpdStatus "Removed bookmark") w' ∧
        NoDup (bookmarks (w_app w')).
Proof.
  destruct (X1_toggle_once bookmarkWorld) as (w' & E & Hnd & _).
  - unfold bookmarkWorld, dirA, dirB. simpl.
    apply NoDup_cons. split.
    + intros H%list_elem_of_singleton. discriminate H.
    + apply NoDup_singleton.
  - exists w'. split; [exact E | exact Hnd].
Defined.

(** ** How [refreshList] and [main] end *)

Section StartUp.
Context {tables : CaseTables}.

Lemma loadFiles_returns (w : World) (r : option error) (w' : World) :
  loadFiles w = Returns r w' →
  lock (w_app w) = false ∧ w' = w ∧
  ∃ e, r = Some e ∧ OS.ReadDir (w_fs w) (currentDir (w_app w)) = inl e.
Proof.
  destruct (lock (w_app w)) eqn:Hl.
  { rewrite loadFiles_locked by exact Hl. discriminate. }
  destruct (OS.ReadDir (w_fs w) (currentDir (w_app w))) as [e|entries] eqn:Hr.
  - rewrite (loadFiles_error w e Hl Hr). intros [= <- <-]. split; [done|].
    split; [done|]. by exists e.
  - intros H. exfalso. revert H.
    unfold loadFiles. run_go. rewrite Hl. simpl. rewrite Hr. simpl.
    unfold sortFiles, sortFilesWith. run_go. discriminate.
Qed.

Lemma loadFiles_blocks_keeps (w : World) :
  lock (w_app w) = true ∨ (∃ entries, OS.ReadDir (w_fs w) (currentDir (w_app w)) = inr entries) →
  ∃ w', loadFiles w = Blocked w' ∧
        w_fs w' = w_fs w ∧
        updates (w_app w') = updates (w_app w) ∧
        filesList (w_app w') = filesList (w_app w) ∧
        root (w_app w') = root (w_app w) ∧
        currentDir (w_app w') = currentDir (w_app w) ∧
        searchTerm (w_app w') = searchTerm (w_app w) ∧
        status (w_app w') = status (w_app w).
Proof.
  destruct (lock (w_app w)) eqn:Hl.
  { intros _. exists w. by rewrite loadFiles_locked. }
  intros [H | [entries Hr]]; [discriminate H|].
  unfold loadFiles. run_go. rewrite Hl. simpl. rewrite Hr. simpl.
  unfold sortFiles, sortFilesWith. run_go.
  eexists. split; [reflexivity|]. simpl. done.
Qed.

(** What [loadFiles] leaves of the file system, however it ends. *)
Lemma loadFiles_fs (w : World) : w_fs (worldAfter (loadFiles w)) = w_fs w.
Proof.
  destruct (lock (w_app w)) eqn:Hl.
  { by rewrite loadFiles_locked. }
  destruct (OS.ReadDir (w_fs w) (currentDir (w_app w))) as [e|entries] eqn:Hr.
  - by rewrite (loadFiles_error w e Hl Hr).
  - destruct (loadFiles_blocks_keeps w) as (w' & E & Hfs & _); [right; by exists entries|].
    by rewrite E.
Qed.

(** What a refresh leaves, however it ends. *)
Lemma refreshList_after (w : World) :
  let w' := worldAfter (refreshList w) in
  w_fs w' = w_fs w ∧ root (w_app w') = root (w_app w) ∧
  currentDir (w_app w') = currentDir (w_app w) ∧
  searchTerm (w_app w') = searchTerm (w_app w) ∧
  updates (w_app w') = updates (w_app w) ∧
  status (w_app w') = status (w_app w) ∧
  filesList (w_app w') = filesList (w_app w).
Proof.
  cbn zeta. unfold refreshList, mbind, go_mbind, go_bind.
  destruct (lock (w_app w)) eqn:Hl.
  { rewrite loadFiles_locked by exact Hl. simpl. by split_and!. }
  destruct (OS.ReadDir (w_fs w) (currentDir (w_app w))) as [e|entries] eqn:Hr.
  - rewrite (loadFiles_error w e Hl Hr). simpl. by split_and!.
  - destruct (loadFiles_blocks_keeps w) as (w' & E & Hfs & Hu & Hfl & Hroot & Hd & Ht & Hst).
    { right. by exists entries. }
    rewrite E. simpl. by split_and!.
Qed.

(** X2: [refreshList] never returns.  When the mutex is free and the
    directory cannot be read it hands its closure to the event loop with
    nothing changed, and waits for the loop, on whose goroutine it runs;
    in every other case it parks inside [loadFiles] before that, the
    list, the status line, the channel and the file system as they
    were. *)
Theorem X2_refreshList_outcome (w : World) :
  ¬ returns (refreshList w) ∧
  (lock (w_app w) = false ∧
   (∃ e, OS.ReadDir (w_fs w) (currentDir (w_app w)) = inl e) →
   refreshList w = Waiting UpdRefresh w) ∧
  (lock (w_app w) = true ∨
   (∃ entries, OS.ReadDir (w_fs w) (currentDir (w_app w)) = inr entries) →
   ∃ w', refreshList w = Blocked w' ∧
         updates (w_app w') = updates (w_app w) ∧
         filesList (w_app w') = filesList (w_app w) ∧
         status (w_app w') = status (w_app w) ∧
         w_fs w' = w_fs w).
Proof.
  assert (lock (w_app w) = false ∧
          (∃ e, OS.ReadDir (w_fs w) (currentDir (w_app w)) = inl e) →
          refreshList w = Waiting UpdRefresh w) as Hwait.
  { intros [Hl [e Hr]]. unfold refreshList, mbind, go_mbind, go_bind.
    by rewrite (loadFiles_error w e Hl Hr). }
  assert (lock (w_app w) = true ∨
          (∃ entries, OS.ReadDir (w_fs w) (currentDir (w_app w)) = inr entries) →
          ∃ w', refreshList w = Blocked w' ∧
                updates (w_app w') = updates (w_app w) ∧
                filesList (w_app w') = filesList (w_app w) ∧
                status (w_app w') = status (w_app w) ∧
                w_fs w' = w_fs w) as Hpark.
  { intros H.
    destruct (loadFiles_blocks_keeps w H) as (w' & E & Hfs & Hu & Hfl & _ & _ & _ & Hst).
    exists w'. unfold refreshList, mbind, go_mbind, go_bind. rewrite E. done. }
  split; [|split; [exact Hwait | exact Hpark]].
  intros (a & w' & E).
  destruct (lock (w_app w)) eqn:Hl.
  { destruct Hpark as (w1 & E1 & _); [by left|]. congruence. }
  destruct (OS.ReadDir (w_fs w) (currentDir (w_app w))) as [e|entries] eqn:Hr.
  - rewrite Hwait in E; [discriminate E|]. split; [done|]. by exists e.
  - destruct Hpark as (w1 & E1 & _); [right; by exists entries|]. congruence.
Qed.


End StartUp.
(** ** The selection in the list that a refresh builds *)

Section Operations.
Context {tables : CaseTables}.

(** X4: in the list that the closure of [refreshList] builds the
    selection is the first item; the list is empty exactly when the directory has no parent and
    no entry passes the filter, and otherwise the selected index is in
    range, so that its text can be read. *)
Theorem X4_selection_after_redraw (s : AppState) :
  let l := filesList (rebuildList s) in
  GetCurrentItem l = 0%Z ∧
  (items l = [] ↔
     ¬ hasParent (currentDir s) ∧
     List.filter (keepEntry (searchTerm s)) (files s) = []) ∧
  (items l ≠ [] → (0 ≤ GetCurrentItem l < GetItemCount l)%Z ∧
                  is_Some (items l !! Z.to_nat (GetCurrentItem l))).
Proof.
  cbn zeta.
  assert (GetCurrentItem (filesList (rebuildList s)) = 0%Z) as Hcur.
  { unfold rebuildList. simpl. rewrite fold_addEntry. simpl.
    destruct (decide _); simpl; destruct (0 <? _)%Z eqn:E; try reflexivity.
    all: unfold SetCurrentItem, GetItemCount in *; simpl in *.
    all: destruct (Z.of_nat _ <=? 0)%Z eqn:E2; [|reflexivity].
    all: apply Z.ltb_lt in E; apply Z.leb_le in E2; lia. }
  split; [exact Hcur|]. rewrite rebuildList_items. split.
  - destruct (decide (hasParent (currentDir s))) as [Hp|Hp].
    + split; [intros H; by apply app_eq_nil in H as [_ ?] | tauto].
    + rewrite app_nil_r. split.
      * intros H. split; [done|]. by apply map_eq_nil in H.
      * by intros [_ ->].
  - intros Hne. rewrite Hcur. unfold GetItemCount. rewrite rebuildList_items.
    destruct (_ ++ _) as [|it l] eqn:E; [done|]. simpl. split; [lia | by eexists].
Qed.

(** ** The five operations on the selection *)

Lemma GetItemText_at (w : World) (i : nat) (it : ListItem) :
  items (filesList (w_app w)) !! i = Some it →
  GetItemText (Z.of_nat i) w = Returns (MainText it) w.
Proof.
  intros Hi. unfold GetItemText. run_go.
  destruct (Z.of_nat i <? 0)%Z eqn:E; [apply Z.ltb_lt in E; lia|].
  by rewrite Nat2Z.id, Hi.
Qed.

Lemma GetItemText_beyond (w : World) (idx : Z) :
  (Z.of_nat (length (items (filesList (w_app w)))) ≤ idx)%Z →
  GetItemText idx w = Panics w.
Proof.
  intros Hi. unfold GetItemText. run_go.
  destruct (idx <? 0)%Z; [done|].
  rewrite lookup_ge_None_2; [done | lia].
Qed.

(** X5: with an item selected whose entry is a directory, or a file whose
    name does not begin with the tag of directories, each of the five
    operations works on the current directory joined with the name of
    that entry: delete asks for confirmation for that path, rename, copy
    and move open their dialog with it, open starts the system handler on
    it; none of them touches the file system at this point. *)
Theorem X5_operations_address_entry (w : World) (i : nat) (e : DirEntry) :
  items (filesList (w_app w)) !! i = Some (entryItem e) →
  GetCurrentItem (filesList (w_app w)) = Z.of_nat i →
  plainEntry e →
  validName (Name e) →
  let s := w_app w in
  let path := currentDir s ++ [Name e] in
  deleteSelection w
    = Returns tt (mkWorld (w_fs w) (w_cwd w) (w_spawned w)
        (set_root (ScrConfirm ("Delete '" +:+ Name e +:+ "'? This cannot be undone.")
                              (Name e) path) s)) ∧
  renameSelection w
    = Returns tt (mkWorld (w_fs w) (w_cwd w) (w_spawned w)
        (set_root (ScrInput "Rename" "New name:" (Name e) (DoneRename path)) s)) ∧
  copySelection w
    = Returns tt (mkWorld (w_fs w) (w_cwd w) (w_spawned w)
        (set_root (ScrInput "Copy to" "Destination path:"
                            (showPath (filepath_Join (currentDir s) (Name e +:+ ".copy")))
                            (DoneCopy (Name e))) s)) ∧
  moveSelection w
    = Returns tt (mkWorld (w_fs w) (w_cwd w) (w_spawned w)
        (set_root (ScrInput "Move to" "Destination path:" (showPath path)
                            (DoneMove path)) s)) ∧
  openSelection w
    = Returns tt (mkWorld (w_fs w) (w_cwd w)
                          (w_spawned w ++ [["xdg-open"; showPath path]]) s).
Proof.
  intros Hi Hcur Hplain Hvalid. cbn zeta.
  pose proof (GetItemText_at w i _ Hi) as Ht. simpl in Ht.
  pose proof (TrimPrefix_listLabel e Hplain) as Hname.
  pose proof (filepath_Join_name (currentDir (w_app w)) (Name e) Hvalid) as Hjoin.
  assert ((Z.of_nat i <? 0)%Z = false) as Hneg by (apply Z.ltb_ge; lia).
  unfold deleteSelection, renameSelection, copySelection, moveSelection, openSelection.
  unfold mbind, go_mbind, go_bind, getApp. rewrite Hcur, Hneg, Ht.
  rewrite Hname, Hjoin. split_and!; reflexivity.
Qed.

(** X6: the five operations guard against a negative index only; with
    the selected index at or beyond the end of the list, as on the empty
    list that the root of an empty file system gives, the read of the item
    text panics and nothing else happens. *)
Theorem X6_operations_panic_off_list (w : World) :
  (Z.of_nat (length (items (filesList (w_app w)))) ≤ GetCurrentItem (filesList (w_app w)))%Z →
  deleteSelection w = Panics w ∧
  renameSelection w = Panics w ∧
  copySelection w = Panics w ∧
  moveSelection w = Panics w ∧
  openSelection w = Panics w.
Proof.
  intros Hi.
  assert ((GetCurrentItem (filesList (w_app w)) <? 0)%Z = false) as Hneg
    by (apply Z.ltb_ge; lia).
  pose proof (GetItemText_beyond w _ Hi) as Ht.
  unfold deleteSelection, renameSelection, copySelection, moveSelection, openSelection.
  unfold mbind, go_mbind, go_bind, getApp. rewrite Hneg, Ht. done.
Qed.

(** ** Declining and blank answers *)

(** X7: a confirmation answered with anything but [Yes], and an input
    dialog cancelled, only put the layout back: the callback returns at
    once and the file system, the channel and the rest of the state are as
    they were. *)
Theorem X7_declined_changes_nothing (w : World) :
  (∀ msg name path label,
     root (w_app w) = ScrConfirm msg name path → label ≠ "Yes" →
     pressConfirm label w
       = Returns tt (mkWorld (w_fs w) (w_cwd w) (w_spawned w) (set_root ScrLayout (w_app w)))) ∧
  (∀ title label initial k,
     root (w_app w) = ScrInput title label initial k →
     pressCancel w
       = Returns tt (mkWorld (w_fs w) (w_cwd w) (w_spawned w) (set_root ScrLayout (w_app w)))).
Proof.
  split.
  - intros msg name path label Hroot Hno.
    unfold pressConfirm. run_go. rewrite Hroot. unfold deleteDone.
    apply String.eqb_neq in Hno. rewrite Hno. reflexivity.
  - intros title label initial k Hroot.
    unfold pressCancel. run_go. rewrite Hroot. by destruct k.
Qed.

(** X8: a copy or a move whose destination is empty or all white space,
    the white space of Unicode, is dropped like a blank rename: the
    callback returns with the world as it was.  The search dialog makes
    no such test: it stores the text as the filter. *)
Theorem X8_blank_destination_dropped (w : World) (text : string) :
  allSpace text = true →
  (∀ name, inputDone (DoneCopy name) text true w = Returns tt w) ∧
  (∀ old, inputDone (DoneMove old) text true w = Returns tt w) ∧
  searchTerm (w_app (worldAfter (inputDone DoneSearch text true w))) = text.
Proof.
  intros Hsp. unfold inputDone. rewrite (TrimSpace_allSpace text Hsp). simpl.
  split; [done|]. split; [done|].
  run_go. set (w1 := mkWorld _ _ _ _).
  by destruct (refreshList_after w1) as (_ & _ & _ & -> & _).
Qed.

End Operations.

Section OperationsSample.
#[local] Existing Instance latin1.

(** The hypotheses of [X5_operations_address_entry] are met by the plain
    file [notes.txt], second item of the list of [/home/a]. *)
Lemma X5_operations_address_entry_witness :
  ∃ w', deleteSelection renameWorld = Returns tt w' ∧
        root (w_app w')
          = ScrConfirm "Delete 'notes.txt'? This cannot be undone." "notes.txt"
                       (dirA ++ ["notes.txt"]).
Proof.
  destruct (X5_operations_address_entry renameWorld 1 (mkDirEntry "notes.txt" false))
    as (E & _).
  - vm_compute. reflexivity.
  - vm_compute. reflexivity.
  - right. vm_compute. reflexivity.
  - unfold validName. simpl. split_and!; (discriminate || reflexivity).
  - eexists. split; [exact E|]. reflexivity.
Defined.

(** The hypothesis of [X6_operations_panic_off_list] is met at the root
    of an empty file system, where the redraw leaves an empty list. *)
Lemma X6_operations_panic_off_list_witness :
  items (filesList (w_app emptyRootWorld)) = [] ∧
  deleteSelection emptyRootWorld = Panics emptyRootWorld.
Proof.
  split; [vm_compute; reflexivity|].
  apply (X6_operations_panic_off_list emptyRootWorld). vm_compute. discriminate.
Defined.

(** The hypotheses of [X7_declined_changes_nothing] are met by the delete
    dialog open on [/home/a/notes.txt], answered with [No]. *)
Lemma X7_declined_changes_nothing_witness :
  ∃ w', pressConfirm "No" confirmWorld = Returns tt w' ∧
        w_fs w' = tagFS ∧ root (w_app w') = ScrLayout.
Proof.
  destruct (X7_declined_changes_nothing confirmWorld) as [Hno _].
  eexists. split.
  - apply (Hno "Delete 'notes.txt'? This cannot be undone." "notes.txt"
               (dirA ++ ["notes.txt"]) "No"); [reflexivity | discriminate].
  - split; reflexivity.
Defined.

(** The hypothesis of [X8_blank_destination_dropped] is met by a
    destination made of a blank and a no-break space. *)
Lemma X8_blank_destination_dropped_witness :
  allSpace (String " " nbsp) = true ∧
  inputDone (DoneCopy "notes.txt") (String " " nbsp) true copyWorld = Returns tt copyWorld ∧
  inputDone (DoneMove (dirA ++ ["notes.txt"])) (String " " nbsp) true moveWorld
  = Returns tt moveWorld.
Proof.
  split; [vm_compute; reflexivity|].
  split.
  - destruct (X8_blank_destination_dropped copyWorld (String " " nbsp)) as (H & _).
    + vm_compute. reflexivity.
    + apply H.
  - destruct (X8_blank_destination_dropped moveWorld (String " " nbsp)) as (_ & H & _).
    + vm_compute. reflexivity.
    + apply H.
Defined.

End OperationsSample.

(** ** What the read loop of the preview keeps *)

Lemma string_app_assoc a b c : (a +:+ b) +:+ c = a +:+ b +:+ c.
Proof.
  induction a as [|x a IH]; [done|].
  change ((String x (a +:+ b)) +:+ c = String x (a +:+ b +:+ c)).
  change (String x ((a +:+ b) +:+ c) = String x (a +:+ b +:+ c)). by rewrite IH.
Qed.

Lemma len_zero s : len s = 0%Z → s = "".
Proof. destruct s; [done|]. unfold len. simpl. lia. Qed.

Lemma len_nonneg s : (0 ≤ len s)%Z.
Proof. unfold len. lia. Qed.

(** What [cutLine] cuts off and what it leaves. *)
Lemma cutLine_parts delim s l found rest :
  cutLine delim s = (l, found, rest) →
  s = l +:+ rest ∧
  Count l delim = (if found then 1 else 0)%Z ∧
  (found = false → rest = "").
Proof.
  revert l found rest. induction s as [|c s IH]; intros l found rest; simpl.
  - by intros [= <- <- <-].
  - destruct (Ascii.eqb c delim) eqn:Ec.
    + intros [= <- <- <-]. simpl. rewrite Ec. done.
    + destruct (cutLine delim s) as [[l' f'] r'] eqn:E.
      intros [= <- <- <-]. destruct (IH l' f' r' eq_refl) as (Hs & Hc & Hr).
      split_and!.
      * change (String c s = String c (l' +:+ r')). by rewrite <- Hs.
      * simpl. by rewrite Ec.
      * exact Hr.
Qed.

Lemma longestFrom_mono cur cur' s :
  (cur ≤ cur')%Z → (longestFrom cur s ≤ longestFrom cur' s)%Z.
Proof.
  revert cur cur'. induction s as [|c s IH]; intros cur cur' H; simpl; [done|].
  destruct (Ascii.eqb c newline); [lia|]. apply IH. lia.
Qed.

Lemma longestFrom_ge cur s : (cur ≤ longestFrom cur s)%Z.
Proof.
  revert cur. induction s as [|c s IH]; intros cur; simpl; [lia|].
  destruct (Ascii.eqb c newline); [lia|]. specialize (IH (cur + 1)%Z). lia.
Qed.

(** No line that [cutLine] cuts off is longer than the longest line, and
    what is left has no longer line either. *)
Lemma cutLine_longest s l found rest cur :
  (0 ≤ cur)%Z →
  cutLine newline s = (l, found, rest) →
  (cur + len l ≤ longestFrom cur s)%Z ∧ (longestLine rest ≤ longestFrom cur s)%Z.
Proof.
  revert l found rest cur. induction s as [|c s IH]; intros l found rest cur Hcur; simpl.
  - intros [= <- <- <-]. unfold longestLine, len. simpl. lia.
  - destruct (Ascii.eqb c newline) eqn:Ec.
    + intros [= <- <- <-]. unfold longestLine, len. simpl. lia.
    + destruct (cutLine newline s) as [[l' f'] r'] eqn:E.
      intros [= <- <- <-].
      destruct (IH l' f' r' (cur + 1)%Z ltac:(lia) eq_refl) as [H1 H2].
      split; [|exact H2]. unfold len in *. simpl String.length. lia.
Qed.

(** The text read is the beginning of what was there to read. *)
Lemma readLoop_prefix fuel n buf rd :
  ∃ rest, buf +:+ rd_rest rd = readLoop fuel n buf rd +:+ rest.
Proof.
  revert n buf rd. induction fuel as [|f IH]; intros n buf rd; cbn [readLoop].
  - by exists (rd_rest rd).
  - destruct (n <? PreviewMaxBytes)%Z; [|by exists (rd_rest rd)].
    unfold ReadString.
    destruct (cutLine newline (rd_rest rd)) as [[l found] rest] eqn:E.
    apply cutLine_parts in E as (Hs & _ & _). rewrite Hs, <- string_app_assoc.
    destruct found; [|by exists rest].
    destruct (TextPreviewLines <? Count (buf +:+ l) newline)%Z; [by exists rest|].
    apply (IH (n + len l)%Z (buf +:+ l) (mkReader rest (rd_end rd))).
Qed.

(** At most one line more than the line ceiling is read. *)
Lemma readLoop_lines fuel n buf rd :
  (Count buf newline ≤ TextPreviewLines)%Z →
  (Count (readLoop fuel n buf rd) newline ≤ TextPreviewLines + 1)%Z.
Proof.
  revert n buf rd. induction fuel as [|f IH]; intros n buf rd Hc; cbn [readLoop]; [lia|].
  destruct (n <? PreviewMaxBytes)%Z; [|lia].
  unfold ReadString.
  destruct (cutLine newline (rd_rest rd)) as [[l found] rest] eqn:E.
  apply cutLine_parts in E as (_ & Hl & _).
  assert (Count (buf +:+ l) newline ≤ TextPreviewLines + 1)%Z as Hb
    by (rewrite Count_append, Hl; destruct found; lia).
  destruct found; [|exact Hb].
  destruct (TextPreviewLines <? Count (buf +:+ l) newline)%Z eqn:Et; [exact Hb|].
  apply IH. apply Z.ltb_ge in Et. exact Et.
Qed.

(** The bytes read stay below the byte ceiling plus one line. *)
Lemma readLoop_bytes fuel n buf rd :
  n = len buf →
  (len (readLoop fuel n buf rd)
   ≤ Z.max (len buf) (PreviewMaxBytes - 1 + longestLine (rd_rest rd)))%Z.
Proof.
  revert n buf rd. induction fuel as [|f IH]; intros n buf rd Hn; cbn [readLoop]; [lia|].
  destruct (n <? PreviewMaxBytes)%Z eqn:En; [|lia]. apply Z.ltb_lt in En.
  unfold ReadString.
  destruct (cutLine newline (rd_rest rd)) as [[l found] rest] eqn:E.
  destruct (cutLine_longest _ _ _ _ 0%Z ltac:(lia) E) as [Hl Hr].
  fold (longestLine (rd_rest rd)) in Hl, Hr.
  assert (len (buf +:+ l) ≤ PreviewMaxBytes - 1 + longestLine (rd_rest rd))%Z as Hb
    by (rewrite len_append; lia).
  destruct found; [|lia].
  destruct (TextPreviewLines <? Count (buf +:+ l) newline)%Z; [lia|].
  specialize (IH (n + len l)%Z (buf +:+ l) (mkReader rest (rd_end rd))).
  simpl in IH. rewrite len_append in IH. specialize (IH ltac:(lia)).
  rewrite len_append in Hb. lia.
Qed.

(** A file within both ceilings is read to its end. *)
Lemma readLoop_whole fuel n buf rd :
  n = len buf →
  (n + len (rd_rest rd) ≤ PreviewMaxBytes)%Z →
  (Count (buf +:+ rd_rest rd) newline ≤ TextPreviewLines)%Z →
  (String.length (rd_rest rd) < fuel)%nat →
  readLoop fuel n buf rd = buf +:+ rd_rest rd.
Proof.
  revert n buf rd. induction fuel as [|f IH]; intros n buf rd Hn Hlen Hc Hf; [lia|].
  cbn [readLoop]. destruct (n <? PreviewMaxBytes)%Z eqn:En.
  - unfold ReadString.
    destruct (cutLine newline (rd_rest rd)) as [[l found] rest] eqn:E.
    pose proof (cutLine_parts _ _ _ _ _ E) as (Hs & Hl & Hr).
    destruct found.
    + apply cutLine_found in E.
      rewrite Hs, <- string_app_assoc in Hc.
      assert (Count (buf +:+ l) newline ≤ TextPreviewLines)%Z as Hbl.
      { rewrite Count_append in Hc. pose proof (Count_nonneg rest newline). lia. }
      apply Z.ltb_ge in Hbl. rewrite Hbl.
      rewrite IH; simpl.
      * by rewrite Hs, string_app_assoc.
      * by rewrite len_append, Hn.
      * rewrite Hs, len_append in Hlen. lia.
      * exact Hc.
      * lia.
    + rewrite (Hr eq_refl) in Hs. rewrite string_app_nil_r in Hs. by rewrite Hs.
  - apply Z.ltb_ge in En. pose proof (len_nonneg (rd_rest rd)).
    rewrite (len_zero (rd_rest rd)) by lia. by rewrite string_app_nil_r.
Qed.

(** X9: a file within both ceilings (at most 204800 bytes and at most
    1000 newlines) is previewed whole; the marker is added exactly when
    the file has 204800 bytes, although nothing of it was left out. *)
Theorem X9_small_file_whole (data : string) (e : ioError) :
  (len data ≤ PreviewMaxBytes)%Z →
  (Count data newline ≤ TextPreviewLines)%Z →
  previewText (mkReader data e)
  = if (len data =? PreviewMaxBytes)%Z then data +:+ truncatedMark else data.
Proof.
  intros Hlen Hc. unfold previewText. cbn [rd_rest].
  rewrite readLoop_whole; simpl; try done; lia.
Qed.

(** The hypotheses of [X9_small_file_whole] are met by a file of three
    short lines. *)
Lemma X9_small_file_whole_witness : previewText (mkReader smallFile io_EOF) = smallFile.
Proof.
  rewrite (X9_small_file_whole smallFile io_EOF).
  - reflexivity.
  - vm_compute. discriminate.
  - vm_compute. discriminate.
Defined.

(** X10: whatever the file, the preview is a beginning of the file,
    followed by the marker only when that beginning has exactly 204800
    bytes; the beginning has at most 1001 newlines and fewer bytes than
    the byte ceiling plus the longest line of the file. *)
Theorem X10_preview_bounds (rd : Reader) :
  ∃ body rest,
    rd_rest rd = body +:+ rest ∧
    previewText rd
      = (if (len body =? PreviewMaxBytes)%Z then body +:+ truncatedMark else body) ∧
    (Count body newline ≤ TextPreviewLines + 1)%Z ∧
    (len body < PreviewMaxBytes + longestLine (rd_rest rd))%Z.
Proof.
  set (fuel := S (String.length (rd_rest rd))).
  destruct (readLoop_prefix fuel 0 "" rd) as [rest Hrest].
  change ("" +:+ rd_rest rd) with (rd_rest rd) in Hrest.
  pose proof (readLoop_lines fuel 0 "" rd ltac:(done)) as Hlines.
  pose proof (readLoop_bytes fuel 0 "" rd eq_refl) as Hbytes.
  change (len "") with 0%Z in Hbytes.
  pose proof (longestFrom_ge 0 (rd_rest rd)) as Hlong. fold (longestLine (rd_rest rd)) in Hlong.
  exists (readLoop fuel 0 "" rd), rest. split_and!; try done.
  assert (0 < PreviewMaxBytes)%Z by done. lia.
Qed.
(** ** The event loop on the channel *)

(** X11: the event loop works off whatever the preview goroutines have
    queued and ends with the channel empty; the preview pane then shows
    the text queued last, or what it showed if nothing was queued; the
    list, the status line, the directory, the entries, the filter, the
    root, the bookmarks and the mutex are not touched by these
    closures. *)
Theorem X11_event_loop_settles (s : AppState) :
  let s' := eventLoop s in
  updates s' = [] ∧
  preview s' = default (preview s) (finalPreview (updates s)) ∧
  status s' = status s ∧ filesList s' = filesList s ∧
  currentDir s' = currentDir s ∧ files s' = files s ∧
  searchTerm s' = searchTerm s ∧ root s' = root s ∧
  bookmarks s' = bookmarks s ∧ lock s' = lock s.
Proof.
  cbn zeta. unfold eventLoop.
  split; [by apply drain_empties|].
  split.
  { rewrite drain_preview by done. by destruct (finalPreview _). }
  by destruct (drain_fixed (length (updates s)) s)
    as (-> & -> & -> & -> & -> & -> & -> & ->).
Qed.

(** ** Previews asked for directly and for the selection *)

Section Previews.
Context {tables : CaseTables}.

(** X12: for a text file [openPreview] calls [loadTextPreview] itself,
    on the goroutine of the event loop: the call hands over the closure
    with the loading note and waits for the loop, so it never returns,
    the file is never opened and nothing is changed.  For any other file
    [openPreview] returns, leaves the file system alone and writes the
    note that there is no preview into the pane at once, so that a text
    which a goroutine has queued replaces it later. *)
Theorem X12_openPreview (path : Path) (w : World) :
  if isTextFile (showPath path) then
    openPreview path w = Waiting (UpdPreview "Loading preview...") w
  else
    ∃ w', openPreview path w = Returns tt w' ∧ w_fs w' = w_fs w ∧
          updates (w_app w') = updates (w_app w) ∧
          preview (w_app w') = noPreviewText ∧
          preview (eventLoop (w_app w'))
            = default noPreviewText (finalPreview (updates (w_app w))).
Proof.
  unfold openPreview. destruct (isTextFile (showPath path)).
  - reflexivity.
  - run_go. eexists. split; [reflexivity|]. simpl.
    split; [done|]. split; [done|]. split; [done|].
    unfold eventLoop. rewrite drain_preview by done. simpl.
    by destruct (finalPreview _).
Qed.

(** X13: unlike the five operations, [loadPreviewForSelection] tests the
    selected index against both ends of the list: it always returns,
    never panics, starts at most one goroutine, and then only for a text
    file and without writing the pane itself; it changes nothing but the
    pane. *)
Theorem X13_selection_preview_total (metaText : string → Path → Node → string)
    (w : World) :
  ∃ tasks w',
    loadPreviewForSelection metaText w = Returns tasks w' ∧
    w_fs w' = w_fs w ∧ w_spawned w' = w_spawned w ∧
    set_preview (preview (w_app w)) (w_app w') = w_app w ∧
    (tasks = [] ∨
     ∃ path, tasks = [TStart path] ∧ isTextFile (showPath path) = true ∧ w' = w).
Proof.
  assert (∀ t, set_preview (preview (w_app w)) (set_preview t (w_app w)) = w_app w) as Hset
    by (intros t; by destruct (w_app w)).
  unfold loadPreviewForSelection. unfold mbind, go_mbind, go_bind, getApp.
  destruct (_ || _) eqn:Hguard.
  { run_go. eexists _, _. split; [reflexivity|]. simpl. split_and!; try done. by left. }
  apply orb_false_iff in Hguard as [Hlo Hhi].
  apply Z.ltb_ge in Hlo. apply Z.leb_gt in Hhi. unfold GetItemCount in Hhi.
  set (idx := GetCurrentItem (filesList (w_app w))) in *.
  destruct (items (filesList (w_app w)) !! Z.to_nat idx) as [it|] eqn:Hit.
  2:{ apply lookup_ge_None in Hit. lia. }
  assert (GetItemText idx w = Returns (MainText it) w) as ->.
  { rewrite <- (Z2Nat.id idx) by lia. by apply GetItemText_at. }
  destruct (String.eqb _ goUpLabel).
  { run_go. eexists _, _. split; [reflexivity|]. simpl. split_and!; try done. by left. }
  unfold getFS.
  set (path := filepath_Join _ _).
  destruct (OS.Stat (w_fs w) path) as [err|[data|]] eqn:Hst.
  - destruct (isTextFile (showPath path)) eqn:Htxt.
    + eexists _, _. split; [reflexivity|]. split_and!; try done.
      { by destruct (w_app w). }
      right. by exists path.
    + run_go. eexists _, _. split; [reflexivity|]. simpl. split_and!; try done. by left.
  - destruct (isTextFile (showPath path)) eqn:Htxt.
    + eexists _, _. split; [reflexivity|]. split_and!; try done.
      { by destruct (w_app w). }
      right. by exists path.
    + run_go. eexists _, _. split; [reflexivity|]. simpl. split_and!; try done. by left.
  - run_go. eexists _, _. split; [reflexivity|]. simpl. split_and!; try done. by left.
Qed.

(** ** Changing directory *)


End Previews.

(** ** Which files count as text *)

Lemma rev_app_app a b c : String.rev_app (a +:+ b) c = String.rev_app b (String.rev_app a c).
Proof. revert c. induction a as [|x a IH]; intros c; simpl; [done|]. apply IH. Qed.

Lemma extScan_plain ext back acc :
  plainBytes ext = true →
  extScan (String.rev_app ext back) acc = extScan back (ext +:+ acc).
Proof.
  revert back acc. induction ext as [|c e IH]; intros back acc Hp; simpl in *; [done|].
  apply andb_true_iff in Hp as [Hc He]. apply andb_true_iff in Hc as [Hs Hd].
  rewrite IH by exact He. simpl.
  apply negb_true_iff in Hs. apply negb_true_iff in Hd. rewrite Hs, Hd.
  clear. revert acc. induction e as [|x e IH]; intros acc; simpl; [done|].
  f_equal.
Qed.

Lemma filepath_Ext_app stem ext :
  plainBytes ext = true → filepath_Ext (stem +:+ "." +:+ ext) = "." +:+ ext.
Proof.
  intros Hp. unfold filepath_Ext, String.rev.
  rewrite rev_app_app. change ("." +:+ ext) with (String "." ext). simpl.
  rewrite extScan_plain by exact Hp. simpl. by rewrite string_app_nil_r.
Qed.

Lemma Count_rev_app a b c :
  Count (String.rev_app a b) c = (Count a c + Count b c)%Z.
Proof.
  revert b. induction a as [|x a IH]; intros b; simpl; [done|].
  rewrite IH. simpl. destruct (Ascii.eqb x c); lia.
Qed.

Lemma extScan_no_dot s acc : Count s "."%char = 0%Z → extScan s acc = "".
Proof.
  revert acc. induction s as [|c s IH]; intros acc Hc; simpl in *; [done|].
  destruct (Ascii.eqb c "/"); [done|].
  destruct (Ascii.eqb c "."); [pose proof (Count_nonneg s "."%char); lia|].
  by apply IH.
Qed.

Lemma textExt_suffix e :
  default false (textExt !! String "."%char e) = true ↔ e ∈ textSuffixes.
Proof.
  assert (textExt = list_to_map ((λ x, (String "."%char x, true)) <$> textSuffixes)) as ->
    by reflexivity.
  split.
  - destruct (_ !! _) as [b|] eqn:E; simpl; [|done]. intros ->.
    apply elem_of_list_to_map_2 in E.
    apply list_elem_of_fmap in E as (x & [= ->] & Hx). exact Hx.
  - intros He.
    rewrite (elem_of_list_to_map_1 _ (String "."%char e) true); [done | |].
    + compute_done.
    + apply list_elem_of_fmap. by exists e.
Qed.

Section TextFiles.
Context {tables : CaseTables}.

Lemma ToLower_dot ext : ToLower (String "." ext) = String "." (ToLower ext).
Proof.
  unfold ToLower, Map. by rewrite runes_ascii.
Qed.

(** X15: [isTextFile] looks at the last extension only and ignores its
    case: a name ending in a dot and an extension free of dots and
    separators is text exactly when the lower-cased extension is one of
    the fifteen listed (so a file named just [.go] is text); a name
    without any dot never is. *)
Theorem X15_isTextFile :
  (∀ stem ext, plainBytes ext = true →
     (isTextFile (stem +:+ "." +:+ ext) = true ↔ ToLower ext ∈ textSuffixes)) ∧
  (∀ name, Count name "."%char = 0%Z → isTextFile name = false).
Proof.
  split.
  - intros stem ext Hp. unfold isTextFile. cbn zeta.
    rewrite filepath_Ext_app by exact Hp.
    change ("." +:+ ext) with (String "." ext). rewrite ToLower_dot.
    apply textExt_suffix.
  - intros name Hc. unfold isTextFile, filepath_Ext, String.rev. cbn zeta.
    rewrite extScan_no_dot; [reflexivity|].
    rewrite Count_rev_app. simpl. lia.
Qed.

End TextFiles.

Section TextFilesSample.
#[local] Existing Instance latin1.

(** The hypotheses of [X15_isTextFile] are met by [/home/a/Main.GO] and
    by [Makefile]. *)
Lemma X15_isTextFile_witness :
  isTextFile "/home/a/Main.GO" = true ∧ isTextFile "Makefile" = false.
Proof.
  destruct X15_isTextFile as [Hdot Hnone]. split.
  - apply (Hdot "/home/a/Main" "GO"); [reflexivity|].
    compute_done.
  - apply (Hnone "Makefile"). reflexivity.
Defined.

End TextFilesSample.

(** ** The order handed to [sort.Slice] *)

Lemma string_compare_refl x : String.compare x x = Eq.
Proof. pose proof (String.compare_antisym x x) as H. by destruct (String.compare x x). Qed.

Lemma ltb_irrefl x : String.ltb x x = false.
Proof. apply le_ltb_false. unfold String.le, String.leb. by rewrite string_compare_refl. Qed.

Lemma string_le_antisym x y : String.le x y → String.le y x → x = y.
Proof.
  unfold String.le, String.leb. rewrite (String.compare_antisym y x).
  destruct (String.compare x y) eqn:E; simpl; try done.
  intros _ _. by apply String.compare_eq_iff.
Qed.

Section LessOrder.
Context {tables : CaseTables}.

(** X16: the [less] closure of [sortFiles] is a strict weak ordering, as
    [sort.Slice] needs: nothing is less than itself, it is transitive,
    and so is being not less.  Two entries are tied, and left in an
    order that [sort.Slice] does not promise, exactly when they are of
    the same kind and [strings.ToLower] makes their names equal. *)
Theorem X16_less_strict_weak_order :
  (∀ a, entryLess a a = false) ∧
  (∀ a b, entryLess a b = true → entryLess b a = false) ∧
  (∀ a b c, entryLess a b = true → entryLess b c = true → entryLess a c = true) ∧
  (∀ a b c, entryLess a b = false → entryLess b c = false → entryLess a c = false) ∧
  (∀ a b, tied a b ↔ IsDir a = IsDir b ∧ ToLower (Name a) = ToLower (Name b)).
Proof.
  assert (∀ a, entryLess a a = false) as Hirr.
  { intros a. unfold entryLess. destruct (IsDir a); simpl; apply ltb_irrefl. }
  split_and!.
  - exact Hirr.
  - apply entryLess_asym.
  - intros a b c Hab Hbc.
    destruct (entryLess a c) eqn:Hac; [done|]. exfalso.
    apply entryLess_asym in Hbc.
    by rewrite (entryLess_ntrans a c b Hac Hbc) in Hab.
  - apply entryLess_ntrans.
  - intros a b. unfold tied. rewrite !entryLess_false. unfold entryLe. split.
    + intros [[[? ?]|[Hk H1]] [[? ?]|[Hk' H2]]]; try congruence.
      split; [congruence|]. by apply string_le_antisym.
    + intros [Hk Hn]. rewrite Hk, Hn. split; right; (split; [done|]).
      all: unfold String.le, String.leb; by rewrite string_compare_refl.
Qed.

End LessOrder.

Section LessOrderSample.
#[local] Existing Instance latin1.

(** [File.txt] and [file.TXT] are tied, and so are two names that differ
    in the case of a letter outside ASCII, as
    [X16_less_strict_weak_order] says. *)
Lemma X16_less_strict_weak_order_witness :
  tied (mkDirEntry "File.txt" false) (mkDirEntry "file.TXT" false) ∧
  tied (mkDirEntry "Ärger" false) (mkDirEntry "ärGER" false).
Proof.
  destruct X16_less_strict_weak_order as (_ & _ & _ & _ & Htied).
  split; apply Htied; split; vm_compute; reflexivity.
Defined.

End LessOrderSample.

(** ** What a copy never does *)

Lemma keepsKinds_refl fs : keepsKinds fs fs.
Proof. intros q n Hq. by exists n. Qed.

Lemma keepsKinds_trans fs1 fs2 fs3 :
  keepsKinds fs1 fs2 → keepsKinds fs2 fs3 → keepsKinds fs1 fs3.
Proof.
  intros H12 H23 q n Hq.
  destruct (H12 q n Hq) as (n2 & Hq2 & Hk2).
  destruct (H23 q n2 Hq2) as (n3 & Hq3 & Hk3).
  exists n3. split; [done | congruence].
Qed.

Lemma keepsKinds_insert_new (fs : FS) q n : fs !! q = None → keepsKinds fs (<[q := n]> fs).
Proof.
  intros Hnone k x Hk. exists x. split; [|done].
  rewrite lookup_insert_ne; [done|]. intros ->. congruence.
Qed.

Lemma keepsKinds_insert_file (fs : FS) q d :
  fs !! q ≠ Some NDir → keepsKinds fs (<[q := NFile d]> fs).
Proof.
  intros Hnd k x Hk. destruct (decide (q = k)) as [->|Hne].
  - exists (NFile d). rewrite lookup_insert_eq. split; [done|].
    destruct x; [done|]. by exfalso.
  - exists x. by rewrite lookup_insert_ne.
Qed.

Lemma mkdirFrom_keeps (fs : FS) (above rest : Path) (fs1 : FS) :
  mkdirFrom fs above rest = inr fs1 → keepsKinds fs fs1.
Proof.
  revert fs above. induction rest as [|c rest IH]; intros fs above; simpl.
  - intros [= <-]. apply keepsKinds_refl.
  - destruct (fs !! (above ++ [c])) as [[d|]|] eqn:E; [done| |].
    + apply IH.
    + intros H. apply IH in H.
      eapply keepsKinds_trans; [|exact H]. by apply keepsKinds_insert_new.
Qed.

Lemma forEntries_keeps (body : DirEntry → FS → CopyResult) :
  (∀ e fs0 fs1 err, body e fs0 = CopyReturns fs1 err → keepsKinds fs0 fs1) →
  ∀ entries fs fs' err,
    forEntries body entries fs = CopyReturns fs' err → keepsKinds fs fs'.
Proof.
  intros Hbody. induction entries as [|e rest IH]; intros fs fs' err; simpl.
  - intros [= <- _]. apply keepsKinds_refl.
  - destruct (body e fs) as [fs1 [er|]|] eqn:E; [| |done].
    + intros [= <- _]. by apply (Hbody e fs fs1 (Some er)).
    + intros H. apply IH in H.
      eapply keepsKinds_trans; [|exact H]. by apply (Hbody e fs fs1 None).
Qed.

Lemma Create_inr (fs : FS) (p : Path) (fs1 : FS) (out : Path) :
  Create fs p = inr (fs1, out) →
  fs1 = <[p := NFile ""]> fs ∧ out = p ∧ fs !! p ≠ Some NDir.
Proof.
  unfold Create.
  destruct (fs !! p) as [[d|]|] eqn:Ep; [| done |].
  all: destruct (fs !! removelast p) as [[d'|]|]; try done.
  all: by intros [= <- <-].
Qed.

Lemma Copy_keeps (fs : FS) (out inp : Path) (fs2 : FS) :
  Copy fs out inp = inr fs2 → keepsKinds fs fs2.
Proof.
  unfold Copy. destruct (fs !! inp) as [[data|]|]; [|done..].
  destruct (fs !! out) as [[held|]|] eqn:Eo; [|done..].
  intros [= <-]. apply keepsKinds_insert_file. congruence.
Qed.

Lemma copy_keeps (fuel : nat) :
  (∀ fs src dst fs' err, copyPath fuel fs src dst = CopyReturns fs' err → keepsKinds fs fs') ∧
  (∀ fs src dst fs' err, copyDir fuel fs src dst = CopyReturns fs' err → keepsKinds fs fs').
Proof.
  induction fuel as [|f [IHp IHd]]; [by split|]. split.
  - intros fs src dst fs' err. simpl.
    destruct (Stat fs src) as [e|info]; [intros [= <- _]; apply keepsKinds_refl|].
    destruct (isDirNode info); [apply IHd|].
    destruct (Open fs src) as [e|inp]; [intros [= <- _]; apply keepsKinds_refl|].
    destruct (Create fs dst) as [e|[fs1 out]] eqn:Ec;
      [intros [= <- _]; apply keepsKinds_refl|].
    apply Create_inr in Ec as (-> & -> & Hnd).
    assert (keepsKinds fs (<[dst := NFile ""]> fs)) as H1
      by by apply keepsKinds_insert_file.
    destruct (Copy (<[dst := NFile ""]> fs) dst inp) as [e|fs2] eqn:Ecp;
      intros [= <- _]; [exact H1|].
    eapply keepsKinds_trans; [exact H1|]. by apply Copy_keeps in Ecp.
  - intros fs src dst fs' err. simpl.
    destruct (ReadDir fs src) as [e|entries]; [intros [= <- _]; apply keepsKinds_refl|].
    destruct (MkdirAll fs dst) as [e|fs1] eqn:Em; [intros [= <- _]; apply keepsKinds_refl|].
    intros H. apply mkdirFrom_keeps in Em.
    eapply keepsKinds_trans; [exact Em|].
    revert H. apply forEntries_keeps.
    intros e fs0 fs2 er. destruct (IsDir e); [apply IHd | apply IHp].
Qed.

(** X17: a copy never removes an entry and never turns a file into a
    directory or a directory into a file, for any source and destination
    and also when it stops midway with an error: whatever was in the file
    system before is still there afterwards, as the same kind of thing. *)
Theorem X17_copy_keeps_entries (fuel : nat) (fs : FS) (src dst : Path)
    (fs' : FS) (err : option error) :
  copyPath fuel fs src dst = CopyReturns fs' err → keepsKinds fs fs'.
Proof. apply copy_keeps. Qed.

(** The hypothesis of [X17_copy_keeps_entries] is met by the copy of
    [/home/a] to [/home/b]. *)
Lemma X17_copy_keeps_entries_witness :
  ∃ fs', copyPath 4 copyFS dirA dirB = CopyReturns fs' None ∧ keepsKinds copyFS fs'.
Proof.
  destruct (copyPath 4 copyFS dirA dirB) as [fs' [e|]|] eqn:E.
  - exfalso. vm_compute in E. discriminate E.
  - exists fs'. split; [reflexivity|].
    exact (X17_copy_keeps_entries 4 copyFS dirA dirB fs' None E).
  - exfalso. vm_compute in E. discriminate E.
Defined.

(** X18: [copyPath] on a regular file whose destination lies in an
    existing directory and is no directory itself returns without error
    and writes the destination only; the destination then holds the bytes
    of the source, unless the two are the same file: a file copied onto
    itself is left empty, because the destination is truncated before the
    source is read. *)
Theorem X18_copy_file (fuel : nat) (fs : FS) (src dst : Path) (data : string) :
  fs !! src = Some (NFile data) →
  fs !! dst ≠ Some NDir →
  fs !! removelast dst = Some NDir →
  copyPath (S fuel) fs src dst
  = CopyReturns (<[dst := NFile (if decide (src = dst) then "" else data)]> fs) None.
Proof.
  intros Hsrc Hdst Hpar. case_decide as Heq.
  - subst dst. simpl. unfold Stat, Open. rewrite Hsrc. simpl.
    rewrite (Create_ok fs src Hdst Hpar). unfold Copy.
    rewrite lookup_insert_eq. simpl. by rewrite insert_insert_eq.
  - by apply copyPath_file.
Qed.

(** The hypotheses of [X18_copy_file] are met by [/home/a/a.txt] copied
    onto itself. *)
Lemma X18_copy_file_witness :
  ∃ fs', copyPath 1 copyFS (dirA ++ ["a.txt"]) (dirA ++ ["a.txt"]) = CopyReturns fs' None ∧
         fs' !! (dirA ++ ["a.txt"]) = Some (NFile "").
Proof.
  eexists. split.
  - apply (X18_copy_file 0 copyFS (dirA ++ ["a.txt"]) (dirA ++ ["a.txt"]) "alpha").
    + vm_compute. reflexivity.
    + vm_compute. discriminate.
    + vm_compute. reflexivity.
  - rewrite decide_True by reflexivity. apply lookup_insert_eq.
Defined.

(** ** A delete that is confirmed *)


Section Delete.
Context {tables : CaseTables}.


End Delete.

Section DeleteSample.
#[local] Existing Instance latin1.


End DeleteSample.

(** ** Preview goroutines under any interleaving *)

Lemma settled_enqueue_preview t s : settled (enqueue t s) = t.
Proof.
  unfold settled, finalPreview, enqueue. simpl. by rewrite last_snoc.
Qed.

Lemma settled_drain_one s : settled (drain 1 s) = settled s.
Proof.
  unfold settled, finalPreview. simpl.
  destruct (updates s) as [|text rest] eqn:Hu; [by rewrite Hu|].
  simpl updates. simpl preview. rewrite last_cons. by destruct (last rest).
Qed.

Lemma settled_eventLoop s : preview (eventLoop s) = settled s.
Proof.
  unfold eventLoop, settled. rewrite drain_preview by done. by destruct (finalPreview _).
Qed.

Lemma runSys_snoc sys evs ev : runSys sys (evs ++ [ev]) = sysStep (runSys sys evs) ev.
Proof. unfold runSys. by rewrite fold_left_app. Qed.

(** What each goroutine carries belongs to a request that was made, and
    unless a goroutine is still on its way the text that the pane is
    going to show is the result of one of the requests. *)
Lemma runSys_invariant (sys : Sys) (evs : list Event) :
  sys_tasks sys = [] →
  let fs := sys_fs sys in
  let fin := runSys sys evs in
  sys_fs fin = fs ∧
  Forall (λ t, match t with
               | TStart p | TOpen p => EvGo p ∈ evs
               | TDeliver text => ∃ p, EvGo p ∈ evs ∧ text = previewResult fs p
               | TDone => True
               end) (sys_tasks fin) ∧
  (sys_tasks fin = [] ∨
   (∃ t, t ∈ sys_tasks fin ∧ t ≠ TDone) ∨
   ∃ p, EvGo p ∈ evs ∧ settled (sys_app fin) = previewResult fs p).
Proof.
  intros Hnone. cbn zeta. induction evs as [|ev evs IH] using rev_ind.
  { simpl. rewrite Hnone. split; [done|]. split; [constructor | by left]. }
  destruct IH as (Hfs & Hall & Hlast). rewrite runSys_snoc.
  set (cur := runSys sys evs) in *.
  assert (Forall (λ t, match t with
               | TStart p | TOpen p => EvGo p ∈ evs ++ [ev]
               | TDeliver text =>
                   ∃ p, EvGo p ∈ evs ++ [ev] ∧ text = previewResult (sys_fs sys) p
               | TDone => True
               end) (sys_tasks cur)) as Hall'.
  { eapply Forall_impl; [exact Hall|]. intros [p|p|text|]; simpl; try done.
    - intros ?. apply elem_of_app. by left.
    - intros ?. apply elem_of_app. by left.
    - intros (p & ? & ?). exists p. split; [|done]. apply elem_of_app. by left. }
  assert (∀ p, EvGo p ∈ evs → EvGo p ∈ evs ++ [ev]) as Hmono
    by (intros p ?; apply elem_of_app; by left).
  destruct ev as [path|i|]; [simpl | simpl | cbn [sysStep sys_fs sys_tasks sys_app]].
  - split; [done|]. split.
    + apply Forall_app. split; [exact Hall'|]. constructor; [|constructor].
      apply elem_of_app. right. by left.
    + right. left. exists (TStart path). split; [|done].
      apply elem_of_app. right. by left.
  - destruct (sys_tasks cur !! i) as [t|] eqn:Ht.
    2:{ split; [done|]. split; [exact Hall'|].
        destruct Hlast as [?|[?|(p & ? & ?)]]; [by left | by right; left |].
        right. right. exists p. split; [by apply Hmono | done]. }
    pose proof (proj1 (Forall_lookup _ _) Hall' i t Ht) as Hok.
    assert (i < length (sys_tasks cur))%nat as Hi by by apply lookup_lt_Some in Ht.
    destruct t as [p|p|text|]; simpl.
    + split; [done|]. split.
      * apply Forall_insert; [exact Hall' | exact Hok].
      * right. left. exists (TOpen p). split; [|done].
        apply list_elem_of_lookup. exists i. by apply list_lookup_insert_eq.
    + unfold previewResult in *. rewrite Hfs.
      destruct (Open (sys_fs sys) p) as [err|f] eqn:Eo; simpl.
      * split; [done|]. split; [by apply Forall_insert|].
        right. right. exists p. split; [exact Hok|].
        rewrite settled_enqueue_preview. unfold previewResult. by rewrite Eo.
      * split; [done|]. split.
        -- apply Forall_insert; [exact Hall'|]. exists p. split; [exact Hok|].
           unfold previewResult. by rewrite Eo.
        -- right. left. exists (TDeliver (previewText (NewReader (sys_fs sys) f))).
           split; [|done]. apply list_elem_of_lookup. exists i.
           by apply list_lookup_insert_eq.
    + split; [done|]. split; [by apply Forall_insert|].
      right. right. destruct Hok as (p & Hp & ->). exists p. split; [exact Hp|].
      apply settled_enqueue_preview.
    + split; [done|]. rewrite list_insert_id by exact Ht. split; [exact Hall'|].
      destruct Hlast as [?|[?|(p & ? & ?)]]; [by left | by right; left |].
      right. right. exists p. split; [by apply Hmono | done].
  - split; [done|]. split; [exact Hall'|].
    destruct Hlast as [?|[?|(p & ? & ?)]]; [by left | by right; left |].
    right. right. exists p. split; [by apply Hmono|].
    by rewrite settled_drain_one.
Qed.

(** X20: however the goroutines of the preview requests and the event
    loop are interleaved, once every goroutine has finished the pane ends
    up, with the channel worked off, showing the complete result of one of
    the requests that were made: the text of that file or the error of
    opening it, never the loading note left behind and never a mixture. *)
Theorem X20_finished_previews_show_a_result (sys : Sys) (evs : list Event) :
  sys_tasks sys = [] →
  let fin := runSys sys evs in
  sys_tasks fin ≠ [] →
  allDone (sys_tasks fin) →
  ∃ p, EvGo p ∈ evs ∧
       preview (eventLoop (sys_app fin)) = previewResult (sys_fs sys) p.
Proof.
  intros Hnone. cbn zeta. intros Hsome Hdone.
  destruct (runSys_invariant sys evs Hnone) as (_ & _ & [H|[(t & Ht & Hnd)|H]]).
  - done.
  - exfalso. apply Hnd. unfold allDone in Hdone. rewrite Forall_forall in Hdone.
    by apply Hdone.
  - destruct H as (p & Hp & Hs). exists p. split; [exact Hp|].
    by rewrite settled_eventLoop.
Qed.

(** The hypotheses of [X20_finished_previews_show_a_result] are met by
    the two requests of which the first delivers last. *)
Lemma X20_finished_previews_show_a_result_witness :
  ∃ p, EvGo p ∈ firstDeliversLate ∧
       preview (eventLoop (sys_app (runSys raceStart firstDeliversLate)))
       = previewResult raceFS p.
Proof.
  apply (X20_finished_previews_show_a_result raceStart firstDeliversLate).
  - reflexivity.
  - vm_compute. discriminate.
  - unfold allDone. vm_compute. repeat constructor.
Defined.

(** ** The destination that the move dialog proposes *)

Lemma splitGo_component cur c rest :
  Count c "/"%char = 0%Z →
  splitGo "/"%char cur (c +:+ String "/"%char rest)
  = String.rev_app cur c :: splitGo "/"%char "" rest.
Proof.
  revert cur. induction c as [|a c IH]; intros cur Hc; simpl in *; [done|].
  destruct (Ascii.eqb a "/").
  - pose proof (Count_nonneg c "/"%char). lia.
  - by rewrite IH.
Qed.

Lemma splitGo_components c r :
  Forall validName (c :: r) →
  splitGo "/"%char "" (c +:+ showComponents r) = c :: r.
Proof.
  revert c. induction r as [|c2 r IH]; intros c Hv.
  - apply Forall_cons in Hv as [(_ & _ & _ & Hc) _]. simpl.
    rewrite string_app_nil_r. by rewrite splitGo_plain.
  - apply Forall_cons in Hv as [(_ & _ & _ & Hc) Hr].
    change (showComponents (c2 :: r)) with (String "/"%char (c2 +:+ showComponents r)).
    rewrite splitGo_component by exact Hc. simpl. by rewrite IH.
Qed.

Lemma fold_cleanStep_valid (p acc : Path) :
  Forall validName p → fold_left cleanStep p acc = acc ++ p.
Proof.
  revert acc. induction p as [|c p IH]; intros acc Hv; simpl.
  - by rewrite app_nil_r.
  - apply Forall_cons in Hv as [(Hne & Hd & Hdd & _) Hp].
    rewrite IH by exact Hp. unfold cleanStep.
    rewrite decide_False by (intros [?|?]; done).
    rewrite decide_False by done. by rewrite <- app_assoc.
Qed.

Lemma plainName_valid n : plainName n = true → validName n.
Proof.
  unfold plainName, validName. rewrite !andb_true_iff, !negb_true_iff.
  intros (((((H1 & H2) & H3) & H4) & _) & _).
  apply String.eqb_neq in H1, H2, H3. apply Z.eqb_eq in H4. done.
Qed.

(** A path written out and read back is the same path, whatever the
    working directory. *)
Lemma typedPath_showPath (cwd p : Path) :
  plainPath p = true → typedPath cwd (showPath p) = Some p.
Proof.
  unfold plainPath. rewrite andb_true_iff. intros [Hnames Hlen].
  unfold typedPath.
  assert ((4095 <? String.length (showPath p))%nat = false) as ->.
  { apply Nat.ltb_ge. by apply Nat.leb_le. }
  destruct p as [|c r]; [reflexivity|].
  assert (Forall validName (c :: r)) as Hv.
  { apply Forall_forall. intros n Hn. apply plainName_valid.
    rewrite forallb_forall in Hnames. apply Hnames. by apply list_elem_of_In. }
  assert (Split (showPath (c :: r)) "/" = "" :: c :: r) as ->.
  { change (showPath (c :: r)) with (String "/"%char (c +:+ showComponents r)).
    unfold Split. simpl. by rewrite splitGo_components. }
  destruct c as [|a c]; [by apply Forall_cons in Hv as [[? _] _]|].
  by rewrite Hnames.
Qed.

Section MoveDialog.
Context {tables : CaseTables}.

(** X21: the move dialog proposes the path of the entry itself.  OK on
    that proposal asks [os.Rename] to rename the entry onto itself.  For
    a regular file that goes through with nothing changed, and the
    callback hands over the message that the entry was moved.  For a
    directory Go refuses the existing directory as the new name, and the
    modal reports that the move failed. *)
Theorem X21_move_to_proposal (w : World) (old : Path) (n : Node) (title label : string) :
  root (w_app w) = ScrInput title label (showPath old) (DoneMove old) →
  plainPath old = true →
  w_fs w !! old = Some n →
  let back := set_root ScrLayout (w_app w) in
  pressOK (showPath old) w =
    match n with
    | NFile _ =>
        Waiting (UpdStatus ("Moved to: " +:+ showPath old))
                (mkWorld (w_fs w) (w_cwd w) (w_spawned w) back)
    | NDir =>
        Returns tt
          (mkWorld (w_fs w) (w_cwd w) (w_spawned w)
             (set_root (ScrModal ScrLayout
                          ("Move failed: rename " +:+ showPath old +:+ " " +:+ showPath old
                           +:+ ": file exists") false) back))
    end.
Proof.
  intros Hroot Hplain Hold. cbn zeta.
  unfold pressOK, mbind, go_mbind, go_bind, getApp. rewrite Hroot.
  unfold modifyApp, inputDone.
  assert (String.eqb (TrimSpace (showPath old)) "" = false) as ->
    by (apply String.eqb_neq, TrimSpace_showPath).
  cbn [negb orb]. unfold mbind, go_mbind, go_bind. cbv beta iota.
  rewrite Hplain. cbn [w_cwd]. rewrite typedPath_showPath by exact Hplain.
  rewrite String.eqb_refl.
  unfold goRename, Rename, sysRename. cbn [w_fs]. rewrite Hold.
  destruct n as [data|].
  - rewrite decide_True by reflexivity. reflexivity.
  - cbn [orb]. cbv beta iota zeta. unfold showModal, modifyApp, Error. simpl.
    destruct (String.eqb_spec (showPath old +:+ " " +:+ showPath old) "") as [H|_].
    + exfalso. destruct (showPath_first old) as [r Hr]. rewrite Hr in H. discriminate H.
    + by rewrite !append_assoc.
Qed.

End MoveDialog.

Section MoveDialogSample.
#[local] Existing Instance latin1.

(** The hypotheses of [X21_move_to_proposal] are met by the move dialog
    open on [/home/a/notes.txt]. *)
Lemma X21_move_to_proposal_witness :
  ∃ w', pressOK "/home/a/notes.txt" moveWorld
        = Waiting (UpdStatus "Moved to: /home/a/notes.txt") w' ∧
        w_fs w' = tagFS ∧ root (w_app w') = ScrLayout.
Proof.
  eexists. split.
  - apply (X21_move_to_proposal moveWorld (dirA ++ ["notes.txt"]) (NFile "plain")
             "Move to" "Destination path:"); vm_compute; reflexivity.
  - split; reflexivity.
Defined.

End MoveDialogSample.
(** ** The copy dialog *)

Section RenameDialogs.
Context {tables : CaseTables}.

(** X22: OK in the copy dialog with an answer that is not blank copies
    nothing.  The callback first calls [updateStatus] with [Copying...],
    on the goroutine of the event loop, and waits there for the loop:
    [copyPath] is never called, the file system is as before and the
    layout is back on the screen. *)
Theorem X22_copy_waits_before_copying (w : World) (name title label initial text : string) :
  root (w_app w) = ScrInput title label initial (DoneCopy name) →
  TrimSpace text ≠ "" →
  pressOK text w
  = Waiting (UpdStatus "Copying...")
            (mkWorld (w_fs w) (w_cwd w) (w_spawned w) (set_root ScrLayout (w_app w))).
Proof.
  intros Hroot Hne. apply String.eqb_neq in Hne.
  unfold pressOK, mbind, go_mbind, go_bind, getApp. rewrite Hroot.
  unfold modifyApp, inputDone. rewrite Hne. reflexivity.
Qed.

(** ** A rename or move with an answer that is not blank *)

Lemma Rename_failure fs old new same fs' e :
  Rename fs old new same = (fs', Some e) → fs' = fs.
Proof.
  assert (∀ fs' e, sysRename fs old new = (fs', Some e) → fs' = fs) as Hsys.
  { clear fs' e. intros fs' e. unfold sysRename.
    destruct (fs !! old) as [src|]; [|by intros [= <- _]].
    case_decide; [by intros [= <- _]|].
    destruct (under old new); [by intros [= <- _]|].
    destruct (fs !! removelast new) as [[d|]|]; try by intros [= <- _].
    destruct (fs !! new) as [[d|]|], src as [ds|]; try by intros [= <- _].
    all: try done.
    destruct (hasChildren fs new); [by intros [= <- _] | done]. }
  unfold Rename. destruct (fs !! new) as [[d|]|]; try apply Hsys.
  destruct (fs !! old) as [src|]; [|by intros [= <- _]].
  destruct (same || _); [by intros [= <- _] | apply Hsys].
Qed.

(** X23: a rename or move with an answer that is not blank ends in one
    of two ways.  Either [os.Rename] fails: then the file system is
    exactly as before, the callback returns and the modal carries the
    error.  Or it goes through: then the layout is back and the callback
    hands over the message of success.  A failure is never silent and
    never leaves a half-done change behind. *)
Theorem X23_rename_fails_cleanly (w : World) (k : InputDone)
    (title label initial text : string) (old new : Path) (same : bool) :
  root (w_app w) = ScrInput title label initial k →
  TrimSpace text ≠ "" →
  renameCall w k text = Some (old, new, same) →
  let back := set_root ScrLayout (w_app w) in
  match Rename (w_fs w) old new same with
  | (fs', Some e) =>
      fs' = w_fs w ∧
      pressOK text w
      = Returns tt (mkWorld (w_fs w) (w_cwd w) (w_spawned w)
                      (set_root (ScrModal ScrLayout (failedPrefix k +:+ Error e) false) back))
  | (fs', None) =>
      pressOK text w
      = Waiting (UpdStatus (donePrefix k +:+ text))
                (mkWorld fs' (w_cwd w) (w_spawned w) back)
  end.
Proof.
  intros Hroot Hne Hcall. cbn zeta. apply String.eqb_neq in Hne.
  destruct (Rename (w_fs w) old new same) as [fs' [e|]] eqn:E.
  - pose proof (Rename_failure _ _ _ _ _ _ E) as ->. split; [done|].
    unfold pressOK, mbind, go_mbind, go_bind, getApp. rewrite Hroot.
    unfold modifyApp, inputDone. destruct k as [o|name|o|]; try discriminate Hcall.
    + rewrite Hne. cbn [negb orb]. unfold mbind, go_mbind, go_bind, getApp. cbv beta iota.
      cbn [w_app currentDir set_root].
      unfold renameCall in Hcall. cbv zeta in Hcall.
      destruct (plainPath o && plainPath _); [|discriminate Hcall].
      injection Hcall as -> <- <-. cbn [negb].
      unfold goRename. cbn [w_fs]. rewrite E. reflexivity.
    + rewrite Hne. cbn [negb orb]. unfold mbind, go_mbind, go_bind. cbv beta iota.
      unfold renameCall in Hcall. cbn [w_cwd].
      destruct (plainPath o); [|discriminate Hcall].
      destruct (typedPath (w_cwd w) text) as [p|]; [|discriminate Hcall].
      injection Hcall as -> <- <-.
      unfold goRename. cbn [w_fs]. rewrite E. reflexivity.
  - unfold pressOK, mbind, go_mbind, go_bind, getApp. rewrite Hroot.
    unfold modifyApp, inputDone. destruct k as [o|name|o|]; try discriminate Hcall.
    + rewrite Hne. cbn [negb orb]. unfold mbind, go_mbind, go_bind, getApp. cbv beta iota.
      cbn [w_app currentDir set_root].
      unfold renameCall in Hcall. cbv zeta in Hcall.
      destruct (plainPath o && plainPath _); [|discriminate Hcall].
      injection Hcall as -> <- <-. cbn [negb].
      unfold goRename. cbn [w_fs]. rewrite E. reflexivity.
    + rewrite Hne. cbn [negb orb]. unfold mbind, go_mbind, go_bind. cbv beta iota.
      unfold renameCall in Hcall. cbn [w_cwd].
      destruct (plainPath o); [|discriminate Hcall].
      destruct (typedPath (w_cwd w) text) as [p|]; [|discriminate Hcall].
      injection Hcall as -> <- <-.
      unfold goRename. cbn [w_fs]. rewrite E. reflexivity.
Qed.

End RenameDialogs.

Section RenameDialogsSample.
#[local] Existing Instance latin1.

(** The hypotheses of [X22_copy_waits_before_copying] are met by the
    copy dialog open on [/home/a/notes.txt], answered with the
    destination it proposes. *)
Lemma X22_copy_waits_before_copying_witness :
  ∃ w', pressOK "/home/a/notes.txt.copy" copyWorld = Waiting (UpdStatus "Copying...") w' ∧
        w_fs w' = tagFS ∧
        w_fs w' !! (dirA ++ ["notes.txt.copy"]) = None.
Proof.
  eexists. split.
  - apply (X22_copy_waits_before_copying copyWorld "notes.txt" "Copy to"
             "Destination path:" (showPath (dirA ++ ["notes.txt.copy"]))).
    + reflexivity.
    + vm_compute. discriminate.
  - split; [reflexivity | vm_compute; reflexivity].
Defined.

(** The hypotheses of [X23_rename_fails_cleanly] are met by the rename
    dialog of [/home/a/notes.txt] answered with a name in a directory
    that does not exist, which fails, and answered with a new name in the
    same directory, which goes through. *)
Lemma X23_rename_fails_cleanly_witness :
  (∃ w', pressOK "nowhere/x" renameWorld = Returns tt w' ∧
         w_fs w' = tagFS ∧
         root (w_app w')
         = ScrModal ScrLayout
             "Rename failed: rename /home/a/notes.txt /home/a/nowhere/x: no such file or directory"
             false) ∧
  (∃ w', pressOK "Notes.md" renameWorld = Waiting (UpdStatus "Renamed to: Notes.md") w' ∧
         w_fs w' !! (dirA ++ ["notes.txt"]) = None ∧
         w_fs w' !! (dirA ++ ["Notes.md"]) = Some (NFile "plain")).
Proof.
  pose proof (X23_rename_fails_cleanly renameWorld (DoneRename (dirA ++ ["notes.txt"]))
                "Rename" "New name:" "notes.txt") as H.
  split.
  - specialize (H "nowhere/x" (dirA ++ ["notes.txt"]) (dirA ++ ["nowhere"; "x"]) false
                  eq_refl).
    destruct H as [_ H]; [vm_compute; discriminate | vm_compute; reflexivity |].
    eexists. split; [exact H|]. split; vm_compute; reflexivity.
  - specialize (H "Notes.md" (dirA ++ ["notes.txt"]) (dirA ++ ["Notes.md"]) false eq_refl).
    eexists. split.
    + apply H; [vm_compute; discriminate | vm_compute; reflexivity].
    + split; vm_compute; reflexivity.
Defined.

End RenameDialogsSample.

(** ** Choosing an item: the closure of the item and the handler of the list *)

Section Choosing.
Context {tables : CaseTables}.

(** X24: for an item whose entry is up to date, is not named like the
    parent item, and is a directory or a file whose name does not begin
    with the tag of directories, the handler that [setupKeys] installs
    on the list does exactly what the closure of the item does; for the
    parent item both change to the parent directory. *)
Theorem X24_selected_like_item (metaText : string → Path → Node → string)
    (w : World) (i : nat) :
  (∀ e, items (filesList (w_app w)) !! i = Some (entryItem e) →
        plainEntry e → validName (Name e) → Name e ≠ goUpLabel → upToDate w e →
        selectedFunc metaText (Z.of_nat i) w = runItem metaText (ActEnter e) w) ∧
  (items (filesList (w_app w)) !! i = Some parentItem →
   selectedFunc metaText (Z.of_nat i) w = runItem metaText ActGoUp w).
Proof.
  assert (∀ it, items (filesList (w_app w)) !! i = Some it →
            selectedFunc metaText (Z.of_nat i) w
            = (let name := TrimPrefix (MainText it) dirTag in
               if String.eqb name goUpLabel
               then changeDir metaText (filepath_Dir (currentDir (w_app w)))
               else
                 let path := filepath_Join (currentDir (w_app w)) name in
                 fs ← getFS;
                 match OS.Stat fs path with
                 | inr NDir => changeDir metaText path
                 | _ => openPreview path ;; mret []
                 end) w) as Hsel.
  { intros it Hit. unfold selectedFunc. unfold mbind at 1. unfold go_mbind at 1.
    unfold go_bind at 1. unfold getApp at 1. cbv beta iota.
    assert ((Z.of_nat i <? 0)%Z = false) as -> by (apply Z.ltb_ge; lia).
    assert ((GetItemCount (filesList (w_app w)) <=? Z.of_nat i)%Z = false) as ->.
    { apply Z.leb_gt. unfold GetItemCount. apply lookup_lt_Some in Hit. lia. }
    cbn [orb]. unfold mbind at 1. unfold go_mbind at 1. unfold go_bind at 1.
    by rewrite (GetItemText_at w i it Hit). }
  split.
  - intros e Hit Hplain Hvalid Hup Hdate. rewrite (Hsel _ Hit). cbn zeta.
    change (MainText (entryItem e)) with (listLabel e).
    rewrite (TrimPrefix_listLabel e Hplain).
    apply String.eqb_neq in Hup. rewrite Hup.
    rewrite (filepath_Join_name _ _ Hvalid).
    unfold runItem, onEnter, mbind, go_mbind, go_bind, getApp, getFS. cbv beta iota.
    rewrite (filepath_Join_name _ _ Hvalid).
    unfold upToDate in Hdate. unfold Stat.
    destruct (IsDir e) eqn:Hd.
    + by rewrite (proj1 Hdate eq_refl).
    + destruct (w_fs w !! (currentDir (w_app w) ++ [Name e])) as [[d|]|] eqn:Hq;
        try reflexivity.
      destruct Hdate as [_ H]. by specialize (H eq_refl).
  - intros Hit. rewrite (Hsel _ Hit). reflexivity.
Qed.

End Choosing.

Section ChoosingSample.
#[local] Existing Instance latin1.

(** The hypotheses of [X24_selected_like_item] are met by the file
    [notes.txt], second item of the list of [/home/a]. *)
Lemma X24_selected_like_item_witness :
  selectedFunc (λ _ _ _, "") 1 notesWorld
  = runItem (λ _ _ _, "") (ActEnter (mkDirEntry "notes.txt" false)) notesWorld.
Proof.
  destruct (X24_selected_like_item (λ _ _ _, "") notesWorld 1) as [Hentry _].
  apply (Hentry (mkDirEntry "notes.txt" false)).
  - vm_compute. reflexivity.
  - right. vm_compute. reflexivity.
  - unfold validName. simpl. split_and!; (discriminate || reflexivity).
  - discriminate.
  - unfold upToDate. split; [discriminate|]. vm_compute. discriminate.
Defined.

End ChoosingSample.
